(** * Meta-controller supervisors of metac (controller/generic/metacontroller.go)

    A shallow embedding of the two supervisors that start, stop and restart
    one watch controller per GenericController definition:

    - [ConfigBasedMetaController]: definitions come from a config path or a
      caller-supplied function; a polling [wait] loop starts them all;
    - [CRDBasedMetaController]: definitions come from an informer over custom
      resources; a single worker reconciles keys taken from a work queue.

    Go methods with a pointer receiver are state transformers over the
    receiver and the outside world ([St]); a Go result [(v, err)] is a pair
    or a sum; collaborators that live outside this file of the repository
    (the watch controller itself, discovery, the config loader, the work
    queue, the clock) are part of [World] or of the class [Externals]. *)

From stdpp Require Import gmap strings list fin_maps.
From Stdlib Require Import ZArith Lia.

Open Scope Z_scope.

(** ** Errors *)

(** Go [error] values.  [Errorf] and [Wrapf] are those of pkg/errors;
    [StatusNotFound] is an API status error whose reason is NotFound;
    [TimedOut] is the formatted error of [wait], with its three arguments
    (receiver name, configured timeout, last error of the condition). *)
#[warnings="-register-all"] Inductive error :=
| Errorf (msg : string)
| Wrapf (cause : error) (msg : string)
| StatusNotFound (msg : string)
| TimedOut (who : string) (timeout : Z) (cause : option error).

(** apierrors.IsNotFound *)
Definition IsNotFound (err : error) : bool :=
  match err with
  | StatusNotFound _ => true
  | _ => false
  end.

(** ** Definitions (GenericController resources) *)

(** The part of metav1.ObjectMeta that identifies and decorates an object. *)
Record ObjectMeta := {
  Namespace : string;
  Name : string;
  Labels : list (string * string);
  Annotations : list (string * string);
  ResourceVersion : string;
}.

(** What this file uses of packages that are not part of it: the type of a
    definition's [.Spec] with apiequality.Semantic.DeepEqual on it, and
    common.KeyFunc, which computes the queue key of the object of an informer
    event from its metadata and may fail. *)
Class Externals := {
  GenericControllerSpec : Type;
  Semantic_DeepEqual : GenericControllerSpec -> GenericControllerSpec -> bool;
  KeyFunc : ObjectMeta -> error + string;
}.

(** Time is counted in nanoseconds, as time.Duration does, an int64. *)
Definition Second : Z := 1000000000.
Definition Minute : Z := 60 * Second.
Definition minDuration : Z := - 2 ^ 63.
Definition maxDuration : Z := 2 ^ 63 - 1.

(** The difference of two clock readings as a Duration: time.Time.Sub
    gives the largest (smallest) Duration when the difference is beyond
    it. *)
Definition saturate (d : Z) : Z := Z.max minDuration (Z.min maxDuration d).

(** time.Sleep returns at once for a zero or negative duration. *)
Definition sleep_duration (d : Z) : Z := Z.max 0 d.

(** strings.Split on a one-character separator. *)
Fixpoint strings_Split (sep : Ascii.ascii) (s : string) : list string :=
  match s with
  | EmptyString => [EmptyString]
  | String c s' =>
      if Ascii.eqb c sep then EmptyString :: strings_Split sep s'
      else match strings_Split sep s' with
           | [] => [String c EmptyString]
           | h :: t => String c h :: t
           end
  end.

Definition slash : Ascii.ascii := Ascii.ascii_of_nat 47.

(** cache.SplitMetaNamespaceKey (client-go): one part is a name without
    namespace, two parts are namespace and name, anything else is an error. *)
Definition SplitMetaNamespaceKey (key : string) : error + (string * string) :=
  match strings_Split slash key with
  | [name] => inr (EmptyString, name)
  | [ns; name] => inr (ns, name)
  | _ => inl (Errorf ("unexpected key format: " +:+ key))
  end.

(** A Go channel that is only ever closed, never sent on. *)
Inductive chan := ChanNil | ChanOpen | ChanClosed.

#[global] Instance chan_eq_dec : EqDecision chan.
Proof. solve_decision. Defined.

(** Opaque references handed through to the watch controllers. *)
Inductive Handle := handle (n : nat).

Section Model.
Context `{Externals}.

Record GenericController := {
  ObjMeta : ObjectMeta;
  Spec : GenericControllerSpec;
}.

(** Modelled from the spec: [GenericController.Key] is declared with the API
    types, outside this file; the key of a definition is
    "{namespace}/{name}", with an empty namespace when cluster-scoped. *)
Definition Key (gc : GenericController) : string :=
  Namespace (ObjMeta gc) +:+ "/" +:+ Name (ObjMeta gc).

(** ** Watch controllers *)

(** A watch controller, as far as the supervisors look at it: the definition
    it was built from, and the identity of the allocated object. *)
Record watchController := {
  wc_id : nat;
  GCtlConfig : GenericController;
}.

(** What the supervisors do to the outside, in the order they do it. *)
Inductive event :=
| EvNewWatchController (conf : GenericController) (res : option nat)
| EvStart (id : nat) (workers : Z)
| EvStop (id : nat)
| EvConfigLoad (path : string)
| EvListGenericControllers
| EvConfigFn
| EvSleep (d : Z)
| EvHandleError (err : error).

(** ** The outside world *)

(** [trace] is chronological (latest event last).  [next_id] numbers the
    watch controllers allocated so far.  [now] is the monotonic clock.  The
    three oracles answer for the collaborators: whether the resources of a
    definition can be discovered at the n-th external call, how long the
    n-th external call takes, and what the config loader finds at a path
    (Load may fail, and so may ListGenericControllers on what was loaded). *)
Record World := {
  trace : list event;
  next_id : nat;
  now : Z;
  ext_calls : nat;
  discovery : nat -> GenericController -> option error;
  latency : nat -> N;
  config_files : string -> error + (error + list GenericController);
}.

Definition emit (e : event) (w : World) : World :=
  {| trace := trace w ++ [e]; next_id := next_id w; now := now w;
     ext_calls := ext_calls w; discovery := discovery w;
     latency := latency w; config_files := config_files w |}.

(** One external call returns: the clock has moved by what the call took. *)
Definition elapse (w : World) : World :=
  {| trace := trace w; next_id := next_id w;
     now := now w + Z.of_N (latency w (ext_calls w));
     ext_calls := S (ext_calls w); discovery := discovery w;
     latency := latency w; config_files := config_files w |}.

Definition advance (d : Z) (w : World) : World :=
  {| trace := trace w; next_id := next_id w; now := now w + d;
     ext_calls := ext_calls w; discovery := discovery w;
     latency := latency w; config_files := config_files w |}.

Definition alloc (w : World) : World :=
  {| trace := trace w; next_id := S (next_id w); now := now w;
     ext_calls := ext_calls w; discovery := discovery w;
     latency := latency w; config_files := config_files w |}.

(** The watch controllers that run after a trace: started and not stopped
    since. *)
Definition running_step (s : gset nat) (e : event) : gset nat :=
  match e with
  | EvStart id _ => {[id]} ∪ s
  | EvStop id => s ∖ {[id]}
  | _ => s
  end.

Definition running (tr : list event) : gset nat := foldl running_step ∅ tr.

(** ** Receivers and the state monad *)

Record MetaController := {
  ResourceManager : Handle;
  DynClientset : Handle;
  DynInformerFactory : Handle;
  WatchControllers : gmap string watchController;
  WorkerCount : Z;
  doneCh : chan;
}.

Definition set_WatchControllers (m : gmap string watchController)
  (mc : MetaController) : MetaController :=
  {| ResourceManager := ResourceManager mc; DynClientset := DynClientset mc;
     DynInformerFactory := DynInformerFactory mc; WatchControllers := m;
     WorkerCount := WorkerCount mc; doneCh := doneCh mc |}.

Definition set_doneCh (c : chan) (mc : MetaController) : MetaController :=
  {| ResourceManager := ResourceManager mc; DynClientset := DynClientset mc;
     DynInformerFactory := DynInformerFactory mc;
     WatchControllers := WatchControllers mc;
     WorkerCount := WorkerCount mc; doneCh := c |}.

(** A receiver [self] of type [C] together with the world. *)
Record St (C : Type) := mkSt { self : C; world : World }.
Arguments mkSt {C} _ _.
Arguments self {C} _.
Arguments world {C} _.

Definition M (C A : Type) : Type := St C -> A * St C.

Definition ret {C A} (a : A) : M C A := fun st => (a, st).
Definition bind {C A B} (c : M C A) (k : A -> M C B) : M C B :=
  fun st => let (a, st') := c st in k a st'.
Definition get_self {C} : M C C := fun st => (self st, st).
Definition modify_self {C} (f : C -> C) : M C unit :=
  fun st => (tt, mkSt (f (self st)) (world st)).
Definition get_world {C} : M C World := fun st => (world st, st).
Definition modify_world {C} (f : World -> World) : M C unit :=
  fun st => (tt, mkSt (self st) (f (world st))).

Notation "x <- c1 ;; c2" := (bind c1 (fun x => c2))
  (at level 100, c1 at next level, right associativity).
Notation "c1 ;; c2" := (bind c1 (fun _ => c2))
  (at level 100, right associativity).

(** Modelled from the spec: [newWatchController] and the methods [Start] and
    [Stop] of a watch controller are in another file of the package.  On
    construction the controller resolves the resources of its definition
    through discovery, "failing if any kind is unknown", and is bound to the
    definition it was given; [Start] and [Stop] return when the controller
    runs, respectively has stopped. *)
Definition newWatchController {C} (rm dc dif : Handle)
  (conf : GenericController) : M C (error + watchController) :=
  fun st =>
    let w := world st in
    match discovery w (ext_calls w) conf with
    | Some err =>
        (inl err,
         mkSt (self st) (emit (EvNewWatchController conf None) (elapse w)))
    | None =>
        let wc := {| wc_id := next_id w; GCtlConfig := conf |} in
        (inr wc,
         mkSt (self st)
           (emit (EvNewWatchController conf (Some (next_id w)))
              (alloc (elapse w))))
    end.

Definition wc_Start {C} (wc : watchController) (workerCount : Z) : M C unit :=
  modify_world (emit (EvStart (wc_id wc) workerCount)).

Definition wc_Stop {C} (wc : watchController) : M C unit :=
  modify_world (emit (EvStop (wc_id wc))).

(** time.Since reads the clock; time.Sleep pauses for at least [d]: for the
    duration itself, and for what the scheduler adds before the goroutine
    runs again, which the world's [latency] decides. *)
Definition since (start : Z) (w : World) : Z := saturate (now w - start).

Definition time_Since {C} (start : Z) : M C Z :=
  fun st => (since start (world st), st).

Definition time_Sleep {C} (d : Z) : M C unit :=
  modify_world (fun w => elapse (advance (sleep_duration d) (emit (EvSleep d) w))).

(** ** The Config-driven supervisor *)

Record ConfigBasedMetaController := {
  cfg_mc : MetaController;
  ConfigPath : string;
  GenericControllerAsConfigFn : option (unit -> error + list GenericController);
  GenericControllerConfigs : list GenericController;
  WaitTimeoutForCondition : Z;
  WaitIntervalForCondition : Z;
}.

Definition cfg_set_mc (mc : MetaController) (c : ConfigBasedMetaController)
  : ConfigBasedMetaController :=
  {| cfg_mc := mc; ConfigPath := ConfigPath c;
     GenericControllerAsConfigFn := GenericControllerAsConfigFn c;
     GenericControllerConfigs := GenericControllerConfigs c;
     WaitTimeoutForCondition := WaitTimeoutForCondition c;
     WaitIntervalForCondition := WaitIntervalForCondition c |}.

Definition cfg_set_configs (l : list GenericController)
  (c : ConfigBasedMetaController) : ConfigBasedMetaController :=
  {| cfg_mc := cfg_mc c; ConfigPath := ConfigPath c;
     GenericControllerAsConfigFn := GenericControllerAsConfigFn c;
     GenericControllerConfigs := l;
     WaitTimeoutForCondition := WaitTimeoutForCondition c;
     WaitIntervalForCondition := WaitIntervalForCondition c |}.

(** A functional option mutates the instance and may report an error. *)
Definition ConfigBasedMetaControllerOption : Type :=
  ConfigBasedMetaController -> option error * ConfigBasedMetaController.

Definition SetGenericControllerAsConfigFn
  (fn : unit -> error + list GenericController)
  : ConfigBasedMetaControllerOption :=
  fun c =>
    (None,
     {| cfg_mc := cfg_mc c; ConfigPath := ConfigPath c;
        GenericControllerAsConfigFn := Some fn;
        GenericControllerConfigs := GenericControllerConfigs c;
        WaitTimeoutForCondition := WaitTimeoutForCondition c;
        WaitIntervalForCondition := WaitIntervalForCondition c |}).

Definition SetMetaControllerConfigPath (path : string)
  : ConfigBasedMetaControllerOption :=
  fun c =>
    (None,
     {| cfg_mc := cfg_mc c; ConfigPath := path;
        GenericControllerAsConfigFn := GenericControllerAsConfigFn c;
        GenericControllerConfigs := GenericControllerConfigs c;
        WaitTimeoutForCondition := WaitTimeoutForCondition c;
        WaitIntervalForCondition := WaitIntervalForCondition c |}).

(** The zero value of the embedded struct: nil map, nil channel. *)
Definition zero_MetaController : MetaController :=
  {| ResourceManager := handle 0; DynClientset := handle 0;
     DynInformerFactory := handle 0; WatchControllers := ∅;
     WorkerCount := 0; doneCh := ChanNil |}.

(** The loop that runs the options over the instance. *)
Fixpoint run_options (opts : list ConfigBasedMetaControllerOption)
  (obj : ConfigBasedMetaController) : error + ConfigBasedMetaController :=
  match opts with
  | [] => inr obj
  | o :: rest =>
      match o obj with
      | (Some err, _) => inl err
      | (None, obj') => run_options rest obj'
      end
  end.

(** config.New(path).Load() followed by ListGenericControllers(): the
    loader is outside this file; what it finds is the world's. *)
Definition config_Load (path : string) (w : World)
  : (error + (error + list GenericController)) * World :=
  (config_files w path, emit (EvConfigLoad path) w).

(** The instance before the options run: the two durations are set, every
    other field has its zero value. *)
Definition new_obj : ConfigBasedMetaController :=
  {| cfg_mc := zero_MetaController; ConfigPath := "";
     GenericControllerAsConfigFn := None;
     GenericControllerConfigs := [];
     WaitTimeoutForCondition := 30 * Minute;
     WaitIntervalForCondition := 1 * Second |}.

Definition NewConfigBasedMetaController (resourceMgr dynClientset
  dynInformerFactory : Handle) (workerCount : Z)
  (opts : list ConfigBasedMetaControllerOption) (w : World)
  : (error + ConfigBasedMetaController) * World :=
  match run_options opts new_obj with
  | inl err => (inl err, w)
  | inr obj =>
      let pathEmpty := String.eqb (ConfigPath obj) "" in
      match pathEmpty, GenericControllerAsConfigFn obj with
      | true, None =>
          (inl (Errorf "New config metacontroller failed: Both ConfigPath & GenericControllerAsConfig can't be empty"), w)
      | _, fn =>
          let '(gctls, w1) :=
            if negb pathEmpty then
              match config_Load (ConfigPath obj) w with
              | (inl err, w1) => (inl err, w1)
              | (inr mconfigs, w1) =>
                  (mconfigs, emit EvListGenericControllers w1)
              end
            else
              match fn with
              | Some f => (f tt, emit EvConfigFn w)
              | None => (inl (Errorf "nil function"), w) (* excluded above *)
              end in
          match gctls with
          | inl err => (inl err, w1)
          | inr gctlsAsConfig =>
              (inr (cfg_set_mc
                      {| ResourceManager := resourceMgr;
                         DynClientset := dynClientset;
                         DynInformerFactory := dynInformerFactory;
                         WatchControllers := ∅;
                         WorkerCount := workerCount;
                         doneCh := ChanNil |}
                      (cfg_set_configs gctlsAsConfig obj)), w1)
          end
      end
  end.

Definition cfg_String : string := "Local GenericController".

(** The body of the loop of [startAllWatchControllers] over the configs
    that remain. *)
Fixpoint startAll_loop (confs : list GenericController)
  : M ConfigBasedMetaController (bool * option error) :=
  match confs with
  | [] => ret (true, None)
  | conf :: rest =>
      let key := Key conf in
      mc <- get_self ;;
      match WatchControllers (cfg_mc mc) !! key with
      | Some _ => startAll_loop rest
      | None =>
          r <- newWatchController (ResourceManager (cfg_mc mc))
                 (DynClientset (cfg_mc mc)) (DynInformerFactory (cfg_mc mc))
                 conf ;;
          match r with
          | inl err =>
              ret (false,
                   Some (Wrapf err (cfg_String +:+ ": Failed to sync key " +:+ key)))
          | inr wc =>
              wc_Start wc (WorkerCount (cfg_mc mc)) ;;
              modify_self (fun c =>
                cfg_set_mc
                  (set_WatchControllers
                     (<[key := wc]> (WatchControllers (cfg_mc c))) (cfg_mc c))
                  c) ;;
              startAll_loop rest
          end
      end
  end.

Definition startAllWatchControllers
  : M ConfigBasedMetaController (bool * option error) :=
  mc <- get_self ;;
  startAll_loop (GenericControllerConfigs mc).

(** One turn of the loop of [wait]: [Some r] when the loop returns [r],
    [None] when it has slept and goes round again. *)
Definition wait_turn (condition : M ConfigBasedMetaController (bool * option error))
  (start : Z) : M ConfigBasedMetaController (option (option error)) :=
  r <- condition ;;
  match r with
  | (true, None) => ret (Some None)
  | (_, err) =>
      since <- time_Since start ;;
      mc <- get_self ;;
      if since >? WaitTimeoutForCondition mc then
        ret (Some (Some (TimedOut cfg_String (WaitTimeoutForCondition mc) err)))
      else
        time_Sleep (WaitIntervalForCondition mc) ;;
        ret None
  end.

(** The loop of [wait], for at most [fuel] turns; [None] when the fuel ran
    out before the loop returned. *)
Fixpoint wait_loop (fuel : nat)
  (condition : M ConfigBasedMetaController (bool * option error))
  (start : Z) : M ConfigBasedMetaController (option (option error)) :=
  match fuel with
  | O => ret None
  | S fuel' =>
      r <- wait_turn condition start ;;
      match r with
      | Some res => ret (Some res)
      | None => wait_loop fuel' condition start
      end
  end.

Definition wait (fuel : nat)
  (condition : M ConfigBasedMetaController (bool * option error))
  : M ConfigBasedMetaController (option (option error)) :=
  w <- get_world ;;
  wait_loop fuel condition (now w).

(** How the goroutine of [Start] ends: the deferred close of [doneCh], or
    glog.Fatalf, which ends the process. *)
Inductive outcome := Completed | Fatal (err : error).

(** [Start] makes the channel; its goroutine runs [wait] over
    [startAllWatchControllers] and closes the channel unless it died. *)
Definition cfg_Start_make : M ConfigBasedMetaController unit :=
  modify_self (fun c => cfg_set_mc (set_doneCh ChanOpen (cfg_mc c)) c).

Definition cfg_Start_goroutine (fuel : nat)
  : M ConfigBasedMetaController (option outcome) :=
  condErr <- wait fuel startAllWatchControllers ;;
  match condErr with
  | None => ret None
  | Some (Some err) => ret (Some (Fatal err))
  | Some None =>
      modify_self (fun c => cfg_set_mc (set_doneCh ChanClosed (cfg_mc c)) c) ;;
      ret (Some Completed)
  end.

(** ** The work queue (client-go workqueue, rate limited)

    [wq_queue] holds the keys to hand out, in order; [wq_dirty] the keys
    that need processing; [wq_processing] the keys handed out and not yet
    done; [wq_failures] the rate limiter's count of requeues per key;
    [wq_waiting] the keys added with a delay that has not yet passed. *)
Record workqueue := {
  wq_queue : list string;
  wq_dirty : gset string;
  wq_processing : gset string;
  wq_shuttingDown : bool;
  wq_failures : gmap string nat;
  wq_waiting : list string;
}.

Definition wq_Add (item : string) (q : workqueue) : workqueue :=
  if wq_shuttingDown q then q
  else if decide (item ∈ wq_dirty q) then q
  else
    {| wq_queue := if decide (item ∈ wq_processing q) then wq_queue q
                   else wq_queue q ++ [item];
       wq_dirty := {[item]} ∪ wq_dirty q;
       wq_processing := wq_processing q;
       wq_shuttingDown := false;
       wq_failures := wq_failures q;
       wq_waiting := wq_waiting q |}.

(** What [Get] answers: it blocks on an empty queue that is not shutting
    down, reports quit on an empty queue that is, and otherwise hands out
    the first key. *)
Inductive wq_got := GetBlocks | GetQuit | GetItem (item : string) (q : workqueue).

Definition wq_Get (q : workqueue) : wq_got :=
  match wq_queue q with
  | [] => if wq_shuttingDown q then GetQuit else GetBlocks
  | item :: rest =>
      GetItem item
        {| wq_queue := rest;
           wq_dirty := wq_dirty q ∖ {[item]};
           wq_processing := {[item]} ∪ wq_processing q;
           wq_shuttingDown := wq_shuttingDown q;
           wq_failures := wq_failures q;
           wq_waiting := wq_waiting q |}
  end.

Definition wq_Done (item : string) (q : workqueue) : workqueue :=
  {| wq_queue := if decide (item ∈ wq_dirty q) then wq_queue q ++ [item]
                 else wq_queue q;
     wq_dirty := wq_dirty q;
     wq_processing := wq_processing q ∖ {[item]};
     wq_shuttingDown := wq_shuttingDown q;
     wq_failures := wq_failures q;
     wq_waiting := wq_waiting q |}.

(** The rate limiter counts the requeue; the key is added once its backoff
    has passed, unless the queue is shutting down. *)
Definition wq_AddRateLimited (item : string) (q : workqueue) : workqueue :=
  {| wq_queue := wq_queue q;
     wq_dirty := wq_dirty q;
     wq_processing := wq_processing q;
     wq_shuttingDown := wq_shuttingDown q;
     wq_failures := <[item := S (default 0%nat (wq_failures q !! item))]>
                      (wq_failures q);
     wq_waiting := if wq_shuttingDown q then wq_waiting q
                   else wq_waiting q ++ [item] |}.

Definition wq_Forget (item : string) (q : workqueue) : workqueue :=
  {| wq_queue := wq_queue q;
     wq_dirty := wq_dirty q;
     wq_processing := wq_processing q;
     wq_shuttingDown := wq_shuttingDown q;
     wq_failures := delete item (wq_failures q);
     wq_waiting := wq_waiting q |}.

Definition wq_ShutDown (q : workqueue) : workqueue :=
  {| wq_queue := wq_queue q;
     wq_dirty := wq_dirty q;
     wq_processing := wq_processing q;
     wq_shuttingDown := true;
     wq_failures := wq_failures q;
     wq_waiting := wq_waiting q |}.

Definition wq_empty : workqueue :=
  {| wq_queue := []; wq_dirty := ∅; wq_processing := ∅;
     wq_shuttingDown := false; wq_failures := ∅; wq_waiting := [] |}.

(** ** The CRD-driven supervisor *)

(** [Lister] is the informer's view of the definitions at this moment, by
    namespace and name; [InformerHasSynced] what the informer reports. *)
Record CRDBasedMetaController := {
  crd_mc : MetaController;
  Lister : string -> string -> error + GenericController;
  InformerHasSynced : bool;
  Queue : workqueue;
  stopCh : chan;
}.

Definition crd_set_mc (mc : MetaController) (c : CRDBasedMetaController)
  : CRDBasedMetaController :=
  {| crd_mc := mc; Lister := Lister c;
     InformerHasSynced := InformerHasSynced c; Queue := Queue c;
     stopCh := stopCh c |}.

Definition crd_set_Queue (q : workqueue) (c : CRDBasedMetaController)
  : CRDBasedMetaController :=
  {| crd_mc := crd_mc c; Lister := Lister c;
     InformerHasSynced := InformerHasSynced c; Queue := q;
     stopCh := stopCh c |}.

Definition crd_set_stopCh (ch : chan) (c : CRDBasedMetaController)
  : CRDBasedMetaController :=
  {| crd_mc := crd_mc c; Lister := Lister c;
     InformerHasSynced := InformerHasSynced c; Queue := Queue c;
     stopCh := ch |}.

Definition crd_set_Lister (l : string -> string -> error + GenericController)
  (c : CRDBasedMetaController) : CRDBasedMetaController :=
  {| crd_mc := crd_mc c; Lister := l;
     InformerHasSynced := InformerHasSynced c; Queue := Queue c;
     stopCh := stopCh c |}.

Definition crd_update_map
  (f : gmap string watchController -> gmap string watchController)
  : M CRDBasedMetaController unit :=
  modify_self (fun c =>
    crd_set_mc (set_WatchControllers (f (WatchControllers (crd_mc c)))
                  (crd_mc c)) c).

Definition NewCRDBasedMetaController (resourceMgr dynClientset
  dynInformerFactory : Handle)
  (lister : string -> string -> error + GenericController)
  (workerCount : Z) : CRDBasedMetaController :=
  {| crd_mc := {| ResourceManager := resourceMgr;
                  DynClientset := dynClientset;
                  DynInformerFactory := dynInformerFactory;
                  WatchControllers := ∅;
                  WorkerCount := workerCount;
                  doneCh := ChanNil |};
     Lister := lister;
     InformerHasSynced := false;
     Queue := wq_empty;
     stopCh := ChanNil |}.

Definition crd_String : string := "CRD GenericController".

(** The second half of [syncGenericController]: build, start, record. *)
Definition syncGenericController_recreate (ctrl : GenericController)
  : M CRDBasedMetaController (option error) :=
  mc <- get_self ;;
  r <- newWatchController (ResourceManager (crd_mc mc))
         (DynClientset (crd_mc mc)) (DynInformerFactory (crd_mc mc)) ctrl ;;
  match r with
  | inl err => ret (Some err)
  | inr wc =>
      wc_Start wc (WorkerCount (crd_mc mc)) ;;
      crd_update_map (insert (Key ctrl) wc) ;;
      ret None
  end.

Definition syncGenericController (ctrl : GenericController)
  : M CRDBasedMetaController (option error) :=
  mc <- get_self ;;
  match WatchControllers (crd_mc mc) !! Key ctrl with
  | Some c =>
      if Semantic_DeepEqual (Spec ctrl) (Spec (GCtlConfig c)) then ret None
      else
        wc_Stop c ;;
        crd_update_map (delete (Key ctrl)) ;;
        syncGenericController_recreate ctrl
  | None => syncGenericController_recreate ctrl
  end.

Definition sync (key : string) : M CRDBasedMetaController (option error) :=
  match SplitMetaNamespaceKey key with
  | inl err => ret (Some err)
  | inr (ns, name) =>
      mc <- get_self ;;
      match Lister mc ns name with
      | inl err =>
          if IsNotFound err then
            match WatchControllers (crd_mc mc) !! key with
            | Some c =>
                wc_Stop c ;;
                crd_update_map (delete key) ;;
                ret None
            | None => ret None
            end
          else ret (Some err)
      | inr ctrl => syncGenericController ctrl
      end
  end.

(** [None] when [Queue.Get] blocks; otherwise the boolean the worker loop
    tests. *)
Definition processNextWorkItem : M CRDBasedMetaController (option bool) :=
  mc <- get_self ;;
  match wq_Get (Queue mc) with
  | GetBlocks => ret None
  | GetQuit => ret (Some false)
  | GetItem key q =>
      modify_self (crd_set_Queue q) ;;
      err <- sync key ;;
      match err with
      | Some e =>
          modify_world
            (emit (EvHandleError
                     (Wrapf e (crd_String +:+ ": Failed to sync key " +:+ key
                               +:+ ": Will re-queue")))) ;;
          modify_self (fun c => crd_set_Queue (wq_AddRateLimited key (Queue c)) c) ;;
          modify_self (fun c => crd_set_Queue (wq_Done key (Queue c)) c) ;;
          ret (Some true)
      | None =>
          modify_self (fun c => crd_set_Queue (wq_Forget key (Queue c)) c) ;;
          modify_self (fun c => crd_set_Queue (wq_Done key (Queue c)) c) ;;
          ret (Some true)
      end
  end.

Definition enqueueGenericController (obj : GenericController)
  : M CRDBasedMetaController unit :=
  match KeyFunc (ObjMeta obj) with
  | inl err =>
      modify_world
        (emit (EvHandleError (Wrapf err (crd_String +:+ ": Enqueue failed"))))
  | inr key =>
      modify_self (fun c => crd_set_Queue (wq_Add key (Queue c)) c)
  end.

Definition updateGenericController (old cur : GenericController)
  : M CRDBasedMetaController unit :=
  enqueueGenericController cur.

End Model.

Arguments mkSt {_ _} _ _.
Arguments self {_ _} _.
Arguments world {_ _} _.

(** ** Vocabulary of the properties *)

Section Vocabulary.
Context `{Externals}.

(** The events that construct, start or stop a watch controller. *)
Definition is_lifecycle (e : event) : bool :=
  match e with
  | EvNewWatchController _ _ | EvStart _ _ | EvStop _ => true
  | _ => false
  end.

Definition lifecycle (tr : list event) : list event :=
  List.filter is_lifecycle tr.

(** The events that fetch the definitions of the Config-driven supervisor. *)
Definition is_load (e : event) : bool :=
  match e with
  | EvConfigLoad _ | EvListGenericControllers | EvConfigFn => true
  | _ => false
  end.

Definition loads (tr : list event) : list event := List.filter is_load tr.

(** The definitions for which a construction was attempted in a trace. *)
Definition attempted (tr : list event) : list GenericController :=
  omap (fun e => match e with
                 | EvNewWatchController conf _ => Some conf
                 | _ => None
                 end) tr.

(** The first definition of a list that has the given key. *)
Definition first_with_key (key : string) (confs : list GenericController)
  : option GenericController :=
  List.find (fun conf => bool_decide (Key conf = key)) confs.

Definition cfg_map (st : St ConfigBasedMetaController)
  : gmap string watchController :=
  WatchControllers (cfg_mc (self st)).

Definition crd_map (st : St CRDBasedMetaController)
  : gmap string watchController :=
  WatchControllers (crd_mc (self st)).

Definition cfg_with_map (m : gmap string watchController)
  (c : ConfigBasedMetaController) : ConfigBasedMetaController :=
  cfg_set_mc (set_WatchControllers m (cfg_mc c)) c.

(** The state in which one pass of [startAllWatchControllers] returns when
    the construction for [conf] fails, and the state in which the pass goes
    on when it succeeds. *)
Definition after_failed_start (conf : GenericController)
  (st : St ConfigBasedMetaController) : St ConfigBasedMetaController :=
  mkSt (self st) (emit (EvNewWatchController conf None) (elapse (world st))).

Definition after_start (conf : GenericController)
  (st : St ConfigBasedMetaController) : St ConfigBasedMetaController :=
  let id := next_id (world st) in
  mkSt (cfg_with_map
          (<[Key conf := {| wc_id := id; GCtlConfig := conf |}]> (cfg_map st))
          (self st))
    (emit (EvStart id (WorkerCount (cfg_mc (self st))))
       (emit (EvNewWatchController conf (Some id)) (alloc (elapse (world st))))).

Definition not_stop (e : event) : Prop :=
  match e with
  | EvStop _ => False
  | _ => True
  end.

(** The events of the wait loop: constructions, starts and sleeps. *)
Definition poll_event (e : event) : Prop :=
  match e with
  | EvNewWatchController _ _ | EvStart _ _ | EvSleep _ => True
  | _ => False
  end.

(** [w'] is [w] some time later: the oracles are the same, the clock and
    the counters have not gone back, the trace has grown by [delta]. *)
Definition later (w w' : World) (delta : list event) : Prop :=
  discovery w' = discovery w /\ latency w' = latency w /\
  config_files w' = config_files w /\
  now w <= now w' /\ (next_id w <= next_id w')%nat /\
  (ext_calls w <= ext_calls w')%nat /\
  trace w' = trace w ++ delta.

(** The watch controllers constructed in a trace. *)
Definition built (tr : list event) : list watchController :=
  omap (fun e => match e with
                 | EvNewWatchController conf (Some id) =>
                     Some {| wc_id := id; GCtlConfig := conf |}
                 | _ => None
                 end) tr.

(** A watch controller runs after a trace when it was constructed in it and
    has been started and not stopped since. *)
Definition runs (tr : list event) (c : watchController) : Prop :=
  c ∈ built tr /\ wc_id c ∈ running tr.

(** At most one watch controller runs per definition key. *)
Definition one_per_key (tr : list event) : Prop :=
  forall c1 c2,
    runs tr c1 -> runs tr c2 ->
    Key (GCtlConfig c1) = Key (GCtlConfig c2) -> c1 = c2.

(** [P] held at every moment of the trace. *)
Definition at_all_times (P : list event -> Prop) (tr : list event) : Prop :=
  forall p, p `prefix_of` tr -> P p.

(** The map and the world agree: an entry is a running controller filed
    under the key of its definition, every running controller is the entry
    under its key, and the identities handed out are fresh and distinct. *)
Definition registry_ok (m : gmap string watchController) (tr : list event)
  (nid : nat) : Prop :=
  (forall k c, m !! k = Some c -> Key (GCtlConfig c) = k /\ runs tr c) /\
  (forall c, runs tr c -> m !! Key (GCtlConfig c) = Some c) /\
  (forall c, c ∈ built tr -> (wc_id c < nid)%nat) /\
  (forall c1 c2, c1 ∈ built tr -> c2 ∈ built tr -> wc_id c1 = wc_id c2 -> c1 = c2) /\
  (forall id, id ∈ running tr -> exists c, c ∈ built tr /\ wc_id c = id).

Definition supervised (m : gmap string watchController) (tr : list event)
  (nid : nat) : Prop :=
  registry_ok m tr nid /\ at_all_times one_per_key tr.

(** What the map and the trace of the Config-driven supervisor can do over
    time: the receiver changes in its map only, the map keeps every entry it
    has, the events are those of the wait loop, and no construction is
    attempted for a key that is registered. *)
Definition grows (s s' : St ConfigBasedMetaController) : Prop :=
  self s' = cfg_with_map (cfg_map s') (self s) /\
  cfg_map s ⊆ cfg_map s' /\
  exists delta,
    later (world s) (world s') delta /\
    Forall poll_event delta /\
    (forall conf, conf ∈ attempted delta -> cfg_map s !! Key conf = None).

Definition crd_with_map (m : gmap string watchController)
  (c : CRDBasedMetaController) : CRDBasedMetaController :=
  crd_set_mc (set_WatchControllers m (crd_mc c)) c.

(** What [sync] and [syncGenericController] leave behind when they drop the
    controller registered under a key: it is stopped, then deleted. *)
Definition dropped (key : string) (st : St CRDBasedMetaController)
  : St CRDBasedMetaController :=
  match crd_map st !! key with
  | Some c =>
      mkSt (crd_with_map (delete key (crd_map st)) (self st))
        (emit (EvStop (wc_id c)) (world st))
  | None => st
  end.

(** The states in which [syncGenericController] ends when the construction
    fails, respectively succeeds. *)
Definition crd_after_failed (ctrl : GenericController)
  (st : St CRDBasedMetaController) : St CRDBasedMetaController :=
  mkSt (self st) (emit (EvNewWatchController ctrl None) (elapse (world st))).

Definition crd_after_start (ctrl : GenericController)
  (st : St CRDBasedMetaController) : St CRDBasedMetaController :=
  let id := next_id (world st) in
  mkSt (crd_with_map
          (<[Key ctrl := {| wc_id := id; GCtlConfig := ctrl |}]> (crd_map st))
          (self st))
    (emit (EvStart id (WorkerCount (crd_mc (self st))))
       (emit (EvNewWatchController ctrl (Some id)) (alloc (elapse (world st))))).

Definition crd_ok (st : St CRDBasedMetaController) : Prop :=
  supervised (crd_map st) (trace (world st)) (next_id (world st)).

Definition cfg_ok (st : St ConfigBasedMetaController) : Prop :=
  supervised (cfg_map st) (trace (world st)) (next_id (world st)).

(** A pass changes nothing of the receiver but the map, which it extends;
    the world moves on by constructions and starts only. *)
Definition pass_frame (st st' : St ConfigBasedMetaController) : Prop :=
  self st' = cfg_with_map (cfg_map st') (self st) /\
  cfg_map st ⊆ cfg_map st' /\
  exists delta,
    later (world st) (world st') delta /\
    Forall (fun e => match e with
                     | EvNewWatchController _ _ | EvStart _ _ => True
                     | _ => False
                     end) delta.

(** What a pass constructs: for each key at most one controller, from the
    first definition of the list that has the key, and only for keys that
    were not registered when the pass began. *)
Definition pass_dedup (confs : list GenericController)
  (st st' : St ConfigBasedMetaController) : Prop :=
  exists delta,
    trace (world st') = trace (world st) ++ delta /\
    (forall conf, conf ∈ attempted delta ->
       cfg_map st !! Key conf = None /\
       first_with_key (Key conf) confs = Some conf) /\
    NoDup (Key <$> attempted delta) /\
    (forall k c,
       cfg_map st !! k = None -> cfg_map st' !! k = Some c ->
       first_with_key k confs = Some (GCtlConfig c)).

(** A pass over [pre ++ rest] is the pass over [pre], followed, when that
    one got through, by the pass over [rest]. *)
Definition pass_then (rest : list GenericController)
  (res : (bool * option error) * St ConfigBasedMetaController)
  : (bool * option error) * St ConfigBasedMetaController :=
  match res with
  | ((true, None), st1) => startAll_loop rest st1
  | _ => res
  end.

(** The life of a CRD-driven supervisor: it is constructed in a world where
    nothing has happened yet; then the informer delivers add, update and
    delete events, the informer's cache (what the lister answers) changes, a
    delayed key reaches the queue, time passes, and the worker takes its
    turns. *)
Inductive crd_reachable : St CRDBasedMetaController -> Prop :=
| crd_new rm dc dif lister n w :
    trace w = [] ->
    crd_reachable (mkSt (NewCRDBasedMetaController rm dc dif lister n) w)
| crd_enqueue obj st :
    crd_reachable st ->
    crd_reachable (snd (enqueueGenericController obj st))
| crd_update old cur st :
    crd_reachable st ->
    crd_reachable (snd (updateGenericController old cur st))
| crd_informer lister st :
    crd_reachable st ->
    crd_reachable (mkSt (crd_set_Lister lister (self st)) (world st))
| crd_backoff item st :
    crd_reachable st ->
    crd_reachable (mkSt (crd_set_Queue (wq_Add item (Queue (self st))) (self st))
                     (world st))
| crd_time d st :
    crd_reachable st -> 0 <= d ->
    crd_reachable (mkSt (self st) (advance d (world st)))
| crd_worker st :
    crd_reachable st ->
    crd_reachable (snd (processNextWorkItem st)).

(** The life of a Config-driven supervisor: it is constructed in a world
    where nothing has happened yet; Start makes the channel; then its
    goroutine runs passes and turns of the wait loop. *)
Inductive cfg_reachable : St ConfigBasedMetaController -> Prop :=
| cfg_new rm dc dif n opts w obj w' :
    trace w = [] ->
    NewConfigBasedMetaController rm dc dif n opts w = (inr obj, w') ->
    cfg_reachable (mkSt obj w')
| cfg_started st :
    cfg_reachable st -> cfg_reachable (snd (cfg_Start_make st))
| cfg_pass st :
    cfg_reachable st -> cfg_reachable (snd (startAllWatchControllers st))
| cfg_turn start st :
    cfg_reachable st ->
    cfg_reachable (snd (wait_turn startAllWatchControllers start st))
| cfg_goroutine fuel st :
    cfg_reachable st -> cfg_reachable (snd (cfg_Start_goroutine fuel st)).

End Vocabulary.

(** ** Start, Stop and the goroutines between them

    [Start] spawns a goroutine, [Stop] runs in its caller, and [Stop] spawns
    one goroutine per registered watch controller.  Their interleavings are
    the runs of a transition system.  A turn of Start's goroutine (one turn
    of the wait loop, one work item) is one step; so is each statement of
    [Stop]; a watch controller's own [Stop] takes two steps, its call and
    its return, so that several can be under way at once. *)

(** The statements of the two [Stop] methods. *)
Inductive stop_instr :=
| CloseStopCh        (* close(mc.stopCh) *)
| QueueShutDown      (* mc.Queue.ShutDown() *)
| AwaitDone          (* <-mc.doneCh *)
| SpawnStops         (* for ... { wg.Add(1); go func(){ defer wg.Done(); ctl.Stop() }() } *)
| WaitGroupWait.     (* wg.Wait() *)

#[global] Instance stop_instr_eq_dec : EqDecision stop_instr.
Proof. solve_decision. Defined.

Definition cfg_Stop : list stop_instr := [AwaitDone; SpawnStops; WaitGroupWait].

Definition crd_Stop : list stop_instr :=
  [CloseStopCh; QueueShutDown; AwaitDone; SpawnStops; WaitGroupWait].

(** A goroutine spawned by [Stop]: spawned, inside [ctl.Stop()], done. *)
Inductive child_pc := ChildSpawned | ChildStopping | ChildDone.

#[global] Instance child_pc_eq_dec : EqDecision child_pc.
Proof. solve_decision. Defined.

Section Concurrency.
Context `{Externals}.

(** The caller of [Stop] ([None] before the call, then what is left of the
    method) and the goroutines it has spawned. *)
Record threads := {
  th_stop : option (list stop_instr);
  th_children : list (watchController * child_pc);
}.

Definition no_threads : threads := {| th_stop := None; th_children := [] |}.

Definition all_done (children : list (watchController * child_pc)) : Prop :=
  Forall (fun x => snd x = ChildDone) children.

(** The part of [Stop] that both supervisors share, over the embedded
    MetaController [mc]: the receive on [doneCh] returns once the channel is
    closed; the loop over the map spawns a goroutine per watch controller;
    [wg.Wait()] returns once every spawned goroutine is done; a spawned
    goroutine calls [ctl.Stop()], which later returns. *)
Inductive stop_step (mc : MetaController)
  : World * threads -> World * threads -> Prop :=
| step_AwaitDone w rest children :
    doneCh mc = ChanClosed ->
    stop_step mc
      (w, {| th_stop := Some (AwaitDone :: rest); th_children := children |})
      (w, {| th_stop := Some rest; th_children := children |})
| step_SpawnStops w rest children :
    stop_step mc
      (w, {| th_stop := Some (SpawnStops :: rest); th_children := children |})
      (w, {| th_stop := Some rest;
             th_children :=
               children
               ++ ((fun kc => (snd kc, ChildSpawned))
                     <$> map_to_list (WatchControllers mc)) |})
| step_WaitGroupWait w rest children :
    all_done children ->
    stop_step mc
      (w, {| th_stop := Some (WaitGroupWait :: rest); th_children := children |})
      (w, {| th_stop := Some rest; th_children := children |})
| step_child_call w th i c :
    th_children th !! i = Some (c, ChildSpawned) ->
    stop_step mc (w, th)
      (w, {| th_stop := th_stop th;
             th_children := <[i := (c, ChildStopping)]> (th_children th) |})
| step_child_return w th i c :
    th_children th !! i = Some (c, ChildStopping) ->
    stop_step mc (w, th)
      (emit (EvStop (wc_id c)) w,
       {| th_stop := th_stop th;
          th_children := <[i := (c, ChildDone)]> (th_children th) |}).

(** *** The Config-driven supervisor *)

(** Start's goroutine: not spawned, in the wait loop (with the start time
    that [wait] marked), returned (the deferred close of [doneCh] has run),
    or dead with the process after glog.Fatalf. *)
Inductive cfg_loop := CfgIdle | CfgWaiting (start : Z) | CfgExited | CfgFatal (err : error).

Record cfg_sys := {
  cs_st : St ConfigBasedMetaController;
  cs_loop : cfg_loop;
  cs_th : threads;
}.

Definition cfg_alive (s : cfg_sys) : Prop :=
  match cs_loop s with
  | CfgFatal _ => False
  | _ => True
  end.

Definition cfg_close_doneCh (st : St ConfigBasedMetaController)
  : St ConfigBasedMetaController :=
  mkSt (cfg_set_mc (set_doneCh ChanClosed (cfg_mc (self st))) (self st)) (world st).

(** Where a turn of the wait loop leaves the system. *)
Definition cfg_after_turn (start : Z) (th : threads)
  (r : option (option error) * St ConfigBasedMetaController) : cfg_sys :=
  match r with
  | (None, st') =>
      {| cs_st := st'; cs_loop := CfgWaiting start; cs_th := th |}
  | (Some None, st') =>
      {| cs_st := cfg_close_doneCh st'; cs_loop := CfgExited; cs_th := th |}
  | (Some (Some err), st') =>
      {| cs_st := st'; cs_loop := CfgFatal err; cs_th := th |}
  end.

(** The steps: [Start]; a turn of the wait loop; the call of [Stop], after
    [Start]; a step of [Stop] or of a goroutine it spawned.  Nothing moves
    once the process has died. *)
Inductive cfg_sys_step : cfg_sys -> cfg_sys -> Prop :=
| cfg_sys_Start s :
    cs_loop s = CfgIdle ->
    cfg_sys_step s
      {| cs_st := snd (cfg_Start_make (cs_st s));
         cs_loop := CfgWaiting (now (world (cs_st s)));
         cs_th := cs_th s |}
| cfg_sys_turn s start :
    cs_loop s = CfgWaiting start ->
    cfg_sys_step s
      (cfg_after_turn start (cs_th s)
         (wait_turn startAllWatchControllers start (cs_st s)))
| cfg_sys_Stop s :
    cfg_alive s -> cs_loop s <> CfgIdle ->
    th_stop (cs_th s) = None ->
    cfg_sys_step s
      {| cs_st := cs_st s; cs_loop := cs_loop s;
         cs_th := {| th_stop := Some cfg_Stop;
                     th_children := th_children (cs_th s) |} |}
| cfg_sys_stop_thread s w' th' :
    cfg_alive s ->
    stop_step (cfg_mc (self (cs_st s))) (world (cs_st s), cs_th s) (w', th') ->
    cfg_sys_step s
      {| cs_st := mkSt (self (cs_st s)) w'; cs_loop := cs_loop s; cs_th := th' |}.

(** A supervisor fresh from its constructor, nothing started or stopped. *)
Definition cfg_sys_init (st : St ConfigBasedMetaController) : cfg_sys :=
  {| cs_st := st; cs_loop := CfgIdle; cs_th := no_threads |}.

Inductive cfg_sys_reachable : cfg_sys -> Prop :=
| cfg_sys_reach_init rm dc dif n opts w obj w' :
    trace w = [] ->
    NewConfigBasedMetaController rm dc dif n opts w = (inr obj, w') ->
    cfg_sys_reachable (cfg_sys_init (mkSt obj w'))
| cfg_sys_reach_step s s' :
    cfg_sys_reachable s -> cfg_sys_step s s' -> cfg_sys_reachable s'.

(** *** The CRD-driven supervisor *)

(** Start's goroutine: not spawned, waiting for the informer's cache,
    working through the queue, or returned. *)
Inductive crd_loop := CrdIdle | CrdCacheSync | CrdWorking | CrdExited.

Record crd_sys := {
  rs_st : St CRDBasedMetaController;
  rs_loop : crd_loop;
  rs_th : threads;
}.

Definition crd_Start_make (st : St CRDBasedMetaController)
  : St CRDBasedMetaController :=
  mkSt (crd_set_stopCh ChanOpen
          (crd_set_mc (set_doneCh ChanOpen (crd_mc (self st))) (self st)))
    (world st).

Definition crd_close_doneCh (st : St CRDBasedMetaController)
  : St CRDBasedMetaController :=
  mkSt (crd_set_mc (set_doneCh ChanClosed (crd_mc (self st))) (self st)) (world st).

Definition crd_set_synced (b : bool) (c : CRDBasedMetaController)
  : CRDBasedMetaController :=
  {| crd_mc := crd_mc c; Lister := Lister c; InformerHasSynced := b;
     Queue := Queue c; stopCh := stopCh c |}.

(** What happens around the supervisor: the informer delivers an event to a
    handler, its cache changes, it reports that it has synced, the backoff
    of a requeued key passes, time passes. *)
Inductive crd_env : St CRDBasedMetaController -> St CRDBasedMetaController -> Prop :=
| env_enqueue obj st : crd_env st (snd (enqueueGenericController obj st))
| env_update old cur st : crd_env st (snd (updateGenericController old cur st))
| env_lister lister st :
    crd_env st (mkSt (crd_set_Lister lister (self st)) (world st))
| env_synced st :
    crd_env st (mkSt (crd_set_synced true (self st)) (world st))
| env_backoff item st :
    crd_env st
      (mkSt (crd_set_Queue (wq_Add item (Queue (self st))) (self st)) (world st))
| env_time d st :
    0 <= d -> crd_env st (mkSt (self st) (advance d (world st))).

(** The steps: [Start]; the wait for the cache ends because the stop
    channel is closed, or because the informer has synced; a work item; the
    queue reports quit; the surroundings move; the call of [Stop], after
    [Start]; its two own statements; a step of the shared part of [Stop]. *)
Inductive crd_sys_step : crd_sys -> crd_sys -> Prop :=
| crd_sys_Start s :
    rs_loop s = CrdIdle ->
    crd_sys_step s
      {| rs_st := crd_Start_make (rs_st s); rs_loop := CrdCacheSync;
         rs_th := rs_th s |}
| crd_sys_sync_stopped s :
    rs_loop s = CrdCacheSync ->
    stopCh (self (rs_st s)) = ChanClosed ->
    crd_sys_step s
      {| rs_st := crd_close_doneCh (rs_st s); rs_loop := CrdExited;
         rs_th := rs_th s |}
| crd_sys_synced s :
    rs_loop s = CrdCacheSync ->
    InformerHasSynced (self (rs_st s)) = true ->
    crd_sys_step s
      {| rs_st := rs_st s; rs_loop := CrdWorking; rs_th := rs_th s |}
| crd_sys_item s st' :
    rs_loop s = CrdWorking ->
    processNextWorkItem (rs_st s) = (Some true, st') ->
    crd_sys_step s {| rs_st := st'; rs_loop := CrdWorking; rs_th := rs_th s |}
| crd_sys_quit s st' :
    rs_loop s = CrdWorking ->
    processNextWorkItem (rs_st s) = (Some false, st') ->
    crd_sys_step s
      {| rs_st := crd_close_doneCh st'; rs_loop := CrdExited; rs_th := rs_th s |}
| crd_sys_env s st' :
    crd_env (rs_st s) st' ->
    crd_sys_step s {| rs_st := st'; rs_loop := rs_loop s; rs_th := rs_th s |}
| crd_sys_Stop s :
    rs_loop s <> CrdIdle ->
    th_stop (rs_th s) = None ->
    crd_sys_step s
      {| rs_st := rs_st s; rs_loop := rs_loop s;
         rs_th := {| th_stop := Some crd_Stop;
                     th_children := th_children (rs_th s) |} |}
| crd_sys_CloseStopCh s rest :
    th_stop (rs_th s) = Some (CloseStopCh :: rest) ->
    crd_sys_step s
      {| rs_st := mkSt (crd_set_stopCh ChanClosed (self (rs_st s)))
                    (world (rs_st s));
         rs_loop := rs_loop s;
         rs_th := {| th_stop := Some rest;
                     th_children := th_children (rs_th s) |} |}
| crd_sys_QueueShutDown s rest :
    th_stop (rs_th s) = Some (QueueShutDown :: rest) ->
    crd_sys_step s
      {| rs_st := mkSt (crd_set_Queue (wq_ShutDown (Queue (self (rs_st s))))
                          (self (rs_st s)))
                    (world (rs_st s));
         rs_loop := rs_loop s;
         rs_th := {| th_stop := Some rest;
                     th_children := th_children (rs_th s) |} |}
| crd_sys_stop_thread s w' th' :
    stop_step (crd_mc (self (rs_st s))) (world (rs_st s), rs_th s) (w', th') ->
    crd_sys_step s
      {| rs_st := mkSt (self (rs_st s)) w'; rs_loop := rs_loop s; rs_th := th' |}.

Definition crd_sys_init (st : St CRDBasedMetaController) : crd_sys :=
  {| rs_st := st; rs_loop := CrdIdle; rs_th := no_threads |}.

Inductive crd_sys_reachable : crd_sys -> Prop :=
| crd_sys_reach_init rm dc dif lister n w :
    trace w = [] ->
    crd_sys_reachable
      (crd_sys_init (mkSt (NewCRDBasedMetaController rm dc dif lister n) w))
| crd_sys_reach_step s s' :
    crd_sys_reachable s -> crd_sys_step s s' -> crd_sys_reachable s'.

(** What holds of the caller of [Stop] and of the goroutines it spawned,
    for a [Stop] method with the statements [P]: it is somewhere in [P];
    past the receive, [doneCh] is closed; nothing is spawned before the
    loop over the map, and after it the spawned goroutines are those of the
    map's watch controllers; it returns only when all are done; and a watch
    controller whose goroutine is done does not run. *)
Definition threads_ok (P : list stop_instr) (mc : MetaController) (w : World)
  (th : threads) : Prop :=
  match th_stop th with
  | None => th_children th = []
  | Some prog =>
      prog `suffix_of` P /\
      (AwaitDone ∉ prog -> doneCh mc = ChanClosed) /\
      (SpawnStops ∈ prog -> th_children th = []) /\
      (SpawnStops ∉ prog ->
       (th_children th).*1 = (map_to_list (WatchControllers mc)).*2) /\
      (prog = [] -> all_done (th_children th))
  end /\
  (forall c, (c, ChildDone) ∈ th_children th -> wc_id c ∉ running (trace w)).

Definition cfg_sys_ok (s : cfg_sys) : Prop :=
  (doneCh (cfg_mc (self (cs_st s))) = ChanClosed <-> cs_loop s = CfgExited) /\
  (cs_loop s = CfgIdle -> th_stop (cs_th s) = None) /\
  threads_ok cfg_Stop (cfg_mc (self (cs_st s))) (world (cs_st s)) (cs_th s).

Definition crd_sys_ok (s : crd_sys) : Prop :=
  (doneCh (crd_mc (self (rs_st s))) = ChanClosed <-> rs_loop s = CrdExited) /\
  (rs_loop s = CrdIdle -> th_stop (rs_th s) = None) /\
  threads_ok crd_Stop (crd_mc (self (rs_st s))) (world (rs_st s)) (rs_th s) /\
  (forall prog, th_stop (rs_th s) = Some prog ->
     (CloseStopCh ∉ prog -> stopCh (self (rs_st s)) = ChanClosed) /\
     (QueueShutDown ∉ prog -> wq_shuttingDown (Queue (self (rs_st s))) = true)).

(** *** Running a schedule

    The same steps as functions, for running the systems: an action is the
    choice of the goroutine that moves next (and of what the surroundings
    do); it yields the next state when that goroutine can move. *)

Inductive stop_action :=
| DoStatement                 (* the caller of Stop runs its next statement *)
| DoChildCall (i : nat)       (* the i-th spawned goroutine calls ctl.Stop() *)
| DoChildReturn (i : nat).    (* its ctl.Stop() returns *)

#[global] Instance all_done_dec children : Decision (all_done children).
Proof. unfold all_done. apply _. Defined.

Definition stop_exec (mc : MetaController) (a : stop_action)
  (x : World * threads) : option (World * threads) :=
  let '(w, th) := x in
  match a with
  | DoStatement =>
      match th_stop th with
      | Some (AwaitDone :: rest) =>
          if decide (doneCh mc = ChanClosed)
          then Some (w, {| th_stop := Some rest; th_children := th_children th |})
          else None
      | Some (SpawnStops :: rest) =>
          Some (w, {| th_stop := Some rest;
                      th_children :=
                        th_children th
                        ++ ((fun kc => (snd kc, ChildSpawned))
                              <$> map_to_list (WatchControllers mc)) |})
      | Some (WaitGroupWait :: rest) =>
          if decide (all_done (th_children th))
          then Some (w, {| th_stop := Some rest; th_children := th_children th |})
          else None
      | _ => None
      end
  | DoChildCall i =>
      match th_children th !! i with
      | Some (c, ChildSpawned) =>
          Some (w, {| th_stop := th_stop th;
                      th_children := <[i := (c, ChildStopping)]> (th_children th) |})
      | _ => None
      end
  | DoChildReturn i =>
      match th_children th !! i with
      | Some (c, ChildStopping) =>
          Some (emit (EvStop (wc_id c)) w,
                {| th_stop := th_stop th;
                   th_children := <[i := (c, ChildDone)]> (th_children th) |})
      | _ => None
      end
  end.

Inductive cfg_action :=
| CfgStart
| CfgTurn
| CfgStop
| CfgStopThread (a : stop_action).

Definition cfg_exec (a : cfg_action) (s : cfg_sys) : option cfg_sys :=
  match a, cs_loop s with
  | _, CfgFatal _ => None
  | CfgStart, CfgIdle =>
      Some {| cs_st := snd (cfg_Start_make (cs_st s));
              cs_loop := CfgWaiting (now (world (cs_st s)));
              cs_th := cs_th s |}
  | CfgTurn, CfgWaiting start =>
      Some (cfg_after_turn start (cs_th s)
              (wait_turn startAllWatchControllers start (cs_st s)))
  | CfgStop, (CfgWaiting _ | CfgExited) =>
      match th_stop (cs_th s) with
      | None =>
          Some {| cs_st := cs_st s; cs_loop := cs_loop s;
                  cs_th := {| th_stop := Some cfg_Stop;
                              th_children := th_children (cs_th s) |} |}
      | Some _ => None
      end
  | CfgStopThread a', _ =>
      match stop_exec (cfg_mc (self (cs_st s))) a' (world (cs_st s), cs_th s) with
      | Some (w', th') =>
          Some {| cs_st := mkSt (self (cs_st s)) w'; cs_loop := cs_loop s;
                  cs_th := th' |}
      | None => None
      end
  | _, _ => None
  end.

Inductive env_action :=
| EnvEnqueue (obj : GenericController)
| EnvUpdate (old cur : GenericController)
| EnvLister (lister : string -> string -> error + GenericController)
| EnvSynced
| EnvBackoff (item : string)
| EnvTime (d : N).

Definition env_exec (a : env_action) (st : St CRDBasedMetaController)
  : St CRDBasedMetaController :=
  match a with
  | EnvEnqueue obj => snd (enqueueGenericController obj st)
  | EnvUpdate old cur => snd (updateGenericController old cur st)
  | EnvLister lister => mkSt (crd_set_Lister lister (self st)) (world st)
  | EnvSynced => mkSt (crd_set_synced true (self st)) (world st)
  | EnvBackoff item =>
      mkSt (crd_set_Queue (wq_Add item (Queue (self st))) (self st)) (world st)
  | EnvTime d => mkSt (self st) (advance (Z.of_N d) (world st))
  end.

Inductive crd_action :=
| CrdStart
| CrdLoop                     (* Start's goroutine takes its next step *)
| CrdEnv (a : env_action)
| CrdStop
| CrdStopThread (a : stop_action).

Definition crd_exec (a : crd_action) (s : crd_sys) : option crd_sys :=
  match a with
  | CrdStart =>
      match rs_loop s with
      | CrdIdle =>
          Some {| rs_st := crd_Start_make (rs_st s); rs_loop := CrdCacheSync;
                  rs_th := rs_th s |}
      | _ => None
      end
  | CrdLoop =>
      match rs_loop s with
      | CrdCacheSync =>
          if decide (stopCh (self (rs_st s)) = ChanClosed)
          then Some {| rs_st := crd_close_doneCh (rs_st s); rs_loop := CrdExited;
                       rs_th := rs_th s |}
          else if InformerHasSynced (self (rs_st s))
          then Some {| rs_st := rs_st s; rs_loop := CrdWorking; rs_th := rs_th s |}
          else None
      | CrdWorking =>
          match processNextWorkItem (rs_st s) with
          | (Some true, st') =>
              Some {| rs_st := st'; rs_loop := CrdWorking; rs_th := rs_th s |}
          | (Some false, st') =>
              Some {| rs_st := crd_close_doneCh st'; rs_loop := CrdExited;
                      rs_th := rs_th s |}
          | (None, _) => None
          end
      | _ => None
      end
  | CrdEnv a' =>
      Some {| rs_st := env_exec a' (rs_st s); rs_loop := rs_loop s;
              rs_th := rs_th s |}
  | CrdStop =>
      match rs_loop s, th_stop (rs_th s) with
      | CrdIdle, _ => None
      | _, None =>
          Some {| rs_st := rs_st s; rs_loop := rs_loop s;
                  rs_th := {| th_stop := Some crd_Stop;
                              th_children := th_children (rs_th s) |} |}
      | _, Some _ => None
      end
  | CrdStopThread a' =>
      match a', th_stop (rs_th s) with
      | DoStatement, Some (CloseStopCh :: rest) =>
          Some {| rs_st := mkSt (crd_set_stopCh ChanClosed (self (rs_st s)))
                             (world (rs_st s));
                  rs_loop := rs_loop s;
                  rs_th := {| th_stop := Some rest;
                              th_children := th_children (rs_th s) |} |}
      | DoStatement, Some (QueueShutDown :: rest) =>
          Some {| rs_st := mkSt (crd_set_Queue
                                   (wq_ShutDown (Queue (self (rs_st s))))
                                   (self (rs_st s)))
                             (world (rs_st s));
                  rs_loop := rs_loop s;
                  rs_th := {| th_stop := Some rest;
                              th_children := th_children (rs_th s) |} |}
      | _, _ =>
          match stop_exec (crd_mc (self (rs_st s))) a'
                  (world (rs_st s), rs_th s) with
          | Some (w', th') =>
              Some {| rs_st := mkSt (self (rs_st s)) w'; rs_loop := rs_loop s;
                      rs_th := th' |}
          | None => None
          end
      end
  end.

(** A schedule runs as long as each of its actions can be taken. *)
Fixpoint run_schedule {S A} (exec : A -> S -> option S) (acts : list A) (s : S)
  : option S :=
  match acts with
  | [] => Some s
  | a :: rest =>
      match exec a s with
      | Some s' => run_schedule exec rest s'
      | None => None
      end
  end.

(** [Stop] has been called and has got past its statement [i]. *)
Definition past (i : stop_instr) (th : threads) : Prop :=
  exists prog, th_stop th = Some prog /\ i ∉ prog.

(** [Stop] has returned. *)
Definition returned (th : threads) : Prop := th_stop th = Some [].

Definition nothing_runs (tr : list event) : Prop := forall c, ~ runs tr c.

(** Every running watch controller is the map's entry under its key. *)
Definition filed (m : gmap string watchController) (tr : list event) : Prop :=
  forall c, runs tr c -> m !! Key (GCtlConfig c) = Some c.

Definition cfg_sys_filed (s : cfg_sys) : Prop :=
  (cs_loop s <> CfgExited -> cfg_ok (cs_st s)) /\
  filed (cfg_map (cs_st s)) (trace (world (cs_st s))).

Definition crd_sys_filed (s : crd_sys) : Prop :=
  (rs_loop s <> CrdExited -> crd_ok (rs_st s)) /\
  filed (crd_map (rs_st s)) (trace (world (rs_st s))).

End Concurrency.

(** ** More vocabulary: options, passes, time, keys *)

(** The number of occurrences of a character in a string. *)
Fixpoint count_char (c : Ascii.ascii) (s : string) : nat :=
  match s with
  | EmptyString => 0
  | String c' s' =>
      if Ascii.eqb c' c then S (count_char c s') else count_char c s'
  end.

Section Coverage.
Context `{Externals}.

(** The two options this file provides, as data. *)
Inductive provided_option :=
| WithConfigFn (fn : unit -> error + list GenericController)
| WithConfigPath (path : string).

Definition option_of (p : provided_option) : ConfigBasedMetaControllerOption :=
  match p with
  | WithConfigFn fn => SetGenericControllerAsConfigFn fn
  | WithConfigPath path => SetMetaControllerConfigPath path
  end.

(** The path, respectively the function, that was given last. *)
Definition last_path (dflt : string) (ps : list provided_option) : string :=
  foldl (fun acc p => match p with WithConfigPath path => path | _ => acc end)
    dflt ps.

Definition last_fn (dflt : option (unit -> error + list GenericController))
  (ps : list provided_option)
  : option (unit -> error + list GenericController) :=
  foldl (fun acc p => match p with WithConfigFn fn => Some fn | _ => acc end)
    dflt ps.



(** What [sync] does with a key once it is split into [ns] and [name]. *)
Definition sync_found_or_gone (key ns name : string)
  (st : St CRDBasedMetaController)
  : option error * St CRDBasedMetaController :=
  match Lister (self st) ns name with
  | inl err => if IsNotFound err then (None, dropped key st) else (Some err, st)
  | inr ctrl => syncGenericController ctrl st
  end.






(** *** The life of one watch controller

    A watch controller is constructed, then started, then stopped, each at
    most once and in this order.  [protocol] runs through a trace and keeps
    the phase of every controller; it gives [None] as soon as an event does
    not fit: a second construction under the same identity, a start of a
    controller that was not just constructed, a stop of a controller that
    does not run. *)
Inductive phase := PhBuilt | PhRunning | PhStopped.

Definition protocol_step (m : gmap nat phase) (e : event)
  : option (gmap nat phase) :=
  match e with
  | EvNewWatchController _ (Some id) =>
      match m !! id with
      | None => Some (<[id := PhBuilt]> m)
      | Some _ => None
      end
  | EvStart id _ =>
      match m !! id with
      | Some PhBuilt => Some (<[id := PhRunning]> m)
      | _ => None
      end
  | EvStop id =>
      match m !! id with
      | Some PhRunning => Some (<[id := PhStopped]> m)
      | _ => None
      end
  | _ => Some m
  end.

Definition protocol (tr : list event) : option (gmap nat phase) :=
  foldl (fun acc e => match acc with
                      | Some m => protocol_step m e
                      | None => None
                      end) (Some ∅) tr.








End Coverage.

(** ** A concrete instance of the externals, for running the model *)

(** A definition's spec reduced to the resource it watches, the resources
    it attaches, and the selector switch. *)
Record ExampleSpec := {
  watch : string;
  attachments : list string;
  generateSelector : bool;
}.

#[global] Instance ExampleSpec_eq_dec : EqDecision ExampleSpec.
Proof. solve_decision. Defined.

(** cache.MetaNamespaceKeyFunc: "namespace/name", or the bare name of an
    object without namespace. *)
Definition MetaNamespaceKeyFunc (m : ObjectMeta) : error + string :=
  if String.eqb (Namespace m) "" then inr (Name m)
  else inr (Namespace m +:+ "/" +:+ Name m).

#[global] Instance example_externals : Externals :=
  {| GenericControllerSpec := ExampleSpec;
     Semantic_DeepEqual := fun a b => bool_decide (a = b);
     KeyFunc := MetaNamespaceKeyFunc |}.

Definition example_meta (ns name : string) (labels : list (string * string))
  : ObjectMeta :=
  {| Namespace := ns; Name := name; Labels := labels; Annotations := [];
     ResourceVersion := "1" |}.

Definition example_spec (w : string) : ExampleSpec :=
  {| watch := w; attachments := ["pods"]; generateSelector := false |}.

Definition gc_a : GenericController :=
  {| ObjMeta := example_meta "ns1" "a" []; Spec := example_spec "things" |}.

(** [gc_a] with another label and nothing else changed. *)
Definition gc_a_relabelled : GenericController :=
  {| ObjMeta := example_meta "ns1" "a" [("tier", "gold")];
     Spec := example_spec "things" |}.

(** [gc_a] with another spec. *)
Definition gc_a_respecced : GenericController :=
  {| ObjMeta := example_meta "ns1" "a" []; Spec := example_spec "widgets" |}.

(** A second definition under the key of [gc_a]. *)
Definition gc_a_twin : GenericController :=
  {| ObjMeta := example_meta "ns1" "a" []; Spec := example_spec "gadgets" |}.

Definition gc_b : GenericController :=
  {| ObjMeta := example_meta "ns1" "b" []; Spec := example_spec "things" |}.

(** A world in which discovery always works, external calls take a
    millisecond and the config path holds [gc_a] and [gc_b]. *)
Definition calm_world : World :=
  {| trace := []; next_id := 0; now := 0; ext_calls := 0;
     discovery := fun _ _ => None;
     latency := fun _ => 1000000%N;
     config_files := fun _ => inr (inr [gc_a; gc_b]) |}.

(** A world in which discovery never works. *)
Definition dead_world : World :=
  {| trace := []; next_id := 0; now := 0; ext_calls := 0;
     discovery := fun _ _ => Some (Errorf "discovery: resource not found");
     latency := fun _ => 1000000%N;
     config_files := fun _ => inr (inr [gc_a; gc_b]) |}.

(** A world in which discovery fails for [gc_b] during the first three
    external calls and works afterwards. *)
Definition flaky_world : World :=
  {| trace := []; next_id := 0; now := 0; ext_calls := 0;
     discovery := fun n conf =>
       if bool_decide (Key conf = "ns1/b") && (n <? 3)%nat
       then Some (Errorf "discovery: resource not found") else None;
     latency := fun _ => 1000000%N;
     config_files := fun _ => inr (inr [gc_a; gc_b]) |}.

Definition example_lister (found : list GenericController)
  (ns name : string) : error + GenericController :=
  match filter (fun gc => Namespace (ObjMeta gc) = ns ∧ Name (ObjMeta gc) = name)
          found with
  | gc :: _ => inr gc
  | [] => inl (StatusNotFound ("genericcontroller " +:+ name +:+ " not found"))
  end.

Definition example_crd (found : list GenericController)
  : CRDBasedMetaController :=
  NewCRDBasedMetaController (handle 1) (handle 2) (handle 3)
    (example_lister found) 5.

(** The CRD supervisor after it has reconciled [gc_a] in a calm world. *)
Definition crd_with_a : St CRDBasedMetaController :=
  snd (syncGenericController gc_a (mkSt (example_crd [gc_a]) calm_world)).

Definition wc0 : watchController := {| wc_id := 0; GCtlConfig := gc_a |}.

(** The same supervisor after the informer has lost [gc_a]. *)
Definition crd_a_gone : St CRDBasedMetaController :=
  mkSt (crd_set_Lister (example_lister []) (self crd_with_a)) (world crd_with_a).

(** Both ways of giving the definitions at once: a function that would
    give [gc_b] alone, and a path. *)
Definition example_fn (_ : unit) : error + list GenericController := inr [gc_b].

Definition example_opts : list ConfigBasedMetaControllerOption :=
  [SetGenericControllerAsConfigFn example_fn;
   SetMetaControllerConfigPath "/etc/metac"].

(** The instance the two options leave, and the supervisor the constructor
    makes of it in a world whose path holds [gc_a] and [gc_b]. *)
Definition example_opted : ConfigBasedMetaController :=
  {| cfg_mc := zero_MetaController; ConfigPath := "/etc/metac";
     GenericControllerAsConfigFn := Some example_fn;
     GenericControllerConfigs := [];
     WaitTimeoutForCondition := 30 * Minute;
     WaitIntervalForCondition := 1 * Second |}.

Definition example_obj : ConfigBasedMetaController :=
  {| cfg_mc := {| ResourceManager := handle 1; DynClientset := handle 2;
                  DynInformerFactory := handle 3; WatchControllers := ∅;
                  WorkerCount := 5; doneCh := ChanNil |};
     ConfigPath := "/etc/metac";
     GenericControllerAsConfigFn := Some example_fn;
     GenericControllerConfigs := [gc_a; gc_b];
     WaitTimeoutForCondition := 30 * Minute;
     WaitIntervalForCondition := 1 * Second |}.

Definition loaded (w : World) : World :=
  emit EvListGenericControllers (emit (EvConfigLoad "/etc/metac") w).


(** The Config-driven system after [Start] and then [Stop] were called in
    a world where discovery fails for [gc_b] at first: the wait loop is about
    to take its first turn, [Stop] is at its receive. *)
Definition cfg_sys_started : cfg_sys :=
  {| cs_st := snd (cfg_Start_make (mkSt example_obj (loaded flaky_world)));
     cs_loop := CfgWaiting 0;
     cs_th := no_threads |}.

Definition cfg_sys_stopping : cfg_sys :=
  {| cs_st := cs_st cfg_sys_started;
     cs_loop := CfgWaiting 0;
     cs_th := {| th_stop := Some cfg_Stop; th_children := [] |} |}.

(** The state after the next turn of the wait loop. *)
Definition cfg_sys_next : cfg_sys :=
  cfg_after_turn 0 (cs_th cfg_sys_stopping)
    (wait_turn startAllWatchControllers 0 (cs_st cfg_sys_stopping)).

(** The CRD-driven supervisor after the informer has announced [gc_a] and
    the worker has taken the key. *)
Definition crd_announced : St CRDBasedMetaController :=
  snd (enqueueGenericController gc_a (mkSt (example_crd [gc_a]) calm_world)).

Definition crd_worked : St CRDBasedMetaController :=
  snd (processNextWorkItem crd_announced).

(** The Config-driven supervisor fresh from its constructor, in a world
    where discovery fails for [gc_b] at first, and after the pass over
    [gc_a]. *)
Definition cfg_fresh : St ConfigBasedMetaController :=
  mkSt example_obj (loaded flaky_world).

Definition discovery_down : error := Errorf "discovery: resource not found".

(** The constructor run on the example options, and the goroutine of
    [Start] run on what it made. *)
Definition example_made : (error + ConfigBasedMetaController) * World :=
  NewConfigBasedMetaController (handle 1) (handle 2) (handle 3) 5
    example_opts calm_world.

Definition example_run : option outcome * St ConfigBasedMetaController :=
  cfg_Start_goroutine 5 (snd (cfg_Start_make (mkSt example_obj (snd example_made)))).

(** A supervisor configured with [gc_a], its twin and [gc_b]. *)
Definition cfg_twins : St ConfigBasedMetaController :=
  mkSt (cfg_set_configs [gc_a; gc_a_twin; gc_b] example_obj) (loaded calm_world).

(** *** Two runs from Start to the return of Stop *)

Definition crd_sys_fresh : crd_sys :=
  crd_sys_init (mkSt (example_crd [gc_a; gc_b]) calm_world).

(** The informer syncs and announces [gc_a] and [gc_b]; the worker starts
    their controllers; [Stop] is called, signals, and the worker quits;
    [Stop] spawns the two stopping goroutines, and both enter
    [ctl.Stop()]. *)
Definition crd_schedule_both_stopping : list crd_action :=
  [CrdStart; CrdEnv EnvSynced; CrdLoop;
   CrdEnv (EnvEnqueue gc_a); CrdEnv (EnvEnqueue gc_b); CrdLoop; CrdLoop;
   CrdStop; CrdStopThread DoStatement; CrdStopThread DoStatement; CrdLoop;
   CrdStopThread DoStatement; CrdStopThread DoStatement;
   CrdStopThread (DoChildCall 0); CrdStopThread (DoChildCall 1)].

(** Then the second returns before the first, and [Stop] returns. *)
Definition crd_schedule_returned : list crd_action :=
  crd_schedule_both_stopping
  ++ [CrdStopThread (DoChildReturn 1); CrdStopThread (DoChildReturn 0);
      CrdStopThread DoStatement].

(** [Stop] is called while two keys are queued: the worker still takes
    both before it quits. *)
Definition crd_schedule_drain : list crd_action :=
  [CrdStart; CrdEnv EnvSynced; CrdLoop;
   CrdEnv (EnvEnqueue gc_a); CrdEnv (EnvEnqueue gc_b);
   CrdStop; CrdStopThread DoStatement; CrdStopThread DoStatement;
   CrdEnv (EnvEnqueue gc_a_respecced);
   CrdLoop; CrdLoop; CrdLoop].

Definition cfg_sys_fresh : cfg_sys :=
  cfg_sys_init (mkSt example_obj (loaded calm_world)).

(** [Start]; the first turn of the wait loop starts both controllers and
    ends the loop; [Stop] is called, spawns, joins and returns. *)
Definition cfg_schedule_returned : list cfg_action :=
  [CfgStart; CfgTurn; CfgStop;
   CfgStopThread DoStatement; CfgStopThread DoStatement;
   CfgStopThread (DoChildCall 1); CfgStopThread (DoChildCall 0);
   CfgStopThread (DoChildReturn 0); CfgStopThread (DoChildReturn 1);
   CfgStopThread DoStatement].

(** [Stop] called during the wait loop cannot take its first statement. *)
Definition cfg_schedule_blocked : list cfg_action :=
  [CfgStart; CfgStop; CfgStopThread DoStatement].

(** What is left of a system for inspection. *)
Definition children_pcs (th : threads) : list child_pc := snd <$> th_children th.

(** *** More concrete data *)

(** An option that refuses. *)
Definition refusing_option : ConfigBasedMetaControllerOption :=
  fun c => (Some (Errorf "option refused"), c).

(** A path option, the option that refuses, and a function option. *)
Definition refused_opts : list ConfigBasedMetaControllerOption :=
  [SetMetaControllerConfigPath "/etc/metac"] ++ refusing_option
  :: [SetGenericControllerAsConfigFn example_fn].

(** The instance after the path option alone. *)
Definition example_pathed : ConfigBasedMetaController :=
  {| cfg_mc := zero_MetaController; ConfigPath := "/etc/metac";
     GenericControllerAsConfigFn := None;
     GenericControllerConfigs := [];
     WaitTimeoutForCondition := 30 * Minute;
     WaitIntervalForCondition := 1 * Second |}.


Definition cfg_flaky_started : St ConfigBasedMetaController :=
  snd (cfg_Start_make cfg_fresh).

(** A CRD-driven supervisor fresh from its constructor, whose informer
    holds [gc_a]. *)
Definition crd_fresh : St CRDBasedMetaController :=
  mkSt (example_crd [gc_a]) calm_world.


(** A trace that stops a controller twice. *)
Definition stopped_twice : list event :=
  [EvNewWatchController gc_a (Some 0%nat); EvStart 0 5; EvStop 0; EvStop 0].


(** * Properties *)

Section Properties.
Context `{Externals}.

#[local] Set Warnings "-clear-no-such-hyp".

(** Unfolds the plumbing of the state monad. *)
Ltac run :=
  unfold bind, ret, get_self, modify_self, get_world, modify_world,
    wc_Start, wc_Stop, crd_update_map, time_Since, time_Sleep in *;
  simpl in *.

Lemma lifecycle_app tr1 tr2 :
  lifecycle (tr1 ++ tr2) = lifecycle tr1 ++ lifecycle tr2.
Proof. unfold lifecycle. apply List.filter_app. Qed.

(** *** The reconcile of an unchanged definition *)

Lemma syncGenericController_same_spec ctrl c st :
  WatchControllers (crd_mc (self st)) !! Key ctrl = Some c ->
  Semantic_DeepEqual (Spec ctrl) (Spec (GCtlConfig c)) = true ->
  syncGenericController ctrl st = (None, st).
Proof.
  intros Hm Heq. unfold syncGenericController. run.
  rewrite Hm, Heq. reflexivity.
Qed.

Lemma sync_found key ns name ctrl st :
  SplitMetaNamespaceKey key = inr (ns, name) ->
  Lister (self st) ns name = inr ctrl ->
  sync key st = syncGenericController ctrl st.
Proof.
  intros Hk Hl. unfold sync. rewrite Hk. run. rewrite Hl. reflexivity.
Qed.

(** C2: when a watch controller is registered under the key of the
    definition and its stored spec is semantically equal to the definition's
    spec, [syncGenericController] returns nil and leaves the receiver and the
    world as they were: nothing is stopped, constructed or started and the map
    is not modified; the same holds for [sync] on a key whose definition the
    lister finds. *)
Theorem reconcile_equal_spec_is_noop ctrl c st :
  WatchControllers (crd_mc (self st)) !! Key ctrl = Some c ->
  Semantic_DeepEqual (Spec ctrl) (Spec (GCtlConfig c)) = true ->
  syncGenericController ctrl st = (None, st) /\
  (forall key ns name,
     SplitMetaNamespaceKey key = inr (ns, name) ->
     Lister (self st) ns name = inr ctrl ->
     sync key st = (None, st)).
Proof.
  intros Hm Heq. split.
  - eapply syncGenericController_same_spec; eauto.
  - intros key ns name Hk Hl. rewrite (sync_found _ _ _ _ _ Hk Hl).
    eapply syncGenericController_same_spec; eauto.
Qed.

(** *** The reconcile of a definition that is gone *)

Lemma sync_not_found key ns name err st :
  SplitMetaNamespaceKey key = inr (ns, name) ->
  Lister (self st) ns name = inl err ->
  IsNotFound err = true ->
  sync key st = (None, dropped key st).
Proof.
  intros Hk Hl Hnf. unfold sync, dropped, crd_map. rewrite Hk. run.
  rewrite Hl, Hnf. destruct (WatchControllers (crd_mc (self st)) !! key); reflexivity.
Qed.

Lemma dropped_map key st :
  WatchControllers (crd_mc (self (dropped key st)))
  = delete key (WatchControllers (crd_mc (self st))).
Proof.
  unfold dropped, crd_map.
  destruct (WatchControllers (crd_mc (self st)) !! key) eqn:E; simpl; [done|].
  symmetry. by apply delete_id.
Qed.

(** The worker's turn on a key whose reconcile succeeds with [st2]. *)
Lemma processNextWorkItem_success key q st st2 :
  wq_Get (Queue (self st)) = GetItem key q ->
  sync key (mkSt (crd_set_Queue q (self st)) (world st)) = (None, st2) ->
  processNextWorkItem st
  = (Some true,
     mkSt (crd_set_Queue (wq_Done key (wq_Forget key (Queue (self st2))))
             (self st2)) (world st2)).
Proof.
  intros Hg Hs. unfold processNextWorkItem. run. rewrite Hg. simpl.
  rewrite Hs. reflexivity.
Qed.

(** C3: when the key splits into namespace and name and the lister reports
    not-found for them, [sync] returns nil; the map afterwards is the map
    before without the key; the only event is the stop of the controller that
    was registered under the key, and when none was, nothing changes at all.
    In the worker's turn on that key the rate limiter forgets the key and the
    key is marked done, without a requeue. *)
Theorem sync_not_found_drops_controller key ns name err st :
  SplitMetaNamespaceKey key = inr (ns, name) ->
  Lister (self st) ns name = inl err ->
  IsNotFound err = true ->
  exists st',
    sync key st = (None, st') /\
    WatchControllers (crd_mc (self st'))
      = delete key (WatchControllers (crd_mc (self st))) /\
    trace (world st')
      = trace (world st)
        ++ match WatchControllers (crd_mc (self st)) !! key with
           | Some c => [EvStop (wc_id c)]
           | None => []
           end /\
    (WatchControllers (crd_mc (self st)) !! key = None -> st' = st) /\
    (forall q,
       wq_Get (Queue (self st)) = GetItem key q ->
       exists st'',
         processNextWorkItem st = (Some true, st'') /\
         Queue (self st'') = wq_Done key (wq_Forget key q) /\
         WatchControllers (crd_mc (self st''))
           = delete key (WatchControllers (crd_mc (self st))) /\
         world st'' = world st').
Proof.
  intros Hk Hl Hnf. exists (dropped key st).
  split; [by eapply sync_not_found|].
  split; [apply dropped_map|].
  split.
  { unfold dropped, crd_map.
    destruct (WatchControllers (crd_mc (self st)) !! key); simpl; [done|].
    by rewrite app_nil_r. }
  split.
  { intros Hn. unfold dropped, crd_map. by rewrite Hn. }
  intros q Hg. eexists. split.
  { eapply processNextWorkItem_success; [exact Hg|].
    eapply sync_not_found; eauto. }
  simpl. unfold dropped, crd_map. simpl.
  destruct (WatchControllers (crd_mc (self st)) !! key) eqn:E; simpl.
  - done.
  - split; [done|]. split; [|done]. symmetry. by apply delete_id.
Qed.

(** *** An update outside the spec *)

Lemma enqueue_keeps_controllers obj st :
  WatchControllers (crd_mc (self (snd (enqueueGenericController obj st))))
    = WatchControllers (crd_mc (self st)) /\
  lifecycle (trace (world (snd (enqueueGenericController obj st))))
    = lifecycle (trace (world st)).
Proof.
  unfold enqueueGenericController. destruct (KeyFunc (ObjMeta obj)); run.
  - split; [done|]. rewrite lifecycle_app. simpl. by rewrite app_nil_r.
  - done.
Qed.

(** C9: let [cur] be [old] with changes outside the spec only, and let a
    watch controller whose stored spec is semantically equal to that spec be
    registered under the key.  The update handler leaves the map and the
    life of every controller alone (it enqueues a key, or reports that it
    could not); whenever the worker then takes a key for which the lister
    answers [cur], the reconcile of that key is a no-op, and the worker's
    turn changes the queue and nothing else: the map, the registered
    controller and the world are as before. *)
Theorem update_outside_spec_keeps_controller old cur c st :
  Spec cur = Spec old ->
  Key cur = Key old ->
  WatchControllers (crd_mc (self st)) !! Key old = Some c ->
  Semantic_DeepEqual (Spec old) (Spec (GCtlConfig c)) = true ->
  let st1 := snd (updateGenericController old cur st) in
  WatchControllers (crd_mc (self st1)) = WatchControllers (crd_mc (self st)) /\
  lifecycle (trace (world st1)) = lifecycle (trace (world st)) /\
  (forall st2 key ns name,
     WatchControllers (crd_mc (self st2)) = WatchControllers (crd_mc (self st)) ->
     SplitMetaNamespaceKey key = inr (ns, name) ->
     Lister (self st2) ns name = inr cur ->
     sync key st2 = (None, st2) /\
     forall q,
       wq_Get (Queue (self st2)) = GetItem key q ->
       exists st3,
         processNextWorkItem st2 = (Some true, st3) /\
         WatchControllers (crd_mc (self st3))
           = WatchControllers (crd_mc (self st)) /\
         WatchControllers (crd_mc (self st3)) !! Key cur = Some c /\
         world st3 = world st2).
Proof.
  intros Hspec Hkey Hm Heq st1.
  destruct (enqueue_keeps_controllers cur st) as [E1 E2].
  split; [exact E1|]. split; [exact E2|].
  intros st2 key ns name Hsame Hk Hl.
  assert (Hnoop : forall s,
             WatchControllers (crd_mc (self s))
               = WatchControllers (crd_mc (self st)) ->
             Lister (self s) ns name = inr cur ->
             sync key s = (None, s)).
  { intros s Hs Hls. rewrite (sync_found _ _ _ _ _ Hk Hls).
    eapply syncGenericController_same_spec.
    - rewrite Hs, Hkey. exact Hm.
    - rewrite Hspec. exact Heq. }
  split; [by apply Hnoop|].
  intros q Hg. eexists. split.
  { eapply processNextWorkItem_success; [exact Hg|].
    apply Hnoop; simpl; done. }
  simpl. rewrite Hsame, Hkey. done.
Qed.

(** *** One pass of the Config-driven supervisor *)

Lemma later_refl w : later w w [].
Proof. unfold later. rewrite app_nil_r. repeat split; lia. Qed.

Lemma later_trans w1 w2 w3 d1 d2 :
  later w1 w2 d1 -> later w2 w3 d2 -> later w1 w3 (d1 ++ d2).
Proof.
  unfold later. intros (?&?&?&?&?&?&?) (?&?&?&?&?&?&?).
  repeat split; try congruence; try lia.
  rewrite app_assoc. congruence.
Qed.

Lemma startAll_loop_nil st : startAll_loop [] st = ((true, None), st).
Proof. reflexivity. Qed.

Lemma startAll_loop_skip conf rest st c :
  cfg_map st !! Key conf = Some c ->
  startAll_loop (conf :: rest) st = startAll_loop rest st.
Proof. unfold cfg_map. intros Hm. simpl. run. by rewrite Hm. Qed.

Lemma startAll_loop_fail conf rest st err :
  cfg_map st !! Key conf = None ->
  discovery (world st) (ext_calls (world st)) conf = Some err ->
  startAll_loop (conf :: rest) st
  = ((false,
      Some (Wrapf err (cfg_String +:+ ": Failed to sync key " +:+ Key conf))),
     after_failed_start conf st).
Proof.
  unfold cfg_map. intros Hm Hd. simpl. run. rewrite Hm.
  unfold newWatchController. by rewrite Hd.
Qed.

Lemma startAll_loop_start conf rest st :
  cfg_map st !! Key conf = None ->
  discovery (world st) (ext_calls (world st)) conf = None ->
  startAll_loop (conf :: rest) st = startAll_loop rest (after_start conf st).
Proof.
  unfold cfg_map. intros Hm Hd. simpl. run. rewrite Hm.
  unfold newWatchController. by rewrite Hd.
Qed.

(** Induction along the cases of the loop body. *)
Lemma startAll_loop_cases
  (P : list GenericController -> St ConfigBasedMetaController ->
       (bool * option error) * St ConfigBasedMetaController -> Prop) :
  (forall st, P [] st ((true, None), st)) ->
  (forall conf rest st c,
     cfg_map st !! Key conf = Some c ->
     P rest st (startAll_loop rest st) ->
     P (conf :: rest) st (startAll_loop rest st)) ->
  (forall conf rest st err,
     cfg_map st !! Key conf = None ->
     discovery (world st) (ext_calls (world st)) conf = Some err ->
     P (conf :: rest) st
       ((false,
         Some (Wrapf err (cfg_String +:+ ": Failed to sync key " +:+ Key conf))),
        after_failed_start conf st)) ->
  (forall conf rest st,
     cfg_map st !! Key conf = None ->
     discovery (world st) (ext_calls (world st)) conf = None ->
     P rest (after_start conf st) (startAll_loop rest (after_start conf st)) ->
     P (conf :: rest) st (startAll_loop rest (after_start conf st))) ->
  forall confs st, P confs st (startAll_loop confs st).
Proof.
  intros Hnil Hskip Hfail Hstart. induction confs as [|conf rest IH]; intros st.
  - apply Hnil.
  - destruct (cfg_map st !! Key conf) as [c|] eqn:Hm.
    + rewrite (startAll_loop_skip _ _ _ _ Hm). eapply Hskip; eauto.
    + destruct (discovery (world st) (ext_calls (world st)) conf) as [err|] eqn:Hd.
      * rewrite (startAll_loop_fail _ _ _ _ Hm Hd). by apply Hfail.
      * rewrite (startAll_loop_start _ _ _ Hm Hd). by apply Hstart.
Qed.

Lemma cfg_with_map_id c : cfg_with_map (WatchControllers (cfg_mc c)) c = c.
Proof. by destruct c as [[] ? ? ? ? ?]. Qed.

Lemma later_after_failed_start conf st :
  later (world st) (world (after_failed_start conf st))
    [EvNewWatchController conf None].
Proof. unfold later; simpl. repeat split; lia. Qed.

Lemma later_after_start conf st :
  later (world st) (world (after_start conf st))
    [EvNewWatchController conf (Some (next_id (world st)));
     EvStart (next_id (world st)) (WorkerCount (cfg_mc (self st)))].
Proof.
  unfold later; simpl. repeat split; try lia.
  by rewrite <- app_assoc.
Qed.

Lemma pass_frame_refl st : pass_frame st st.
Proof.
  split; [symmetry; apply cfg_with_map_id|].
  split; [done|]. exists []. split; [apply later_refl|constructor].
Qed.

Lemma pass_frame_trans st1 st2 st3 :
  pass_frame st1 st2 -> pass_frame st2 st3 -> pass_frame st1 st3.
Proof.
  intros (A1 & A2 & d1 & A3 & A4) (B1 & B2 & d2 & B3 & B4).
  split; [rewrite B1, A1; reflexivity|].
  split; [by etrans|].
  exists (d1 ++ d2). split; [by eapply later_trans|].
  by apply Forall_app.
Qed.

Lemma pass_frame_after_start conf st :
  cfg_map st !! Key conf = None -> pass_frame st (after_start conf st).
Proof.
  intros Hm. split; [reflexivity|]. split.
  { unfold cfg_map at 2; simpl. by apply insert_subseteq. }
  eexists. split; [apply later_after_start|]. by repeat constructor.
Qed.

Lemma startAll_loop_frame confs st :
  pass_frame st (snd (startAll_loop confs st)).
Proof.
  revert confs st.
  apply (startAll_loop_cases (fun _ st res => pass_frame st (snd res))); simpl.
  - apply pass_frame_refl.
  - intros conf rest st c Hm IH. exact IH.
  - intros conf rest st err Hm Hd.
    split; [symmetry; apply cfg_with_map_id|]. split; [done|].
    eexists. split; [apply later_after_failed_start|]. by repeat constructor.
  - intros conf rest st Hm Hd IH.
    eapply pass_frame_trans; [by apply pass_frame_after_start|exact IH].
Qed.

(** A pass ends in one of two ways. *)
Lemma startAll_loop_result confs st :
  (fst (startAll_loop confs st) = (true, None) /\
   forall conf, conf ∈ confs ->
     is_Some (cfg_map (snd (startAll_loop confs st)) !! Key conf)) \/
  (exists conf err,
     conf ∈ confs /\
     fst (startAll_loop confs st)
       = (false,
          Some (Wrapf err (cfg_String +:+ ": Failed to sync key " +:+ Key conf))) /\
     cfg_map (snd (startAll_loop confs st)) !! Key conf = None).
Proof.
  revert confs st.
  apply (startAll_loop_cases (fun confs st res =>
    (fst res = (true, None) /\
     forall conf, conf ∈ confs -> is_Some (cfg_map (snd res) !! Key conf)) \/
    (exists conf err,
       conf ∈ confs /\
       fst res
         = (false,
            Some (Wrapf err (cfg_String +:+ ": Failed to sync key " +:+ Key conf))) /\
       cfg_map (snd res) !! Key conf = None))); simpl.
  - intros st. left. split; [done|]. intros conf Hin. by apply elem_of_nil in Hin.
  - intros conf rest st c Hm [[IH1 IH2]|(conf' & err & Hin & IH1 & IH2)].
    + left. split; [done|]. intros conf' [->|Hin]%elem_of_cons; [|by apply IH2].
      destruct (startAll_loop_frame rest st) as (_ & Hsub & _).
      exists c. eapply lookup_weaken; eauto.
    + right. exists conf', err. split; [by right|done].
  - intros conf rest st err Hm Hd. right. exists conf, err.
    split; [by left|done].
  - intros conf rest st Hm Hd [[IH1 IH2]|(conf' & err & Hin & IH1 & IH2)].
    + left. split; [done|]. intros conf' [->|Hin]%elem_of_cons; [|by apply IH2].
      destruct (startAll_loop_frame rest (after_start conf st)) as (_ & Hsub & _).
      eexists. eapply lookup_weaken; [|exact Hsub].
      unfold cfg_map; simpl. apply lookup_insert_eq.
    + right. exists conf', err. split; [by right|done].
Qed.

#[local] Arguments first_with_key : simpl never.

Lemma first_with_key_head conf rest :
  first_with_key (Key conf) (conf :: rest) = Some conf.
Proof. unfold first_with_key; simpl. by rewrite bool_decide_eq_true_2. Qed.

Lemma first_with_key_tail k conf rest :
  Key conf <> k ->
  first_with_key k (conf :: rest) = first_with_key k rest.
Proof. intros Hne. unfold first_with_key; simpl. by rewrite bool_decide_eq_false_2. Qed.

Lemma attempted_app d1 d2 : attempted (d1 ++ d2) = attempted d1 ++ attempted d2.
Proof. unfold attempted. apply omap_app. Qed.

Lemma startAll_loop_dedup confs st :
  pass_dedup confs st (snd (startAll_loop confs st)).
Proof.
  revert confs st.
  apply (startAll_loop_cases (fun confs st res => pass_dedup confs st (snd res)));
    simpl.
  - intros st. exists []. rewrite app_nil_r. split; [done|].
    split; [intros conf Hin; by apply elem_of_nil in Hin|].
    split; [constructor|]. intros k c Hn Hs. congruence.
  - intros conf rest st c0 Hm (delta & IH1 & IH2 & IH3 & IH4).
    exists delta. split; [done|]. split.
    { intros conf' Hin. destruct (IH2 _ Hin) as [Hn Hf]. split; [done|].
      rewrite first_with_key_tail; [done|]. intros Heq. congruence. }
    split; [done|]. intros k c Hn Hs.
    rewrite first_with_key_tail; [by eapply IH4|]. intros Heq. congruence.
  - intros conf rest st err Hm Hd. exists [EvNewWatchController conf None].
    split; [done|]. split.
    { intros conf' Hin. apply list_elem_of_singleton in Hin as ->.
      split; [done|apply first_with_key_head]. }
    split; [apply NoDup_singleton|].
    intros k c Hn Hs. unfold cfg_map in *; simpl in *. congruence.
  - intros conf rest st Hm Hd (delta & IH1 & IH2 & IH3 & IH4).
    destruct (startAll_loop_frame rest (after_start conf st)) as (_ & Hsub & _).
    assert (Hreg : cfg_map (after_start conf st) !! Key conf
                   = Some {| wc_id := next_id (world st); GCtlConfig := conf |}).
    { unfold cfg_map; simpl. apply lookup_insert_eq. }
    exists ([EvNewWatchController conf (Some (next_id (world st)));
             EvStart (next_id (world st)) (WorkerCount (cfg_mc (self st)))]
            ++ delta).
    split.
    { rewrite IH1. simpl. by rewrite <- !app_assoc. }
    assert (Hother : forall conf', conf' ∈ attempted delta -> Key conf <> Key conf').
    { intros conf' Hin Heq. destruct (IH2 _ Hin) as [Hn _]. congruence. }
    split.
    { rewrite attempted_app. simpl.
      intros conf' [->|Hin]%elem_of_cons.
      - split; [done|apply first_with_key_head].
      - destruct (IH2 _ Hin) as [Hn Hf]. split.
        + unfold cfg_map in Hn; simpl in Hn.
          rewrite lookup_insert_ne in Hn; [done|by apply Hother].
        + rewrite first_with_key_tail; [done|by apply Hother]. }
    split.
    { rewrite attempted_app. simpl. constructor; [|done].
      intros (conf' & Heq & Hin)%list_elem_of_fmap. by eapply Hother. }
    intros k c Hn Hs. destruct (decide (Key conf = k)) as [<-|Hne].
    + rewrite first_with_key_head.
      pose proof (lookup_weaken _ _ _ _ Hreg Hsub) as Hfin.
      rewrite Hfin in Hs. by inversion Hs.
    + rewrite first_with_key_tail; [|done]. eapply IH4; [|done].
      unfold cfg_map; simpl. by rewrite lookup_insert_ne.
Qed.


(** *** Failed passes and retries *)

Lemma startAll_loop_app pre rest st :
  startAll_loop (pre ++ rest) st = pass_then rest (startAll_loop pre st).
Proof.
  revert pre st.
  apply (startAll_loop_cases (fun pre st res =>
    startAll_loop (pre ++ rest) st = pass_then rest res)).
  - done.
  - intros conf pre st c Hm IH.
    rewrite <- app_comm_cons. by erewrite startAll_loop_skip.
  - intros conf pre st err Hm Hd.
    rewrite <- app_comm_cons. by erewrite startAll_loop_fail.
  - intros conf pre st Hm Hd IH.
    rewrite <- app_comm_cons. by erewrite startAll_loop_start.
Qed.

Lemma running_snoc tr e : running (tr ++ [e]) = running_step (running tr) e.
Proof. unfold running. by rewrite foldl_snoc. Qed.

Lemma running_app tr delta :
  running (tr ++ delta) = foldl running_step (running tr) delta.
Proof. unfold running. by rewrite foldl_app. Qed.

Lemma running_grows_without_stop delta :
  Forall not_stop delta ->
  forall s : gset nat, s ⊆ foldl running_step s delta.
Proof.
  induction 1 as [|e delta He _ IH]; intros s; simpl; [done|].
  etrans; [|apply IH]. destruct e; simpl in *; try done. set_solver.
Qed.

Lemma grows_refl st : grows st st.
Proof.
  split; [symmetry; apply cfg_with_map_id|]. split; [done|].
  exists []. split; [apply later_refl|]. split; [constructor|].
  intros conf Hin. by apply elem_of_nil in Hin.
Qed.

Lemma grows_trans st1 st2 st3 : grows st1 st2 -> grows st2 st3 -> grows st1 st3.
Proof.
  intros (A1 & A2 & d1 & A3 & A4 & A5) (B1 & B2 & d2 & B3 & B4 & B5).
  split; [rewrite B1, A1; reflexivity|].
  split; [by etrans|].
  exists (d1 ++ d2). split; [by eapply later_trans|].
  split; [by apply Forall_app|].
  intros conf. rewrite attempted_app.
  intros [Hin|Hin]%elem_of_app; [by apply A5|].
  eapply lookup_weaken_None; [by apply B5|done].
Qed.

Lemma grows_running st st' :
  grows st st' -> running (trace (world st)) ⊆ running (trace (world st')).
Proof.
  intros (_ & _ & delta & (_ & _ & _ & _ & _ & _ & Htr) & Hns & _).
  rewrite Htr, running_app. apply running_grows_without_stop.
  eapply Forall_impl; [exact Hns|]. by intros [].
Qed.

Lemma grows_lookup st st' k c :
  grows st st' -> cfg_map st !! k = Some c -> cfg_map st' !! k = Some c.
Proof. intros (_ & Hsub & _) Hk. eapply lookup_weaken; eauto. Qed.

Lemma startAll_loop_grows confs st : grows st (snd (startAll_loop confs st)).
Proof.
  destruct (startAll_loop_frame confs st) as (F1 & F2 & delta & F3 & F4).
  destruct (startAll_loop_dedup confs st) as (delta' & D1 & D2 & _).
  assert (delta' = delta) as ->.
  { destruct F3 as (_ & _ & _ & _ & _ & _ & Htr). rewrite Htr in D1.
    by apply app_inv_head in D1. }
  split; [done|]. split; [done|]. exists delta. split; [done|]. split.
  - eapply Forall_impl; [exact F4|]. by intros [].
  - intros conf Hin. by apply D2.
Qed.

Lemma startAll_grows st : grows st (snd (startAllWatchControllers st)).
Proof. unfold startAllWatchControllers. run. apply startAll_loop_grows. Qed.

Lemma time_Sleep_grows d (st : St ConfigBasedMetaController) :
  grows st (snd (time_Sleep d st)).
Proof.
  run. split; [symmetry; apply cfg_with_map_id|]. split; [done|].
  exists [EvSleep d]. split.
  { unfold later, sleep_duration; simpl. repeat split; lia. }
  split; [by repeat constructor|].
  intros conf Hin. simpl in Hin. by apply elem_of_nil in Hin.
Qed.

Lemma wait_turn_grows cond start st :
  (forall s, grows s (snd (cond s))) ->
  grows st (snd (wait_turn cond start st)).
Proof.
  intros Hc. unfold wait_turn. unfold bind at 1.
  pose proof (Hc st) as Hg. destruct (cond st) as [[done err] st1]. simpl in Hg.
  pose proof (time_Sleep_grows (WaitIntervalForCondition (self st1)) st1) as Hs.
  destruct done, err; try exact Hg;
    unfold bind, time_Since, get_self, ret; simpl;
    (destruct (_ >? _); simpl; [done|]);
    (eapply grows_trans; [exact Hg|]);
    exact Hs.
Qed.

Lemma wait_loop_grows cond start fuel st :
  (forall s, grows s (snd (cond s))) ->
  grows st (snd (wait_loop fuel cond start st)).
Proof.
  intros Hc. revert st. induction fuel as [|fuel IH]; intros st; simpl.
  - apply grows_refl.
  - unfold bind. pose proof (wait_turn_grows cond start st Hc) as Hg.
    destruct (wait_turn cond start st) as [[res|] st1]; simpl in *; [done|].
    eapply grows_trans; [exact Hg|apply IH].
Qed.

(** C10: if the pass gets through the definitions [pre] and the construction
    for the next definition [conf] fails, the pass returns there: the result
    is the wrapped error and the state is the one after [pre] plus the failed
    attempt, whatever [post] holds, so nothing of [post] is attempted.  What
    the pass had registered stays registered and what runs keeps running.
    Over the turns of the wait loop the map only gains entries and the set of
    running controllers only grows; a key that is registered keeps its
    controller, and no construction is attempted for it again. *)
Theorem failed_pass_keeps_started pre conf post st st1 err :
  startAll_loop pre st = ((true, None), st1) ->
  cfg_map st1 !! Key conf = None ->
  discovery (world st1) (ext_calls (world st1)) conf = Some err ->
  startAll_loop (pre ++ conf :: post) st
    = ((false,
        Some (Wrapf err (cfg_String +:+ ": Failed to sync key " +:+ Key conf))),
       after_failed_start conf st1) /\
  cfg_map (after_failed_start conf st1) = cfg_map st1 /\
  cfg_map st ⊆ cfg_map st1 /\
  running (trace (world (after_failed_start conf st1)))
    = running (trace (world st1)) /\
  running (trace (world st)) ⊆ running (trace (world st1)) /\
  (forall fuel start s,
     let s' := snd (wait_loop fuel startAllWatchControllers start s) in
     cfg_map s ⊆ cfg_map s' /\
     running (trace (world s)) ⊆ running (trace (world s')) /\
     exists delta,
       trace (world s') = trace (world s) ++ delta /\
       Forall not_stop delta /\
       forall k c,
         cfg_map s !! k = Some c ->
         cfg_map s' !! k = Some c /\
         forall conf', conf' ∈ attempted delta -> Key conf' <> k).
Proof.
  intros Hpre Hm Hd.
  split.
  { rewrite startAll_loop_app, Hpre. simpl. by apply startAll_loop_fail. }
  split; [done|].
  pose proof (startAll_loop_grows pre st) as Hg. rewrite Hpre in Hg. simpl in Hg.
  split; [by destruct Hg as (_ & ? & _)|].
  split.
  { simpl. by rewrite running_snoc. }
  split; [by apply grows_running|].
  intros fuel start s s'.
  pose proof (wait_loop_grows startAllWatchControllers start fuel s startAll_grows)
    as Hw. fold s' in Hw.
  split; [by destruct Hw as (_ & ? & _)|].
  split; [by apply grows_running|].
  destruct Hw as (_ & Hsub & delta & (_ & _ & _ & _ & _ & _ & Htr) & Hns & Hatt).
  exists delta. split; [done|].
  split; [eapply Forall_impl; [exact Hns|]; by intros []|].
  intros k c Hk. split; [by eapply lookup_weaken|].
  intros conf' Hin Heq. apply Hatt in Hin. congruence.
Qed.

(** *** The wait loop *)

Lemma wait_turn_eq cond start st :
  wait_turn cond start st
  = match cond st with
    | ((true, None), st1) => (Some None, st1)
    | ((_, err), st1) =>
        if since start (world st1) >? WaitTimeoutForCondition (self st1)
        then (Some (Some (TimedOut cfg_String
                            (WaitTimeoutForCondition (self st1)) err)), st1)
        else (None, snd (time_Sleep (WaitIntervalForCondition (self st1)) st1))
    end.
Proof.
  unfold wait_turn. unfold bind at 1.
  destruct (cond st) as [[[] []] st1]; run; try reflexivity;
    by destruct (_ >? _).
Qed.


Lemma wait_loop_S cond start fuel st :
  wait_loop (S fuel) cond start st
  = match cond st with
    | ((true, None), st1) => (Some None, st1)
    | ((_, err), st1) =>
        if since start (world st1) >? WaitTimeoutForCondition (self st1)
        then (Some (Some (TimedOut cfg_String
                            (WaitTimeoutForCondition (self st1)) err)), st1)
        else wait_loop fuel cond start
               (snd (time_Sleep (WaitIntervalForCondition (self st1)) st1))
    end.
Proof.
  cbn [wait_loop]. unfold bind at 1. rewrite wait_turn_eq.
  destruct (cond st) as [[[] []] st1]; try reflexivity;
    by destruct (_ >? _).
Qed.



Section Wait.
Variable cond : M ConfigBasedMetaController (bool * option error).
Variable tick : Z.
Hypothesis tick_nonneg : 0 <= tick.
Hypothesis cond_clock : forall s, now (world s) + tick <= now (world (snd (cond s))).
Hypothesis cond_timing : forall s,
  WaitTimeoutForCondition (self (snd (cond s))) = WaitTimeoutForCondition (self s) /\
  WaitIntervalForCondition (self (snd (cond s))) = WaitIntervalForCondition (self s).



End Wait.



Lemma wait_eq fuel cond st :
  wait fuel cond st = wait_loop fuel cond (now (world st)) st.
Proof. reflexivity. Qed.





(** *** Where the definitions come from *)

Lemma loads_app tr1 tr2 : loads (tr1 ++ tr2) = loads tr1 ++ loads tr2.
Proof. unfold loads. apply List.filter_app. Qed.

Lemma loads_poll_events delta : Forall poll_event delta -> loads delta = [].
Proof.
  induction 1 as [|e delta He _ IH]; [done|].
  destruct e; simpl in *; done.
Qed.

(** C7: let the options leave the instance [obj].  With a non-empty
    ConfigPath the constructor calls Load on the path (and, when that
    succeeds, lists what was loaded) and nothing else: the function is not
    called, whether one is set or not, and the definitions of the new
    supervisor are the loaded ones.  With an empty path and a function, the
    function is called once and gives the definitions.  With an empty path
    and no function the constructor fails without calling anything. *)
Theorem config_path_overrides_function rm dc dif n opts w obj :
  run_options opts new_obj = inr obj ->
  let res := NewConfigBasedMetaController rm dc dif n opts w in
  (ConfigPath obj <> "" ->
   match config_files w (ConfigPath obj) with
   | inl err =>
       fst res = inl err /\
       trace (snd res) = trace w ++ [EvConfigLoad (ConfigPath obj)]
   | inr listed =>
       trace (snd res)
         = trace w ++ [EvConfigLoad (ConfigPath obj); EvListGenericControllers] /\
       match listed with
       | inl err => fst res = inl err
       | inr gctls =>
           exists mc, fst res = inr mc /\ GenericControllerConfigs mc = gctls
       end
   end) /\
  (ConfigPath obj = "" ->
   forall f, GenericControllerAsConfigFn obj = Some f ->
     trace (snd res) = trace w ++ [EvConfigFn] /\
     match f tt with
     | inl err => fst res = inl err
     | inr gctls =>
         exists mc, fst res = inr mc /\ GenericControllerConfigs mc = gctls
     end) /\
  (ConfigPath obj = "" ->
   GenericControllerAsConfigFn obj = None ->
   exists err, res = (inl err, w)).
Proof.
  intros Hrun res. unfold res, NewConfigBasedMetaController. rewrite Hrun.
  split; [|split].
  - intros Hpath. apply String.eqb_neq in Hpath. rewrite Hpath. simpl.
    destruct (config_files w (ConfigPath obj)) as [err|[err|gctls]]; simpl.
    + by destruct (GenericControllerAsConfigFn obj).
    + split; [by rewrite <- app_assoc|done].
    + split; [by rewrite <- app_assoc|eauto].
  - intros Hpath f Hf. rewrite Hpath, Hf. simpl.
    destruct (f tt) as [err|gctls]; simpl; [done|eauto].
  - intros Hpath Hf. rewrite Hpath, Hf. simpl. eauto.
Qed.

Lemma grows_no_load st st' :
  grows st st' ->
  loads (trace (world st')) = loads (trace (world st)) /\
  GenericControllerConfigs (self st') = GenericControllerConfigs (self st).
Proof.
  intros (Hself & _ & delta & (_ & _ & _ & _ & _ & _ & Htr) & Hev & _).
  split; [|by rewrite Hself].
  rewrite Htr, loads_app, (loads_poll_events _ Hev). apply app_nil_r.
Qed.

Lemma cfg_Start_goroutine_eq fuel st :
  cfg_Start_goroutine fuel st
  = match wait_loop fuel startAllWatchControllers (now (world st)) st with
    | (None, st2) => (None, st2)
    | (Some (Some err), st2) => (Some (Fatal err), st2)
    | (Some None, st2) =>
        (Some Completed,
         mkSt (cfg_set_mc (set_doneCh ChanClosed (cfg_mc (self st2))) (self st2))
           (world st2))
    end.
Proof.
  unfold cfg_Start_goroutine. unfold bind at 1. rewrite wait_eq.
  by destruct (wait_loop _ _ _ _) as [[[|]|] ?].
Qed.

Lemma cfg_Start_no_load fuel st :
  let res := cfg_Start_goroutine fuel (snd (cfg_Start_make st)) in
  loads (trace (world (snd res))) = loads (trace (world st)) /\
  GenericControllerConfigs (self (snd res)) = GenericControllerConfigs (self st).
Proof.
  intros res. unfold res. rewrite cfg_Start_goroutine_eq.
  remember (snd (cfg_Start_make st)) as st1 eqn:Hst1.
  pose proof (wait_loop_grows startAllWatchControllers (now (world st1)) fuel st1
                startAll_grows) as Hg.
  destruct (wait_loop fuel startAllWatchControllers (now (world st1)) st1)
    as [[[err|]|] st2]; simpl in *;
    destruct (grows_no_load _ _ Hg) as [-> ->]; by subst st1.
Qed.

(** C8 (as the code has it): when the constructor succeeds, it is the
    constructor that fetched the definitions: its events are the Load of the
    path and the listing of what was loaded, or the call of the function, and
    the definitions it stores are the ones fetched.  Start, with its
    goroutine, run on the constructed supervisor in whatever world, fetches
    nothing (no Load, no listing, no call of the function) and works on the
    stored definitions, which it leaves as they are. *)
Theorem definitions_are_loaded_by_the_constructor rm dc dif n opts w obj w' :
  NewConfigBasedMetaController rm dc dif n opts w = (inr obj, w') ->
  (exists ev,
     trace w' = trace w ++ ev /\
     ((ev = [EvConfigLoad (ConfigPath obj); EvListGenericControllers] /\
       config_files w (ConfigPath obj) = inr (inr (GenericControllerConfigs obj)))
      \/
      (exists f,
         ev = [EvConfigFn] /\
         GenericControllerAsConfigFn obj = Some f /\
         f tt = inr (GenericControllerConfigs obj)))) /\
  (forall fuel w2,
     let res := cfg_Start_goroutine fuel (snd (cfg_Start_make (mkSt obj w2))) in
     loads (trace (world (snd res))) = loads (trace w2) /\
     GenericControllerConfigs (self (snd res)) = GenericControllerConfigs obj).
Proof.
  intros Hnew. split; [|intros fuel w2; apply cfg_Start_no_load].
  unfold NewConfigBasedMetaController in Hnew.
  destruct (run_options opts new_obj) as [err|obj1]; [done|].
  destruct (String.eqb (ConfigPath obj1) "") eqn:Hpath;
    destruct (GenericControllerAsConfigFn obj1) as [f|] eqn:Hf;
    simpl in Hnew; try done.
  - destruct (f tt) as [err|gctls] eqn:Hft; [done|].
    inversion Hnew; subst; clear Hnew. simpl.
    eexists. split; [done|]. right. eauto.
  - destruct (config_files w (ConfigPath obj1)) as [err|[err|gctls]] eqn:Hcf;
      simpl in Hnew; try done.
    inversion Hnew; subst; clear Hnew. simpl.
    eexists. split; [by rewrite <- app_assoc|]. by left.
  - destruct (config_files w (ConfigPath obj1)) as [err|[err|gctls]] eqn:Hcf;
      simpl in Hnew; try done.
    inversion Hnew; subst; clear Hnew. simpl.
    eexists. split; [by rewrite <- app_assoc|]. by left.
Qed.

(** *** At most one watch controller per key *)

Lemma built_app tr1 tr2 : built (tr1 ++ tr2) = built tr1 ++ built tr2.
Proof. unfold built. apply omap_app. Qed.

Lemma prefix_snoc_inv {A} (p tr : list A) e :
  p `prefix_of` tr ++ [e] -> p `prefix_of` tr \/ p = tr ++ [e].
Proof.
  intros [k Hk]. destruct k as [|x k _] using rev_ind.
  - right. by rewrite app_nil_r in Hk.
  - left. rewrite app_assoc in Hk. apply app_inj_tail in Hk as [-> _].
    by apply prefix_app_r.
Qed.

Lemma at_all_times_nil P : P [] -> at_all_times P [].
Proof. intros HP p Hp. by apply prefix_nil_inv in Hp as ->. Qed.

Lemma at_all_times_snoc P tr e :
  at_all_times P tr -> P (tr ++ [e]) -> at_all_times P (tr ++ [e]).
Proof.
  intros Hall HP p [Hp| ->]%prefix_snoc_inv; [by apply Hall|done].
Qed.

Lemma registry_ok_one_per_key m tr nid : registry_ok m tr nid -> one_per_key tr.
Proof.
  intros (_ & Hb & _) c1 c2 H1 H2 Hk.
  apply Hb in H1, H2. rewrite Hk in H1. congruence.
Qed.

Lemma supervised_snoc m m' tr e nid nid' :
  supervised m tr nid -> registry_ok m' (tr ++ [e]) nid' ->
  supervised m' (tr ++ [e]) nid'.
Proof.
  intros [_ Hall] Hok. split; [done|].
  apply at_all_times_snoc; [done|]. by eapply registry_ok_one_per_key.
Qed.

Ltac split5 := split; [|split; [|split; [|split]]].

Lemma registry_ok_empty nid : registry_ok ∅ [] nid.
Proof.
  unfold registry_ok, runs. simpl. split5.
  - intros k c Hm. by apply lookup_empty_Some in Hm.
  - intros c [Hb _]. by apply elem_of_nil in Hb.
  - intros c Hb. by apply elem_of_nil in Hb.
  - intros c1 c2 Hb. by apply elem_of_nil in Hb.
  - intros id Hid. by apply elem_of_empty in Hid.
Qed.

(** An event that is no construction, start or stop changes nothing. *)
Lemma registry_ok_other m tr nid e :
  is_lifecycle e = false -> registry_ok m tr nid -> registry_ok m (tr ++ [e]) nid.
Proof.
  intros He. unfold registry_ok, runs.
  rewrite built_app, running_snoc.
  assert (built [e] = []) as -> by (by destruct e).
  assert (running_step (running tr) e = running tr) as -> by (by destruct e).
  by rewrite app_nil_r.
Qed.

Lemma registry_ok_new_failed m tr nid conf :
  registry_ok m tr nid ->
  registry_ok m (tr ++ [EvNewWatchController conf None]) nid.
Proof.
  unfold registry_ok, runs. rewrite built_app, running_snoc. simpl.
  by rewrite app_nil_r.
Qed.

Lemma registry_ok_stop m tr nid key c0 :
  registry_ok m tr nid -> m !! key = Some c0 ->
  registry_ok (delete key m) (tr ++ [EvStop (wc_id c0)]) nid.
Proof.
  intros (Ha & Hb & Hc & Hd & He) Hkey.
  destruct (Ha _ _ Hkey) as [Hk0 [Hb0 Hr0]].
  unfold registry_ok, runs. rewrite built_app, running_snoc. simpl.
  rewrite app_nil_r. split5.
  - intros k c [Hne Hm]%lookup_delete_Some.
    destruct (Ha _ _ Hm) as [Hk [Hbc Hrc]].
    split; [done|]. split; [done|].
    apply elem_of_difference. split; [done|].
    intros Hid%elem_of_singleton. apply Hne.
    assert (c = c0) as -> by (by apply Hd). congruence.
  - intros c [Hbc [Hrc Hne]%elem_of_difference].
    assert (Hm : m !! Key (GCtlConfig c) = Some c) by (by apply Hb).
    rewrite lookup_delete_ne; [done|].
    intros Heq. rewrite <- Heq, Hkey in Hm. inversion Hm; subst.
    apply Hne. by apply elem_of_singleton.
  - done.
  - done.
  - intros id [Hr _]%elem_of_difference. by apply He.
Qed.

Lemma registry_ok_new m tr nid conf :
  registry_ok m tr nid ->
  registry_ok m (tr ++ [EvNewWatchController conf (Some nid)]) (S nid) /\
  nid ∉ running (tr ++ [EvNewWatchController conf (Some nid)]).
Proof.
  intros (Ha & Hb & Hc & Hd & He).
  assert (Hfresh : nid ∉ running tr).
  { intros (c & Hbc & Hid)%He. apply Hc in Hbc. lia. }
  split; [|by rewrite running_snoc].
  unfold registry_ok, runs. rewrite built_app, running_snoc. simpl.
  split5.
  - intros k c Hm. destruct (Ha _ _ Hm) as [Hk [Hbc Hrc]].
    split; [done|]. split; [|done]. apply elem_of_app. by left.
  - intros c [[Hbc|Hbc%list_elem_of_singleton]%elem_of_app Hrc].
    + by apply Hb.
    + subst c. simpl in Hrc. done.
  - intros c [Hbc|Hbc%list_elem_of_singleton]%elem_of_app.
    + apply Hc in Hbc. lia.
    + subst c. simpl. lia.
  - intros c1 c2 [H1|H1%list_elem_of_singleton]%elem_of_app
      [H2|H2%list_elem_of_singleton]%elem_of_app Hid.
    + by apply Hd.
    + subst c2. apply Hc in H1. simpl in Hid. lia.
    + subst c1. apply Hc in H2. simpl in Hid. lia.
    + congruence.
  - intros id (c & Hbc & Hid)%He. exists c. split; [|done].
    apply elem_of_app. by left.
Qed.

Lemma registry_ok_start m tr nid wc n :
  registry_ok m tr nid ->
  wc ∈ built tr -> wc_id wc ∉ running tr ->
  m !! Key (GCtlConfig wc) = None ->
  registry_ok (<[Key (GCtlConfig wc) := wc]> m) (tr ++ [EvStart (wc_id wc) n]) nid.
Proof.
  intros (Ha & Hb & Hc & Hd & He) Hbuilt Hnot Hnone.
  unfold registry_ok, runs. rewrite built_app, running_snoc. simpl.
  rewrite app_nil_r. split5.
  - intros k c [[<- <-]|[Hne Hm]]%lookup_insert_Some.
    + split; [done|]. split; [done|].
      apply elem_of_union. left. by apply elem_of_singleton.
    + destruct (Ha _ _ Hm) as [Hk [Hbc Hrc]].
      split; [done|]. split; [done|]. apply elem_of_union. by right.
  - intros c [Hbc Hrc]. apply elem_of_union in Hrc as [Hid%elem_of_singleton|Hrc].
    + assert (c = wc) as -> by (by apply Hd). apply lookup_insert_eq.
    + assert (Hm : m !! Key (GCtlConfig c) = Some c) by (by apply Hb).
      rewrite lookup_insert_ne; [done|]. intros Heq. congruence.
  - done.
  - done.
  - intros id [Hid%elem_of_singleton|Hr]%elem_of_union; [|by apply He].
    subst id. eauto.
Qed.

Lemma supervised_other m tr nid e :
  is_lifecycle e = false -> supervised m tr nid -> supervised m (tr ++ [e]) nid.
Proof.
  intros He Hs. eapply supervised_snoc; [exact Hs|].
  apply registry_ok_other; [done|]. by destruct Hs.
Qed.

Lemma supervised_new_failed m tr nid conf :
  supervised m tr nid ->
  supervised m (tr ++ [EvNewWatchController conf None]) nid.
Proof.
  intros Hs. eapply supervised_snoc; [exact Hs|].
  apply registry_ok_new_failed. by destruct Hs.
Qed.

Lemma supervised_stop m tr nid key c0 :
  supervised m tr nid -> m !! key = Some c0 ->
  supervised (delete key m) (tr ++ [EvStop (wc_id c0)]) nid.
Proof.
  intros Hs Hkey. eapply supervised_snoc; [exact Hs|].
  apply registry_ok_stop; [by destruct Hs|done].
Qed.

Lemma supervised_new_start m tr nid conf n :
  supervised m tr nid -> m !! Key conf = None ->
  supervised (<[Key conf := {| wc_id := nid; GCtlConfig := conf |}]> m)
    ((tr ++ [EvNewWatchController conf (Some nid)]) ++ [EvStart nid n]) (S nid).
Proof.
  intros Hs Hnone.
  destruct (registry_ok_new m tr nid conf (proj1 Hs)) as [Hok Hfresh].
  assert (Hs1 : supervised m (tr ++ [EvNewWatchController conf (Some nid)]) (S nid))
    by (eapply supervised_snoc; eauto).
  eapply supervised_snoc; [exact Hs1|].
  apply (registry_ok_start m _ (S nid) {| wc_id := nid; GCtlConfig := conf |} n);
    [done| |done|done].
  rewrite built_app. apply elem_of_app. right. simpl. by apply list_elem_of_singleton.
Qed.

(** **** The CRD-driven supervisor keeps the registry *)

Lemma dropped_ok key st : crd_ok st -> crd_ok (dropped key st).
Proof.
  unfold crd_ok, dropped. intros Hs.
  destruct (crd_map st !! key) as [c|] eqn:Hk; [|done].
  by apply supervised_stop.
Qed.

Lemma syncGenericController_recreate_eq ctrl st :
  syncGenericController_recreate ctrl st
  = match discovery (world st) (ext_calls (world st)) ctrl with
    | Some err => (Some err, crd_after_failed ctrl st)
    | None => (None, crd_after_start ctrl st)
    end.
Proof.
  unfold syncGenericController_recreate, newWatchController. run.
  by destruct (discovery (world st) (ext_calls (world st)) ctrl).
Qed.

Lemma syncGenericController_eq ctrl st :
  syncGenericController ctrl st
  = match crd_map st !! Key ctrl with
    | Some c =>
        if Semantic_DeepEqual (Spec ctrl) (Spec (GCtlConfig c)) then (None, st)
        else syncGenericController_recreate ctrl (dropped (Key ctrl) st)
    | None => syncGenericController_recreate ctrl st
    end.
Proof.
  unfold syncGenericController, dropped, crd_map. run.
  destruct (WatchControllers (crd_mc (self st)) !! Key ctrl) as [c|]; [|done].
  by destruct (Semantic_DeepEqual _ _).
Qed.

Lemma recreate_ok ctrl st :
  crd_ok st -> crd_map st !! Key ctrl = None ->
  crd_ok (snd (syncGenericController_recreate ctrl st)).
Proof.
  intros Hs Hnone. rewrite syncGenericController_recreate_eq.
  destruct (discovery _ _ _); simpl.
  - by apply supervised_new_failed.
  - by apply supervised_new_start.
Qed.

Lemma dropped_lookup key st : crd_map (dropped key st) !! key = None.
Proof.
  unfold dropped. destruct (crd_map st !! key) eqn:Hk; [|done].
  unfold crd_map; simpl. apply lookup_delete_eq.
Qed.

Lemma syncGenericController_ok ctrl st :
  crd_ok st -> crd_ok (snd (syncGenericController ctrl st)).
Proof.
  intros Hs. rewrite syncGenericController_eq.
  destruct (crd_map st !! Key ctrl) as [c|] eqn:Hk.
  - destruct (Semantic_DeepEqual _ _); [done|].
    apply recreate_ok; [by apply dropped_ok|apply dropped_lookup].
  - by apply recreate_ok.
Qed.

Lemma sync_eq key st :
  sync key st
  = match SplitMetaNamespaceKey key with
    | inl err => (Some err, st)
    | inr (ns, name) =>
        match Lister (self st) ns name with
        | inl err => if IsNotFound err then (None, dropped key st)
                     else (Some err, st)
        | inr ctrl => syncGenericController ctrl st
        end
    end.
Proof.
  unfold sync, dropped, crd_map.
  destruct (SplitMetaNamespaceKey key) as [err|[ns name]]; [done|]. run.
  destruct (Lister (self st) ns name) as [err|ctrl]; [|done].
  destruct (IsNotFound err); [|done].
  by destruct (WatchControllers (crd_mc (self st)) !! key).
Qed.

Lemma sync_ok key st : crd_ok st -> crd_ok (snd (sync key st)).
Proof.
  intros Hs. rewrite sync_eq.
  destruct (SplitMetaNamespaceKey key) as [err|[ns name]]; [done|].
  destruct (Lister (self st) ns name) as [err|ctrl].
  - destruct (IsNotFound err); [by apply dropped_ok|done].
  - by apply syncGenericController_ok.
Qed.

Lemma processNextWorkItem_eq st :
  processNextWorkItem st
  = match wq_Get (Queue (self st)) with
    | GetBlocks => (None, st)
    | GetQuit => (Some false, st)
    | GetItem key q =>
        match sync key (mkSt (crd_set_Queue q (self st)) (world st)) with
        | (Some e, st2) =>
            (Some true,
             mkSt (crd_set_Queue
                     (wq_Done key (wq_AddRateLimited key (Queue (self st2))))
                     (self st2))
               (emit (EvHandleError
                        (Wrapf e (crd_String +:+ ": Failed to sync key " +:+ key
                                  +:+ ": Will re-queue"))) (world st2)))
        | (None, st2) =>
            (Some true,
             mkSt (crd_set_Queue
                     (wq_Done key (wq_Forget key (Queue (self st2))))
                     (self st2))
               (world st2))
        end
    end.
Proof.
  unfold processNextWorkItem. run.
  destruct (wq_Get (Queue (self st))) as [| |key q]; [done|done|].
  simpl. by destruct (sync key _) as [[e|] st2].
Qed.

Lemma processNextWorkItem_ok st :
  crd_ok st -> crd_ok (snd (processNextWorkItem st)).
Proof.
  intros Hs. rewrite processNextWorkItem_eq.
  destruct (wq_Get (Queue (self st))) as [| |key q]; [done|done|].
  pose proof (sync_ok key (mkSt (crd_set_Queue q (self st)) (world st)) Hs) as Hs2.
  destruct (sync key _) as [[e|] st2]; simpl in *; [|done].
  by apply supervised_other.
Qed.

Lemma enqueue_ok obj st :
  crd_ok st -> crd_ok (snd (enqueueGenericController obj st)).
Proof.
  intros Hs. unfold enqueueGenericController.
  destruct (KeyFunc (ObjMeta obj)); run; [|done].
  by apply supervised_other.
Qed.

Lemma supervised_empty nid : supervised ∅ [] nid.
Proof.
  split; [apply registry_ok_empty|].
  apply at_all_times_nil. eapply registry_ok_one_per_key, (registry_ok_empty 0).
Qed.

Lemma crd_reachable_ok st : crd_reachable st -> crd_ok st.
Proof.
  induction 1 as [rm dc dif lister n w Hw|obj st _ IH|old cur st _ IH
                 |lister st _ IH|item st _ IH|d st _ IH Hd|st _ IH].
  - unfold crd_ok, crd_map; simpl. rewrite Hw. apply supervised_empty.
  - by apply enqueue_ok.
  - by apply enqueue_ok.
  - done.
  - done.
  - done.
  - by apply processNextWorkItem_ok.
Qed.

(** **** The Config-driven supervisor keeps the registry *)

Lemma supervised_others m tr nid evs :
  Forall (fun e => is_lifecycle e = false) evs ->
  supervised m tr nid -> supervised m (tr ++ evs) nid.
Proof.
  intros Hall. revert tr. induction Hall as [|e evs He _ IH]; intros tr Hs.
  - by rewrite app_nil_r.
  - rewrite cons_middle, app_assoc. apply IH. by apply supervised_other.
Qed.

Lemma NewConfigBasedMetaController_fresh rm dc dif n opts w obj w' :
  NewConfigBasedMetaController rm dc dif n opts w = (inr obj, w') ->
  WatchControllers (cfg_mc obj) = ∅ /\
  next_id w' = next_id w /\
  exists evs,
    trace w' = trace w ++ evs /\ Forall (fun e => is_lifecycle e = false) evs.
Proof.
  unfold NewConfigBasedMetaController.
  destruct (run_options opts new_obj) as [err|obj1]; [done|].
  destruct (String.eqb (ConfigPath obj1) "") eqn:Hpath;
    destruct (GenericControllerAsConfigFn obj1) as [f|] eqn:Hf;
    simpl; try done.
  - destruct (f tt) as [err|gctls]; [done|].
    intros [= <- <-]. simpl. split; [done|]. split; [done|].
    eexists. split; [done|]. by repeat constructor.
  - destruct (config_files w (ConfigPath obj1)) as [err|[err|gctls]];
      simpl; try done.
    intros [= <- <-]. simpl. split; [done|]. split; [done|].
    eexists. split; [by rewrite <- app_assoc|]. by repeat constructor.
  - destruct (config_files w (ConfigPath obj1)) as [err|[err|gctls]];
      simpl; try done.
    intros [= <- <-]. simpl. split; [done|]. split; [done|].
    eexists. split; [by rewrite <- app_assoc|]. by repeat constructor.
Qed.

Lemma startAll_loop_ok confs st :
  cfg_ok st -> cfg_ok (snd (startAll_loop confs st)).
Proof.
  revert confs st.
  apply (startAll_loop_cases (fun _ st res => cfg_ok st -> cfg_ok (snd res)));
    simpl.
  - done.
  - intros conf rest st c Hm IH. exact IH.
  - intros conf rest st err Hm Hd Hs. by apply supervised_new_failed.
  - intros conf rest st Hm Hd IH Hs. apply IH.
    unfold cfg_ok, after_start; simpl. by apply supervised_new_start.
Qed.

Lemma startAll_ok st : cfg_ok st -> cfg_ok (snd (startAllWatchControllers st)).
Proof. unfold startAllWatchControllers. run. apply startAll_loop_ok. Qed.

Lemma wait_turn_ok start st :
  cfg_ok st -> cfg_ok (snd (wait_turn startAllWatchControllers start st)).
Proof.
  intros Hs. rewrite wait_turn_eq.
  pose proof (startAll_ok st Hs) as Hs1.
  destruct (startAllWatchControllers st) as [[done err] st1]. simpl in Hs1.
  assert (Hslept : cfg_ok (snd (time_Sleep (WaitIntervalForCondition (self st1)) st1))).
  { run. unfold cfg_ok; simpl. by apply supervised_other. }
  destruct done, err; try done; by destruct (_ >? _).
Qed.

Lemma wait_loop_ok start fuel : forall st,
  cfg_ok st -> cfg_ok (snd (wait_loop fuel startAllWatchControllers start st)).
Proof.
  induction fuel as [|fuel IH]; intros st Hs; [done|].
  cbn [wait_loop]. unfold bind.
  pose proof (wait_turn_ok start st Hs) as Hs1.
  destruct (wait_turn startAllWatchControllers start st) as [[res|] st1];
    simpl in *; [done|]. by apply IH.
Qed.

Lemma cfg_Start_goroutine_ok fuel st :
  cfg_ok st -> cfg_ok (snd (cfg_Start_goroutine fuel st)).
Proof.
  intros Hs. rewrite cfg_Start_goroutine_eq.
  pose proof (wait_loop_ok (now (world st)) fuel st Hs) as Hs1.
  by destruct (wait_loop _ _ _ _) as [[[err|]|] st2].
Qed.

Lemma cfg_reachable_ok st : cfg_reachable st -> cfg_ok st.
Proof.
  induction 1 as [rm dc dif n opts w obj w' Hw Hnew|st _ IH|st _ IH
                 |start st _ IH|fuel st _ IH].
  - destruct (NewConfigBasedMetaController_fresh _ _ _ _ _ _ _ _ Hnew)
      as (Hmap & Hid & evs & Htr & Hev).
    unfold cfg_ok, cfg_map; simpl. rewrite Hmap, Htr, Hw. simpl.
    apply (supervised_others ∅ [] _ evs Hev), supervised_empty.
  - done.
  - by apply startAll_ok.
  - by apply wait_turn_ok.
  - by apply cfg_Start_goroutine_ok.
Qed.

Lemma dropped_trace key c st :
  crd_map st !! key = Some c ->
  trace (world (dropped key st)) = trace (world st) ++ [EvStop (wc_id c)] /\
  crd_map (dropped key st) = delete key (crd_map st) /\
  world (dropped key st) = emit (EvStop (wc_id c)) (world st).
Proof. intros Hk. unfold dropped. by rewrite Hk. Qed.

(** C1: in every state a CRD-driven or a Config-driven supervisor can reach,
    the map and the running controllers agree (every entry is a running
    controller filed under the key of its definition, every running
    controller is the entry under its key) and at every moment of the trace
    at most one watch controller ran per definition key.  When the
    CRD-driven supervisor reconciles a definition whose registered controller
    has another spec, it stops that controller and deletes the entry, then
    constructs the new controller, and only when that succeeded starts it and
    files it under the key.  A pass of the Config-driven supervisor over a
    key that is registered keeps the entry and attempts no construction for
    that key. *)
Theorem at_most_one_controller_per_key :
  (forall st, crd_reachable st ->
     registry_ok (crd_map st) (trace (world st)) (next_id (world st)) /\
     at_all_times one_per_key (trace (world st))) /\
  (forall st, cfg_reachable st ->
     registry_ok (cfg_map st) (trace (world st)) (next_id (world st)) /\
     at_all_times one_per_key (trace (world st))) /\
  (forall ctrl c st,
     crd_map st !! Key ctrl = Some c ->
     Semantic_DeepEqual (Spec ctrl) (Spec (GCtlConfig c)) = false ->
     let res := syncGenericController ctrl st in
     match discovery (world st) (ext_calls (world st)) ctrl with
     | Some err =>
         fst res = Some err /\
         trace (world (snd res))
           = trace (world st)
             ++ [EvStop (wc_id c); EvNewWatchController ctrl None] /\
         crd_map (snd res) = delete (Key ctrl) (crd_map st)
     | None =>
         let id := next_id (world st) in
         fst res = None /\
         trace (world (snd res))
           = trace (world st)
             ++ [EvStop (wc_id c); EvNewWatchController ctrl (Some id);
                 EvStart id (WorkerCount (crd_mc (self st)))] /\
         crd_map (snd res)
           = <[Key ctrl := {| wc_id := id; GCtlConfig := ctrl |}]>
               (delete (Key ctrl) (crd_map st))
     end) /\
  (forall conf c st,
     cfg_map st !! Key conf = Some c ->
     let st' := snd (startAllWatchControllers st) in
     cfg_map st' !! Key conf = Some c /\
     exists delta,
       trace (world st') = trace (world st) ++ delta /\
       forall conf', conf' ∈ attempted delta -> Key conf' <> Key conf).
Proof.
  split; [intros st Hr; by apply crd_reachable_ok|].
  split; [intros st Hr; by apply cfg_reachable_ok|].
  split.
  - intros ctrl c st Hk Hne res. unfold res.
    rewrite syncGenericController_eq, Hk, Hne, syncGenericController_recreate_eq.
    destruct (dropped_trace _ _ _ Hk) as (Htr & Hmap & Hw).
    rewrite Hw. simpl.
    destruct (discovery (world st) (ext_calls (world st)) ctrl) as [err|]; simpl.
    + split; [done|]. split; [by rewrite Htr, <- app_assoc|].
      exact Hmap.
    + unfold dropped, crd_after_start. rewrite Hk. simpl.
      split; [done|]. split; [by rewrite <- !app_assoc|done].
  - intros conf c st Hk st'.
    destruct (startAll_grows st) as (_ & Hsub & delta & Hl & _ & Hatt).
    split; [by eapply lookup_weaken|].
    exists delta. split; [by destruct Hl as (_ & _ & _ & _ & _ & _ & ?)|].
    intros conf' Hin Heq. apply Hatt in Hin. congruence.
Qed.

(** *** Stop *)

Lemma suffix_inv_cons {A} (l1 l2 : list A) y :
  l1 `suffix_of` y :: l2 -> l1 = y :: l2 \/ l1 `suffix_of` l2.
Proof.
  intros [k Hk]. destruct k as [|x k]; simpl in Hk.
  - by left.
  - right. exists k. by inversion Hk.
Qed.

(** Runs through the places of a concrete [Stop] at which [prog] can be. *)
Ltac places Hsuf :=
  repeat (apply suffix_inv_cons in Hsuf as [Hsuf|Hsuf];
          [try discriminate Hsuf; try (inversion Hsuf; subst; clear Hsuf)|]);
  try (apply suffix_nil_inv in Hsuf; try discriminate Hsuf;
       try (inversion Hsuf; subst; clear Hsuf)).

Lemma spawned_fst (l : list (string * watchController)) :
  ((fun kc : string * watchController => (snd kc, ChildSpawned)) <$> l).*1 = l.*2.
Proof. induction l as [|[k c] l IH]; simpl; [done|]. by f_equal. Qed.

Lemma spawned_not_done (l : list (string * watchController)) c :
  (c, ChildDone) ∉ ((fun kc : string * watchController => (snd kc, ChildSpawned)) <$> l).
Proof. intros (kc & Heq & _)%list_elem_of_fmap. discriminate. Qed.

Lemma children_insert_fst (children : list (watchController * child_pc)) i c pc pc' :
  children !! i = Some (c, pc) ->
  (<[i := (c, pc')]> children).*1 = children.*1.
Proof.
  intros Hi. rewrite list_fmap_insert. apply list_insert_id.
  by rewrite list_lookup_fmap, Hi.
Qed.

Lemma children_insert_elem (children : list (watchController * child_pc)) i x y :
  y ∈ <[i := x]> children -> y = x \/ y ∈ children.
Proof.
  intros [j Hj]%list_elem_of_lookup_1.
  apply list_lookup_insert_Some in Hj as [(-> & -> & _)|[_ Hj]]; [by left|].
  right. by eapply list_elem_of_lookup_2.
Qed.

Lemma not_all_done (children : list (watchController * child_pc)) i c pc :
  children !! i = Some (c, pc) -> pc <> ChildDone -> ~ all_done children.
Proof.
  intros Hi Hpc Hall. unfold all_done in Hall.
  rewrite Forall_lookup in Hall. apply Hall in Hi. simpl in Hi. congruence.
Qed.

(** The shared part of [Stop] keeps what holds of the threads. *)
Lemma stop_step_ok P mc w th w' th' :
  P = cfg_Stop \/ P = crd_Stop ->
  threads_ok P mc w th ->
  stop_step mc (w, th) (w', th') ->
  threads_ok P mc w' th'.
Proof.
  intros HP [Hprog Hdone] Hstep.
  inversion Hstep as [w0 rest children Hclosed|w0 rest children
                     |w0 rest children Hall
                     |w0 th0 i c Hi|w0 th0 i c Hi]; subst; simpl in *.
  - destruct Hprog as (Hsuf & H1 & H2 & H3 & H4). split; [|done].
    split; [by eapply suffix_cons_l|].
    split; [done|]. split; [intros Hin; apply H2; by right|].
    destruct HP as [-> | ->]; places Hsuf; split; intros; set_solver.
  - destruct Hprog as (Hsuf & H1 & H2 & H3 & H4).
    rewrite (H2 ltac:(by left)). simpl. split.
    + split; [by eapply suffix_cons_l|].
      destruct HP as [-> | ->]; places Hsuf;
        (split; [intros _; apply H1; set_solver|]);
        (split; [intros Hin; set_solver|]);
        (split; [intros _; apply spawned_fst|done]).
    + intros c Hc. by apply spawned_not_done in Hc.
  - destruct Hprog as (Hsuf & H1 & H2 & H3 & H4). split; [|done].
    split; [by eapply suffix_cons_l|].
    destruct HP as [-> | ->]; places Hsuf;
      (split; [intros _; apply H1; set_solver|]);
      (split; [intros Hin; set_solver|]);
      (split; [intros _; apply H3; set_solver|done]).
  - assert (Hne : th_children th <> []) by (intros Hnil; by rewrite Hnil in Hi).
    split.
    + destruct (th_stop th) as [prog|]; [|done].
      destruct Hprog as (Hsuf & H1 & H2 & H3 & H4).
      split; [done|]. split; [done|].
      split; [intros Hin; by apply H2 in Hin|].
      split.
      * intros Hin. simpl. rewrite (children_insert_fst _ _ _ _ _ Hi). by apply H3.
      * intros Hnil. apply H4 in Hnil. by eapply not_all_done in Hnil.
    + intros c' [Heq|Hin]%children_insert_elem; [discriminate|by apply Hdone].
  - assert (Hne : th_children th <> []) by (intros Hnil; by rewrite Hnil in Hi).
    split.
    + destruct (th_stop th) as [prog|]; [|done].
      destruct Hprog as (Hsuf & H1 & H2 & H3 & H4).
      split; [done|]. split; [done|].
      split; [intros Hin; by apply H2 in Hin|].
      split.
      * intros Hin. simpl. rewrite (children_insert_fst _ _ _ _ _ Hi). by apply H3.
      * intros Hnil. apply H4 in Hnil. by eapply not_all_done in Hnil.
    + intros c' Hc'. simpl in *. rewrite running_snoc. simpl.
      apply children_insert_elem in Hc' as [Heq|Hin].
      * inversion Heq; subst. set_solver.
      * apply Hdone in Hin. set_solver.
Qed.

(** While [doneCh] is not closed, [Stop] has not got past its receive and
    has spawned nothing, so that what holds of the threads does not depend
    on the map or on the world. *)
Lemma threads_ok_alive P mc w th mc' w' :
  P = cfg_Stop \/ P = crd_Stop ->
  threads_ok P mc w th ->
  doneCh mc <> ChanClosed ->
  th_children th = [] /\ threads_ok P mc' w' th.
Proof.
  intros HP [Hprog Hdone] Hopen. unfold threads_ok.
  destruct (th_stop th) as [prog|] eqn:Hstop.
  - destruct Hprog as (Hsuf & H1 & H2 & H3 & H4).
    assert (Hin : AwaitDone ∈ prog).
    { destruct (decide (AwaitDone ∈ prog)) as [|Hn]; [done|]. by apply H1 in Hn. }
    assert (Hspawn : SpawnStops ∈ prog).
    { destruct HP as [-> | ->]; places Hsuf; set_solver. }
    assert (Hnil : th_children th = []) by (by apply H2).
    split; [done|]. rewrite Hnil. split.
    + split; [done|]. split; [intros Hn; by destruct Hn|].
      split; [done|]. split; [intros Hn; by destruct Hn|].
      intros ->. by apply elem_of_nil in Hin.
    + intros c Hc. by apply elem_of_nil in Hc.
  - rewrite Hprog. split; [done|]. split; [done|].
    intros c Hc. by apply elem_of_nil in Hc.
Qed.

(** Nor does it depend on what does not touch the map, the channel or the
    running controllers. *)
Lemma threads_ok_same P mc w th mc' w' :
  WatchControllers mc' = WatchControllers mc ->
  doneCh mc' = doneCh mc ->
  running (trace w') = running (trace w) ->
  threads_ok P mc w th -> threads_ok P mc' w' th.
Proof. unfold threads_ok. intros -> -> ->. exact id. Qed.

Lemma threads_ok_Stop P mc w th :
  P = cfg_Stop \/ P = crd_Stop ->
  threads_ok P mc w th -> th_stop th = None ->
  threads_ok P mc w {| th_stop := Some P; th_children := th_children th |}.
Proof.
  intros HP [Hprog Hdone] Hnone. rewrite Hnone in Hprog.
  split; [|done]. simpl. rewrite Hprog.
  split; [done|].
  destruct HP as [-> | ->]; (split; [intros Hn; set_solver|]);
    (split; [done|]); (split; [intros Hn; set_solver|done]).
Qed.

Lemma stop_step_needs_threads mc w th w' th' :
  stop_step mc (w, th) (w', th') ->
  th_stop th = None -> th_children th = [] -> False.
Proof.
  intros Hstep Hnone Hnil.
  inversion Hstep as [w0 rest children Hclosed|w0 rest children
                     |w0 rest children Hall
                     |w0 th0 i c Hi|w0 th0 i c Hi]; subst; simpl in *;
    try discriminate; by rewrite Hnil in Hi.
Qed.

Lemma stop_step_keeps_Stop_called mc w th w' th' :
  stop_step mc (w, th) (w', th') ->
  th_stop th = None -> th_stop th' = None.
Proof.
  intros Hstep Hnone.
  inversion Hstep as [w0 rest children Hclosed|w0 rest children
                     |w0 rest children Hall
                     |w0 th0 i c Hi|w0 th0 i c Hi]; subst; simpl in *;
    try discriminate; done.
Qed.

Lemma stop_step_prog mc w th w' th' :
  stop_step mc (w, th) (w', th') ->
  th_stop th' = th_stop th \/
  exists i rest,
    th_stop th = Some (i :: rest) /\ th_stop th' = Some rest /\
    i <> CloseStopCh /\ i <> QueueShutDown.
Proof.
  intros Hstep.
  inversion Hstep as [w0 rest children Hclosed|w0 rest children
                     |w0 rest children Hall
                     |w0 th0 i c Hi|w0 th0 i c Hi]; subst; simpl;
    try (by left); right; do 2 eexists; done.
Qed.

(** **** The Config-driven supervisor *)

Lemma wait_turn_doneCh start st :
  doneCh (cfg_mc (self (snd (wait_turn startAllWatchControllers start st))))
  = doneCh (cfg_mc (self st)).
Proof.
  destruct (wait_turn_grows startAllWatchControllers start st startAll_grows)
    as (Hself & _). by rewrite Hself.
Qed.

Lemma cfg_sys_step_ok s s' : cfg_sys_ok s -> cfg_sys_step s s' -> cfg_sys_ok s'.
Proof.
  intros (Hd & Hidle & Hth) Hstep.
  inversion Hstep as [s0 Hloop|s0 start Hloop|s0 Halive Hloop Hnone
                     |s0 w' th' Halive Hst]; subst; clear Hstep.
  - split; [simpl; split; discriminate|]. split; [simpl; discriminate|].
    simpl. eapply threads_ok_alive; [by left|exact Hth|].
    intros Hc. apply (proj1 Hd) in Hc. rewrite Hloop in Hc. discriminate.
  - assert (Hopen : doneCh (cfg_mc (self (cs_st s))) <> ChanClosed).
    { intros Hc. apply (proj1 Hd) in Hc. rewrite Hloop in Hc. discriminate. }
    pose proof (wait_turn_doneCh start (cs_st s)) as Hsame.
    destruct (wait_turn startAllWatchControllers start (cs_st s))
      as [[[err|]|] st'] eqn:Hturn; unfold cfg_sys_ok; simpl in *.
    + split; [split; [intros Hc; congruence|discriminate]|].
      split; [discriminate|].
      eapply threads_ok_alive; [by left|exact Hth|done].
    + split; [done|]. split; [discriminate|].
      eapply threads_ok_alive; [by left|exact Hth|done].
    + split; [split; [intros Hc; congruence|discriminate]|].
      split; [discriminate|].
      eapply threads_ok_alive; [by left|exact Hth|done].
  - split; [done|]. split; [done|]. simpl.
    apply threads_ok_Stop; [by left|done|done].
  - split; [done|]. split.
    + simpl. intros Hl. by eapply stop_step_keeps_Stop_called; eauto.
    + simpl. eapply stop_step_ok; [by left|exact Hth|exact Hst].
Qed.

Lemma cfg_sys_reachable_ok s : cfg_sys_reachable s -> cfg_sys_ok s.
Proof.
  induction 1 as [rm dc dif n opts w obj w' Hw Hnew|s s' _ IH Hstep].
  - assert (Hch : doneCh (cfg_mc obj) = ChanNil).
    { unfold NewConfigBasedMetaController in Hnew.
      destruct (run_options opts new_obj) as [err|obj1]; [done|].
      destruct (String.eqb (ConfigPath obj1) ""),
        (GenericControllerAsConfigFn obj1) as [f|]; simpl in Hnew; try done;
        repeat match type of Hnew with
               | context [config_files ?w ?p] => destruct (config_files w p)
               | context [match ?x with inl _ => _ | inr _ => _ end] => destruct x
               end; simpl in Hnew; try done; by inversion Hnew. }
    split; [simpl; rewrite Hch; split; discriminate|].
    split; [done|]. split; [done|].
    intros c Hc. by apply elem_of_nil in Hc.
  - by eapply cfg_sys_step_ok.
Qed.

(** **** The CRD-driven supervisor *)

Lemma crd_with_map_id c : crd_with_map (WatchControllers (crd_mc c)) c = c.
Proof. by destruct c as [[] ? ? ? ?]. Qed.

(** A reconcile changes nothing of the receiver but the map. *)
Lemma sync_only_map key st :
  self (snd (sync key st)) = crd_with_map (crd_map (snd (sync key st))) (self st).
Proof.
  assert (Hid : self st = crd_with_map (crd_map st) (self st))
    by (symmetry; apply crd_with_map_id).
  assert (Hdrop : forall k,
            self (dropped k st) = crd_with_map (crd_map (dropped k st)) (self st)).
  { intros k. unfold dropped. by destruct (crd_map st !! k). }
  assert (Hre : forall ctrl s,
            self s = crd_with_map (crd_map s) (self st) ->
            self (snd (syncGenericController_recreate ctrl s))
            = crd_with_map (crd_map (snd (syncGenericController_recreate ctrl s)))
                (self st)).
  { intros ctrl s Hs. rewrite syncGenericController_recreate_eq.
    destruct (discovery _ _ _); simpl; [done|]. by rewrite Hs. }
  rewrite sync_eq.
  destruct (SplitMetaNamespaceKey key) as [err|[ns name]]; [done|].
  destruct (Lister (self st) ns name) as [err|ctrl].
  - destruct (IsNotFound err); [apply Hdrop|done].
  - rewrite syncGenericController_eq.
    destruct (crd_map st !! Key ctrl) as [c|]; [|by apply Hre].
    destruct (Semantic_DeepEqual _ _); [done|]. apply Hre, Hdrop.
Qed.

Lemma wq_Get_item q key q1 :
  wq_Get q = GetItem key q1 ->
  wq_shuttingDown q1 = wq_shuttingDown q /\
  wq_queue q = key :: wq_queue q1 /\
  key ∉ wq_dirty q1.
Proof.
  unfold wq_Get. destruct (wq_queue q) as [|item rest]; [by destruct (wq_shuttingDown q)|].
  intros [= <- <-]. simpl. split; [done|]. split; [done|]. set_solver.
Qed.

(** A turn of the worker leaves the channels and the shutdown mark alone;
    when it worked on an item, the queue is one shorter. *)
Lemma processNextWorkItem_frame st :
  let st' := snd (processNextWorkItem st) in
  doneCh (crd_mc (self st')) = doneCh (crd_mc (self st)) /\
  stopCh (self st') = stopCh (self st) /\
  wq_shuttingDown (Queue (self st')) = wq_shuttingDown (Queue (self st)) /\
  (fst (processNextWorkItem st) = Some true ->
   S (length (wq_queue (Queue (self st')))) = length (wq_queue (Queue (self st)))).
Proof.
  simpl. rewrite processNextWorkItem_eq.
  destruct (wq_Get (Queue (self st))) as [| |key q] eqn:Hget; simpl; try done.
  destruct (wq_Get_item _ _ _ Hget) as (Hsd & Hq & Hdirty).
  pose proof (sync_only_map key (mkSt (crd_set_Queue q (self st)) (world st)))
    as Hself.
  destruct (sync key _) as [[e|] st2]; simpl in *; rewrite Hself; simpl;
    rewrite Hq; simpl; by rewrite decide_False.
Qed.

Lemma processNextWorkItem_quit st st' :
  processNextWorkItem st = (Some false, st') ->
  st' = st /\ wq_queue (Queue (self st)) = [] /\
  wq_shuttingDown (Queue (self st)) = true.
Proof.
  rewrite processNextWorkItem_eq. unfold wq_Get.
  destruct (wq_queue (Queue (self st))) as [|item rest].
  - destruct (wq_shuttingDown (Queue (self st))); [|done]. by intros [= <-].
  - by destruct (sync item _) as [[e|] st2].
Qed.

(** With the queue shutting down the worker never blocks. *)
Lemma processNextWorkItem_shutting_down st :
  wq_shuttingDown (Queue (self st)) = true ->
  fst (processNextWorkItem st) <> None.
Proof.
  intros Hsd. rewrite processNextWorkItem_eq. unfold wq_Get. rewrite Hsd.
  destruct (wq_queue (Queue (self st))) as [|item rest]; [done|].
  by destruct (sync item _) as [[e|] st2].
Qed.

Lemma wq_Add_shutting_down item q :
  wq_shuttingDown (wq_Add item q) = wq_shuttingDown q /\
  (wq_shuttingDown q = true -> wq_Add item q = q).
Proof.
  unfold wq_Add. destruct (wq_shuttingDown q) eqn:Hsd; [done|].
  by destruct (decide (item ∈ wq_dirty q)).
Qed.

(** The surroundings leave the map, the channels, the shutdown mark and the
    running controllers alone, and add nothing to a queue that is shutting
    down. *)
Lemma crd_env_frame st st' :
  crd_env st st' ->
  crd_map st' = crd_map st /\
  doneCh (crd_mc (self st')) = doneCh (crd_mc (self st)) /\
  stopCh (self st') = stopCh (self st) /\
  wq_shuttingDown (Queue (self st')) = wq_shuttingDown (Queue (self st)) /\
  running (trace (world st')) = running (trace (world st)) /\
  (wq_shuttingDown (Queue (self st)) = true -> Queue (self st') = Queue (self st)).
Proof.
  assert (Henq : forall obj,
    let s1 := snd (enqueueGenericController obj st) in
    crd_map s1 = crd_map st /\
    doneCh (crd_mc (self s1)) = doneCh (crd_mc (self st)) /\
    stopCh (self s1) = stopCh (self st) /\
    wq_shuttingDown (Queue (self s1)) = wq_shuttingDown (Queue (self st)) /\
    running (trace (world s1)) = running (trace (world st)) /\
    (wq_shuttingDown (Queue (self st)) = true -> Queue (self s1) = Queue (self st))).
  { intros obj. simpl. unfold enqueueGenericController.
    destruct (KeyFunc (ObjMeta obj)) as [err|key]; run.
    - by rewrite running_snoc.
    - destruct (wq_Add_shutting_down key (Queue (self st))) as [-> Hq]. done. }
  destruct 1 as [obj st|old cur st|lister st|st|item st|d st Hd]; simpl;
    try done; try apply Henq.
  destruct (wq_Add_shutting_down item (Queue (self st))) as [-> Hq]. done.
Qed.

Lemma crd_sys_step_ok s s' : crd_sys_ok s -> crd_sys_step s s' -> crd_sys_ok s'.
Proof.
  intros (Hd & Hidle & Hth & Hsig) Hstep.
  assert (Hopen : rs_loop s <> CrdExited ->
                  doneCh (crd_mc (self (rs_st s))) <> ChanClosed).
  { intros Hl Hc. by apply (proj1 Hd) in Hc. }
  inversion Hstep as [s0 Hloop|s0 Hloop Hstop|s0 Hloop Hsynced
                     |s0 st' Hloop Hitem|s0 st' Hloop Hquit|s0 st' Henv
                     |s0 Hloop Hnone|s0 rest Hprog|s0 rest Hprog
                     |s0 w' th' Hst]; subst; clear Hstep;
    unfold crd_sys_ok; simpl.
  - split; [split; discriminate|]. split; [discriminate|].
    split.
    { eapply threads_ok_alive; [by right|exact Hth|].
      apply Hopen. rewrite Hloop. discriminate. }
    intros prog Hp. rewrite (Hidle Hloop) in Hp. discriminate.
  - split; [done|]. split; [discriminate|].
    split.
    { eapply threads_ok_alive; [by right|exact Hth|].
      apply Hopen. rewrite Hloop. discriminate. }
    exact Hsig.
  - split.
    { split; [intros Hc; apply (proj1 Hd) in Hc; rewrite Hloop in Hc; discriminate
             |discriminate]. }
    split; [discriminate|]. split; [exact Hth|exact Hsig].
  - destruct (processNextWorkItem_frame (rs_st s)) as (F1 & F2 & F3 & _).
    rewrite Hitem in F1, F2, F3. simpl in F1, F2, F3.
    assert (Hopen' : doneCh (crd_mc (self (rs_st s))) <> ChanClosed).
    { apply Hopen. rewrite Hloop. discriminate. }
    split; [split; [intros Hc; congruence|discriminate]|].
    split; [discriminate|].
    split; [eapply threads_ok_alive; [by right|exact Hth|done]|].
    intros prog Hp. rewrite F2, F3. by apply Hsig.
  - apply processNextWorkItem_quit in Hquit as (-> & _ & _).
    split; [done|]. split; [discriminate|].
    split.
    { eapply threads_ok_alive; [by right|exact Hth|].
      apply Hopen. rewrite Hloop. discriminate. }
    exact Hsig.
  - destruct (crd_env_frame _ _ Henv) as (E1 & E2 & E3 & E4 & E5 & _).
    split; [by rewrite E2|]. split; [done|].
    split; [eapply threads_ok_same; [exact E1|exact E2|exact E5|exact Hth]|].
    intros prog Hp. rewrite E3, E4. by apply Hsig.
  - split; [done|]. split; [done|].
    split; [apply threads_ok_Stop; [by right|done|done]|].
    intros prog [= <-]. split; intros Hn; set_solver.
  - destruct (Hsig _ Hprog) as [S1 S2].
    destruct Hth as [Hp Hdone]. rewrite Hprog in Hp.
    destruct Hp as (Hsuf & H1 & H2 & H3 & H4).
    split; [done|]. split; [intros Hl; apply Hidle in Hl; congruence|].
    split.
    { split; [|done]. simpl. places Hsuf.
      split; [by eexists [_]|]. split; [intros Hn; set_solver|].
      split; [intros _; apply H2; set_solver|].
      split; [intros Hn; set_solver|done]. }
    intros prog [= <-]. split; [done|].
    intros Hn. apply S2. places Hsuf. set_solver.
  - destruct (Hsig _ Hprog) as [S1 S2].
    destruct Hth as [Hp Hdone]. rewrite Hprog in Hp.
    destruct Hp as (Hsuf & H1 & H2 & H3 & H4).
    split; [done|]. split; [intros Hl; apply Hidle in Hl; congruence|].
    split.
    { split; [|done]. simpl. places Hsuf.
      split; [by eexists [_; _]|]. split; [intros Hn; set_solver|].
      split; [intros _; apply H2; set_solver|].
      split; [intros Hn; set_solver|done]. }
    intros prog [= <-]. split; [|done].
    intros Hn. apply S1. places Hsuf. set_solver.
  - split; [done|]. split.
    { intros Hl. by eapply stop_step_keeps_Stop_called; eauto. }
    split; [eapply stop_step_ok; [by right|exact Hth|exact Hst]|].
    intros prog Hp.
    destruct (stop_step_prog _ _ _ _ _ Hst) as [Heq|(i & rest & Hi & Hr & N1 & N2)].
    + rewrite Heq in Hp. by apply Hsig.
    + rewrite Hr in Hp. inversion Hp; subst.
      destruct (Hsig _ Hi) as [S1 S2].
      split; intros Hn; [apply S1|apply S2];
        (intros [Hx|Hx]%elem_of_cons; [congruence|done]).
Qed.

Lemma crd_sys_reachable_ok s : crd_sys_reachable s -> crd_sys_ok s.
Proof.
  induction 1 as [rm dc dif lister n w Hw|s s' _ IH Hstep].
  - split; [simpl; split; discriminate|].
    split; [done|]. split; [|intros prog Hp; discriminate].
    split; [done|]. intros c Hc. by apply elem_of_nil in Hc.
  - by eapply crd_sys_step_ok.
Qed.

(** **** Nothing runs once Stop has returned *)

(** The shared part of [Stop] moves only when [doneCh] is closed. *)
Lemma stop_step_needs_exit P mc w th w' th' :
  P = cfg_Stop \/ P = crd_Stop ->
  threads_ok P mc w th ->
  stop_step mc (w, th) (w', th') ->
  doneCh mc = ChanClosed.
Proof.
  intros HP Hth Hstep.
  destruct (decide (doneCh mc = ChanClosed)) as [|Hopen]; [done|exfalso].
  destruct (threads_ok_alive P mc w th mc w HP Hth Hopen) as [Hnil _].
  destruct Hth as [Hprog _].
  inversion Hstep as [w0 rest children Hclosed|w0 rest children
                     |w0 rest children Hall
                     |w0 th0 i c Hi|w0 th0 i c Hi]; subst; simpl in *.
  - done.
  - destruct Hprog as (Hsuf & H1 & _).
    apply Hopen, H1. destruct HP as [-> | ->]; places Hsuf; set_solver.
  - destruct Hprog as (Hsuf & H1 & _).
    apply Hopen, H1. destruct HP as [-> | ->]; places Hsuf; set_solver.
  - by rewrite Hnil in Hi.
  - by rewrite Hnil in Hi.
Qed.

Lemma stop_step_world mc w th w' th' :
  stop_step mc (w, th) (w', th') ->
  w' = w \/ exists id, w' = emit (EvStop id) w.
Proof.
  intros Hstep.
  inversion Hstep as [w0 rest children Hclosed|w0 rest children
                     |w0 rest children Hall
                     |w0 th0 i c Hi|w0 th0 i c Hi]; subst; eauto.
Qed.

Lemma filed_stop m tr id : filed m tr -> filed m (tr ++ [EvStop id]).
Proof.
  intros Hf c [Hb Hr]. apply Hf. split.
  - rewrite built_app in Hb. simpl in Hb. by rewrite app_nil_r in Hb.
  - rewrite running_snoc in Hr. simpl in Hr. set_solver.
Qed.

Lemma stop_step_filed mc w th w' th' m :
  stop_step mc (w, th) (w', th') -> filed m (trace w) -> filed m (trace w').
Proof.
  intros Hstep Hf.
  destruct (stop_step_world _ _ _ _ _ Hstep) as [->|[id ->]]; [done|].
  simpl. by apply filed_stop.
Qed.

Lemma supervised_filed m tr nid : supervised m tr nid -> filed m tr.
Proof. by intros [(_ & Hb & _) _]. Qed.

Lemma cfg_sys_step_filed s s' :
  cfg_sys_ok s -> cfg_sys_filed s -> cfg_sys_step s s' -> cfg_sys_filed s'.
Proof.
  intros (Hd & Hidle & Hth) [Hok Hf] Hstep.
  inversion Hstep as [s0 Hloop|s0 start Hloop|s0 Halive Hloop Hnone
                     |s0 w' th' Halive Hst]; subst; clear Hstep;
    unfold cfg_sys_filed; simpl.
  - split; [|done]. intros _. apply Hok. rewrite Hloop. discriminate.
  - assert (Hok0 : cfg_ok (cs_st s)) by (apply Hok; rewrite Hloop; discriminate).
    pose proof (wait_turn_ok start (cs_st s) Hok0) as Hok1.
    destruct (wait_turn startAllWatchControllers start (cs_st s))
      as [[[err|]|] st']; simpl in *;
      (split; [try done|by eapply supervised_filed]).
  - done.
  - pose proof (stop_step_needs_exit _ _ _ _ _ _ (or_introl eq_refl) Hth Hst) as Hc.
    apply (proj1 Hd) in Hc. split; [by intros Hn|].
    by eapply stop_step_filed.
Qed.

Lemma cfg_sys_reachable_filed s : cfg_sys_reachable s -> cfg_sys_filed s.
Proof.
  induction 1 as [rm dc dif n opts w obj w' Hw Hnew|s s' Hr IH Hstep].
  - assert (Hok : cfg_ok (mkSt obj w'))
      by (eapply cfg_reachable_ok, cfg_new; eauto).
    split; [done|]. by eapply supervised_filed.
  - eapply cfg_sys_step_filed; [by apply cfg_sys_reachable_ok|done|done].
Qed.

Lemma crd_env_ok st st' : crd_env st st' -> crd_ok st -> crd_ok st'.
Proof.
  destruct 1 as [obj st|old cur st|lister st|st|item st|d st Hd]; try done;
    apply enqueue_ok.
Qed.

Lemma crd_sys_step_filed s s' :
  crd_sys_ok s -> crd_sys_filed s -> crd_sys_step s s' -> crd_sys_filed s'.
Proof.
  intros (Hd & Hidle & Hth & Hsig) [Hok Hf] Hstep.
  inversion Hstep as [s0 Hloop|s0 Hloop Hstop|s0 Hloop Hsynced
                     |s0 st' Hloop Hitem|s0 st' Hloop Hquit|s0 st' Henv
                     |s0 Hloop Hnone|s0 rest Hprog|s0 rest Hprog
                     |s0 w' th' Hst]; subst; clear Hstep;
    unfold crd_sys_filed; simpl.
  - split; [|done]. intros _. apply Hok. rewrite Hloop. discriminate.
  - done.
  - split; [|done]. intros _. apply Hok. rewrite Hloop. discriminate.
  - assert (Hok0 : crd_ok (rs_st s)) by (apply Hok; rewrite Hloop; discriminate).
    pose proof (processNextWorkItem_ok (rs_st s) Hok0) as Hok1.
    rewrite Hitem in Hok1. simpl in Hok1.
    split; [done|by eapply supervised_filed].
  - apply processNextWorkItem_quit in Hquit as (-> & _ & _). done.
  - split.
    + intros Hl. eapply crd_env_ok; [exact Henv|by apply Hok].
    + destruct (crd_env_frame _ _ Henv) as (E1 & _ & _ & _ & E5 & _).
      assert (Hb : built (trace (world st')) = built (trace (world (rs_st s)))).
      { clear -Henv. destruct Henv as [obj st|old cur st|lister st|st|item st|d st Hd];
          try done; unfold updateGenericController, enqueueGenericController;
          destruct (KeyFunc _); run; try done;
          rewrite built_app; simpl; by rewrite app_nil_r. }
      intros c [Hbc Hrc]. rewrite E1. apply Hf. split; congruence.
  - done.
  - done.
  - done.
  - pose proof (stop_step_needs_exit _ _ _ _ _ _ (or_intror eq_refl) Hth Hst) as Hc.
    apply (proj1 Hd) in Hc. split; [by intros Hn|].
    by eapply stop_step_filed.
Qed.

Lemma crd_sys_reachable_filed s : crd_sys_reachable s -> crd_sys_filed s.
Proof.
  induction 1 as [rm dc dif lister n w Hw|s s' Hr IH Hstep].
  - assert (Hok : crd_ok (mkSt (NewCRDBasedMetaController rm dc dif lister n) w))
      by (by eapply crd_reachable_ok, crd_new).
    split; [done|]. by eapply supervised_filed.
  - eapply crd_sys_step_filed; [by apply crd_sys_reachable_ok|done|done].
Qed.

(** Once [Stop] has returned, every spawned goroutine is done and no watch
    controller runs. *)
Lemma returned_nothing_runs P mc w th :
  threads_ok P mc w th -> filed (WatchControllers mc) (trace w) ->
  returned th ->
  all_done (th_children th) /\ nothing_runs (trace w).
Proof.
  intros [Hprog Hdone] Hf Hret. rewrite Hret in Hprog.
  destruct Hprog as (_ & _ & _ & H3 & H4).
  assert (Hall : all_done (th_children th)) by (by apply H4).
  split; [done|]. intros c Hrun.
  pose proof (Hf _ Hrun) as Hm. apply elem_of_map_to_list in Hm.
  assert (Hin : c ∈ (th_children th).*1).
  { rewrite H3; [|by intros Hn%elem_of_nil].
    apply list_elem_of_fmap. by exists (Key (GCtlConfig c), c). }
  apply list_elem_of_fmap in Hin as ([c' pc] & Heq & Hin). simpl in Heq. subst c'.
  assert (pc = ChildDone) as ->.
  { unfold all_done in Hall. rewrite Forall_forall in Hall.
    by apply Hall in Hin. }
  apply Hdone in Hin. by destruct Hrun.
Qed.

(** Where [Stop] is, read off what holds of the threads. *)
Lemma threads_ok_past P mc w th :
  P = cfg_Stop \/ P = crd_Stop ->
  threads_ok P mc w th ->
  (past AwaitDone th ->
   doneCh mc = ChanClosed /\
   (P = crd_Stop -> past CloseStopCh th /\ past QueueShutDown th)) /\
  (th_children th <> [] -> past SpawnStops th /\ past AwaitDone th).
Proof.
  intros HP [Hprog _]. split.
  - intros (prog & Hp & Hn). rewrite Hp in Hprog.
    destruct Hprog as (Hsuf & H1 & _). split; [by apply H1|].
    intros ->. split; exists prog; (split; [done|]);
      places Hsuf; set_solver.
  - intros Hne. destruct (th_stop th) as [prog|] eqn:Hp; [|done].
    destruct Hprog as (Hsuf & _ & H2 & _).
    assert (Hs : SpawnStops ∉ prog) by (intros Hin; by apply H2 in Hin).
    split; exists prog; (split; [done|]); [done|].
    destruct HP as [-> | ->]; places Hsuf; set_solver.
Qed.

Lemma cfg_exited_frozen s s' :
  cs_loop s = CfgExited -> cfg_sys_step s s' ->
  cfg_map (cs_st s') = cfg_map (cs_st s) /\ cs_loop s' = CfgExited.
Proof.
  intros Hl Hstep.
  inversion Hstep as [s0 Hloop|s0 start Hloop|s0 Halive Hloop Hnone
                     |s0 w' th' Halive Hst]; subst; clear Hstep;
    simpl; try done; rewrite Hl in Hloop; discriminate.
Qed.

Lemma crd_exited_frozen s s' :
  rs_loop s = CrdExited -> crd_sys_step s s' ->
  crd_map (rs_st s') = crd_map (rs_st s) /\ rs_loop s' = CrdExited.
Proof.
  intros Hl Hstep.
  inversion Hstep as [s0 Hloop|s0 Hloop Hstop|s0 Hloop Hsynced
                     |s0 st' Hloop Hitem|s0 st' Hloop Hquit|s0 st' Henv
                     |s0 Hloop Hnone|s0 rest Hprog|s0 rest Hprog
                     |s0 w' th' Hst]; subst; clear Hstep;
    simpl; try done; try (rewrite Hl in Hloop; discriminate).
  by destruct (crd_env_frame _ _ Henv) as (E1 & _).
Qed.

(** While the wait loop of the Config-driven supervisor runs, the only step
    that touches the supervisor is the loop's own turn; all [Stop] can do is
    be called. *)
Lemma cfg_waiting_steps s s' start :
  cfg_sys_ok s -> cs_loop s = CfgWaiting start -> cfg_sys_step s s' ->
  s' = cfg_after_turn start (cs_th s)
         (wait_turn startAllWatchControllers start (cs_st s)) \/
  (cs_st s' = cs_st s /\ cs_loop s' = cs_loop s /\
   th_stop (cs_th s) = None /\ th_stop (cs_th s') = Some cfg_Stop).
Proof.
  intros (Hd & Hidle & Hth) Hl Hstep.
  inversion Hstep as [s0 Hloop|s0 start' Hloop|s0 Halive Hloop Hnone
                     |s0 w' th' Halive Hst]; subst; clear Hstep.
  - rewrite Hl in Hloop. discriminate.
  - left. rewrite Hl in Hloop. by inversion Hloop.
  - by right.
  - pose proof (stop_step_needs_exit _ _ _ _ _ _ (or_introl eq_refl) Hth Hst) as Hc.
    apply (proj1 Hd) in Hc. rewrite Hl in Hc. discriminate.
Qed.

(** With the stop channel closed and the queue shutting down, the goroutine
    of the CRD-driven supervisor can always move, and moves towards its
    exit. *)
Lemma crd_signalled_moves s :
  (rs_loop s = CrdCacheSync -> stopCh (self (rs_st s)) = ChanClosed ->
   crd_sys_step s
     {| rs_st := crd_close_doneCh (rs_st s); rs_loop := CrdExited;
        rs_th := rs_th s |}) /\
  (rs_loop s = CrdWorking -> wq_shuttingDown (Queue (self (rs_st s))) = true ->
   exists s',
     crd_sys_step s s' /\
     (rs_loop s' = CrdExited \/
      rs_loop s' = CrdWorking /\
      wq_shuttingDown (Queue (self (rs_st s'))) = true /\
      S (length (wq_queue (Queue (self (rs_st s')))))
        = length (wq_queue (Queue (self (rs_st s)))))).
Proof.
  split; [intros; by apply crd_sys_sync_stopped|].
  intros Hl Hsd.
  pose proof (processNextWorkItem_shutting_down (rs_st s) Hsd) as Hnb.
  destruct (processNextWorkItem_frame (rs_st s)) as (_ & _ & F3 & F4).
  destruct (processNextWorkItem (rs_st s)) as [[[|]|] st'] eqn:Hp; simpl in *.
  - eexists. split; [by eapply crd_sys_item|]. right. simpl.
    split; [done|]. split; [congruence|by apply F4].
  - eexists. split; [by eapply crd_sys_quit|]. by left.
  - done.
Qed.

(** C4 (as the code has it): in every state the two systems can reach.
    CRD-driven: past its first two statements [Stop] has closed the stop
    channel and shut the queue down, and with that the goroutine of [Start]
    can always move and ends (at once while it waits for the cache, after
    the queued keys otherwise, to which nothing is added any more).
    Config-driven: [Stop] has no such statement; while the wait loop runs, the
    only step that touches the supervisor is the loop's own turn.  Both: when
    [Stop] is past its receive on [doneCh], the channel is closed and the
    goroutine of [Start] has returned; from then on the map does not change;
    goroutines that stop watch controllers exist only then, any of them can
    enter its [ctl.Stop()] whatever the others do; and when [Stop] has
    returned all of them are done and no watch controller runs. *)
Theorem Stop_joins_after_the_loop_has_ended :
  (forall s, crd_sys_reachable s ->
     (past CloseStopCh (rs_th s) -> stopCh (self (rs_st s)) = ChanClosed) /\
     (past QueueShutDown (rs_th s) ->
      wq_shuttingDown (Queue (self (rs_st s))) = true) /\
     (past AwaitDone (rs_th s) ->
      past CloseStopCh (rs_th s) /\ past QueueShutDown (rs_th s) /\
      doneCh (crd_mc (self (rs_st s))) = ChanClosed /\ rs_loop s = CrdExited) /\
     (th_children (rs_th s) <> [] ->
      past SpawnStops (rs_th s) /\ past AwaitDone (rs_th s)) /\
     (returned (rs_th s) ->
      all_done (th_children (rs_th s)) /\
      nothing_runs (trace (world (rs_st s))))) /\
  (forall s,
     (rs_loop s = CrdCacheSync -> stopCh (self (rs_st s)) = ChanClosed ->
      crd_sys_step s
        {| rs_st := crd_close_doneCh (rs_st s); rs_loop := CrdExited;
           rs_th := rs_th s |}) /\
     (rs_loop s = CrdWorking -> wq_shuttingDown (Queue (self (rs_st s))) = true ->
      exists s',
        crd_sys_step s s' /\
        (rs_loop s' = CrdExited \/
         rs_loop s' = CrdWorking /\
         wq_shuttingDown (Queue (self (rs_st s'))) = true /\
         S (length (wq_queue (Queue (self (rs_st s')))))
           = length (wq_queue (Queue (self (rs_st s)))))) /\
     (forall st', crd_env (rs_st s) st' ->
        wq_shuttingDown (Queue (self (rs_st s))) = true ->
        Queue (self st') = Queue (self (rs_st s)))) /\
  (forall s, cfg_sys_reachable s ->
     (past AwaitDone (cs_th s) ->
      doneCh (cfg_mc (self (cs_st s))) = ChanClosed /\ cs_loop s = CfgExited) /\
     (th_children (cs_th s) <> [] ->
      past SpawnStops (cs_th s) /\ past AwaitDone (cs_th s)) /\
     (returned (cs_th s) ->
      all_done (th_children (cs_th s)) /\
      nothing_runs (trace (world (cs_st s)))) /\
     (forall s' start,
        cs_loop s = CfgWaiting start -> cfg_sys_step s s' ->
        s' = cfg_after_turn start (cs_th s)
               (wait_turn startAllWatchControllers start (cs_st s)) \/
        (cs_st s' = cs_st s /\ cs_loop s' = cs_loop s /\
         th_stop (cs_th s) = None /\ th_stop (cs_th s') = Some cfg_Stop))) /\
  (forall s s', rs_loop s = CrdExited -> crd_sys_step s s' ->
     crd_map (rs_st s') = crd_map (rs_st s) /\ rs_loop s' = CrdExited) /\
  (forall s s', cs_loop s = CfgExited -> cfg_sys_step s s' ->
     cfg_map (cs_st s') = cfg_map (cs_st s) /\ cs_loop s' = CfgExited) /\
  (forall mc w th i c,
     th_children th !! i = Some (c, ChildSpawned) ->
     stop_step mc (w, th)
       (w, {| th_stop := th_stop th;
              th_children := <[i := (c, ChildStopping)]> (th_children th) |})).
Proof.
  split.
  { intros s Hr.
    destruct (crd_sys_reachable_ok s Hr) as (Hd & Hidle & Hth & Hsig).
    destruct (crd_sys_reachable_filed s Hr) as [_ Hf].
    destruct (threads_ok_past _ _ _ _ (or_intror eq_refl) Hth) as [Hp1 Hp2].
    split; [intros (prog & Hp & Hn); by apply (Hsig _ Hp)|].
    split; [intros (prog & Hp & Hn); by apply (Hsig _ Hp)|].
    split.
    { intros Hpast. destruct (Hp1 Hpast) as [Hc Hs].
      destruct (Hs eq_refl) as [? ?]. split; [done|]. split; [done|].
      split; [done|by apply (proj1 Hd)]. }
    split; [done|].
    intros Hret. eapply returned_nothing_runs; eauto. }
  split.
  { intros s. destruct (crd_signalled_moves s) as [M1 M2].
    split; [done|]. split; [done|].
    intros st' Henv. by destruct (crd_env_frame _ _ Henv) as (_ & _ & _ & _ & _ & ?). }
  split.
  { intros s Hr.
    pose proof (cfg_sys_reachable_ok s Hr) as Hok.
    destruct Hok as (Hd & Hidle & Hth).
    destruct (cfg_sys_reachable_filed s Hr) as [_ Hf].
    destruct (threads_ok_past _ _ _ _ (or_introl eq_refl) Hth) as [Hp1 Hp2].
    split.
    { intros Hpast. destruct (Hp1 Hpast) as [Hc _].
      split; [done|by apply (proj1 Hd)]. }
    split; [done|].
    split; [intros Hret; eapply returned_nothing_runs; eauto|].
    intros s' start Hl Hstep. eapply cfg_waiting_steps; eauto.
    by apply cfg_sys_reachable_ok. }
  split; [intros s s'; apply crd_exited_frozen|].
  split; [intros s s'; apply cfg_exited_frozen|].
  intros mc w th i c Hi. by apply step_child_call.
Qed.

(** *** Schedules run the systems *)

Lemma stop_exec_sound mc a w th w' th' :
  stop_exec mc a (w, th) = Some (w', th') -> stop_step mc (w, th) (w', th').
Proof.
  destruct th as [stop children]. destruct a as [|i|i]; simpl.
  - destruct stop as [[|[] rest]|]; try discriminate.
    + destruct (decide (doneCh mc = ChanClosed)); [|discriminate].
      intros [= <- <-]. by apply step_AwaitDone.
    + intros [= <- <-]. apply step_SpawnStops.
    + destruct (decide (all_done children)); [|discriminate].
      intros [= <- <-]. by apply step_WaitGroupWait.
  - destruct (children !! i) as [[c []]|] eqn:Hi; try discriminate.
    intros [= <- <-].
    by apply (step_child_call mc w {| th_stop := stop; th_children := children |} i c).
  - destruct (children !! i) as [[c []]|] eqn:Hi; try discriminate.
    intros [= <- <-].
    by apply (step_child_return mc w {| th_stop := stop; th_children := children |} i c).
Qed.

Lemma cfg_exec_sound a s s' : cfg_exec a s = Some s' -> cfg_sys_step s s'.
Proof.
  destruct a as [| | |a']; unfold cfg_exec;
    destruct (cs_loop s) as [|start| |err] eqn:Hl; try discriminate.
  - intros [= <-]. by apply cfg_sys_Start.
  - intros [= <-]. by apply cfg_sys_turn.
  - destruct (th_stop (cs_th s)) eqn:Hs; [discriminate|].
    intros [= <-]. rewrite <- Hl.
    apply cfg_sys_Stop; [by unfold cfg_alive; rewrite Hl|by rewrite Hl|done].
  - destruct (th_stop (cs_th s)) eqn:Hs; [discriminate|].
    intros [= <-]. rewrite <- Hl.
    apply cfg_sys_Stop; [by unfold cfg_alive; rewrite Hl|by rewrite Hl|done].
  - destruct (stop_exec _ _ _) as [[w' th']|] eqn:He; [|discriminate].
    intros [= <-]. rewrite <- Hl.
    apply cfg_sys_stop_thread; [by unfold cfg_alive; rewrite Hl|].
    by apply stop_exec_sound in He.
  - destruct (stop_exec _ _ _) as [[w' th']|] eqn:He; [|discriminate].
    intros [= <-]. rewrite <- Hl.
    apply cfg_sys_stop_thread; [by unfold cfg_alive; rewrite Hl|].
    by apply stop_exec_sound in He.
  - destruct (stop_exec _ _ _) as [[w' th']|] eqn:He; [|discriminate].
    intros [= <-]. rewrite <- Hl.
    apply cfg_sys_stop_thread; [by unfold cfg_alive; rewrite Hl|].
    by apply stop_exec_sound in He.
Qed.

Lemma env_exec_sound a st : crd_env st (env_exec a st).
Proof.
  destruct a as [obj|old cur|lister| |item|d]; simpl; try constructor. lia.
Qed.

Lemma crd_exec_sound a s s' : crd_exec a s = Some s' -> crd_sys_step s s'.
Proof.
  destruct a as [| |a'| |a']; unfold crd_exec.
  - destruct (rs_loop s) eqn:Hl; try discriminate.
    intros [= <-]. by apply crd_sys_Start.
  - destruct (rs_loop s) eqn:Hl; try discriminate.
    + destruct (decide (stopCh (self (rs_st s)) = ChanClosed)) as [Hc|Hc].
      * intros [= <-]. by apply crd_sys_sync_stopped.
      * destruct (InformerHasSynced (self (rs_st s))) eqn:Hs; [|discriminate].
        intros [= <-]. by apply crd_sys_synced.
    + destruct (processNextWorkItem (rs_st s)) as [[[|]|] st'] eqn:Hp;
        try discriminate; intros [= <-].
      * by apply crd_sys_item.
      * by apply crd_sys_quit.
  - intros [= <-]. apply crd_sys_env, env_exec_sound.
  - destruct (rs_loop s) eqn:Hl; try discriminate;
      (destruct (th_stop (rs_th s)) eqn:Hs; [discriminate|]);
      intros [= <-]; rewrite <- Hl;
      (apply crd_sys_Stop; [by rewrite Hl|done]).
  - assert (Hshared :
      match stop_exec (crd_mc (self (rs_st s))) a' (world (rs_st s), rs_th s) with
      | Some (w', th') =>
          Some {| rs_st := mkSt (self (rs_st s)) w'; rs_loop := rs_loop s;
                  rs_th := th' |}
      | None => None
      end = Some s' -> crd_sys_step s s').
    { destruct (stop_exec _ _ _) as [[w' th']|] eqn:He; [|discriminate].
      intros [= <-]. apply crd_sys_stop_thread. by apply stop_exec_sound in He. }
    destruct a' as [|i|i]; try exact Hshared.
    destruct (th_stop (rs_th s)) as [[|[] rest]|] eqn:Hs; try exact Hshared.
    + intros [= <-]. by apply crd_sys_CloseStopCh.
    + intros [= <-]. by apply crd_sys_QueueShutDown.
Qed.

Lemma cfg_schedule_reachable acts : forall s s',
  cfg_sys_reachable s -> run_schedule cfg_exec acts s = Some s' ->
  cfg_sys_reachable s'.
Proof.
  induction acts as [|a acts IH]; intros s s' Hr; simpl.
  - by intros [= <-].
  - destruct (cfg_exec a s) as [s1|] eqn:He; [|discriminate].
    apply IH. eapply cfg_sys_reach_step; [exact Hr|by apply cfg_exec_sound in He].
Qed.

Lemma crd_schedule_reachable acts : forall s s',
  crd_sys_reachable s -> run_schedule crd_exec acts s = Some s' ->
  crd_sys_reachable s'.
Proof.
  induction acts as [|a acts IH]; intros s s' Hr; simpl.
  - by intros [= <-].
  - destruct (crd_exec a s) as [s1|] eqn:He; [|discriminate].
    apply IH. eapply crd_sys_reach_step; [exact Hr|by apply crd_exec_sound in He].
Qed.


(** * Further properties of the code *)

(** *** The options of the constructor *)

Lemma run_options_app pre rest obj :
  run_options (pre ++ rest) obj
  = match run_options pre obj with
    | inl err => inl err
    | inr obj1 => run_options rest obj1
    end.
Proof.
  revert obj. induction pre as [|o pre IH]; intros obj; simpl; [done|].
  destruct (o obj) as [[err|] obj1]; [done|apply IH].
Qed.

(** X1: when an option returns an error, the constructor returns that error
    at once: the options after it are not run, nothing is loaded and the
    world is as it was. *)
Theorem failing_option_aborts_the_constructor rm dc dif n pre o post obj err w :
  run_options pre new_obj = inr obj ->
  fst (o obj) = Some err ->
  NewConfigBasedMetaController rm dc dif n (pre ++ o :: post) w = (inl err, w).
Proof.
  intros Hpre Ho. unfold NewConfigBasedMetaController.
  rewrite run_options_app, Hpre. simpl.
  destruct (o obj) as [[e|] obj1]; simpl in Ho; [|done]. by inversion Ho.
Qed.

Lemma run_provided_options ps : forall obj,
  run_options (option_of <$> ps) obj
  = inr {| cfg_mc := cfg_mc obj;
           ConfigPath := last_path (ConfigPath obj) ps;
           GenericControllerAsConfigFn :=
             last_fn (GenericControllerAsConfigFn obj) ps;
           GenericControllerConfigs := GenericControllerConfigs obj;
           WaitTimeoutForCondition := WaitTimeoutForCondition obj;
           WaitIntervalForCondition := WaitIntervalForCondition obj |}.
Proof.
  induction ps as [|p ps IH]; intros obj; simpl.
  - by destruct obj.
  - destruct p as [fn|path]; simpl; by rewrite IH.
Qed.

(** X2: the options [SetGenericControllerAsConfigFn] and
    [SetMetaControllerConfigPath], given in any number and order, never fail;
    they leave the path that was given last and the function that was given
    last, and touch nothing else (the two durations keep their defaults).
    The constructor therefore sees of them only the last path and the last
    function. *)
Theorem provided_options_last_one_wins ps :
  (forall obj,
     exists obj',
       run_options (option_of <$> ps) obj = inr obj' /\
       ConfigPath obj' = last_path (ConfigPath obj) ps /\
       GenericControllerAsConfigFn obj'
         = last_fn (GenericControllerAsConfigFn obj) ps /\
       cfg_mc obj' = cfg_mc obj /\
       GenericControllerConfigs obj' = GenericControllerConfigs obj /\
       WaitTimeoutForCondition obj' = WaitTimeoutForCondition obj /\
       WaitIntervalForCondition obj' = WaitIntervalForCondition obj) /\
  (forall path, last_path "" (ps ++ [WithConfigPath path]) = path) /\
  (forall fn, last_fn None (ps ++ [WithConfigFn fn]) = Some fn) /\
  (forall fn, last_path "" (ps ++ [WithConfigFn fn]) = last_path "" ps) /\
  (forall path, last_fn None (ps ++ [WithConfigPath path]) = last_fn None ps) /\
  (forall qs rm dc dif n w,
     last_path "" qs = last_path "" ps ->
     last_fn None qs = last_fn None ps ->
     NewConfigBasedMetaController rm dc dif n (option_of <$> qs) w
     = NewConfigBasedMetaController rm dc dif n (option_of <$> ps) w).
Proof.
  split.
  { intros obj. eexists. split; [apply run_provided_options|]. simpl. done. }
  split; [intros path; unfold last_path; by rewrite foldl_snoc|].
  split; [intros fn; unfold last_fn; by rewrite foldl_snoc|].
  split; [intros fn; unfold last_path; by rewrite foldl_snoc|].
  split; [intros path; unfold last_fn; by rewrite foldl_snoc|].
  intros qs rm dc dif n w Hp Hf. unfold NewConfigBasedMetaController.
  rewrite !run_provided_options. simpl. by rewrite Hp, Hf.
Qed.

(** *** Passes of the Config-driven supervisor *)

Lemma startAll_loop_registered confs st :
  (forall conf, conf ∈ confs -> is_Some (cfg_map st !! Key conf)) ->
  startAll_loop confs st = ((true, None), st).
Proof.
  induction confs as [|conf rest IH]; intros Hall; [done|].
  destruct (Hall conf ltac:(by left)) as [c Hc].
  rewrite (startAll_loop_skip _ _ _ _ Hc). apply IH.
  intros conf' Hin. apply Hall. by right.
Qed.

Lemma startAll_registered st :
  (forall conf, conf ∈ GenericControllerConfigs (self st) ->
     is_Some (cfg_map st !! Key conf)) ->
  startAllWatchControllers st = ((true, None), st).
Proof. intros Hall. unfold startAllWatchControllers. run. by apply startAll_loop_registered. Qed.

Lemma startAll_eq st :
  startAllWatchControllers st = startAll_loop (GenericControllerConfigs (self st)) st.
Proof. reflexivity. Qed.

(** X3: a pass over definitions whose keys are all registered constructs
    and starts nothing, changes nothing and reports success.  So a pass that
    succeeded, run again, is a no-op, and [Start] called on a supervisor
    whose definitions all run completes on its first poll, without a
    construction, a start or a sleep. *)
Theorem pass_over_registered_keys_is_a_noop :
  (forall st,
     (forall conf, conf ∈ GenericControllerConfigs (self st) ->
        is_Some (cfg_map st !! Key conf)) ->
     startAllWatchControllers st = ((true, None), st)) /\
  (forall st,
     let st1 := snd (startAllWatchControllers st) in
     fst (startAllWatchControllers st) = (true, None) ->
     startAllWatchControllers st1 = ((true, None), st1)) /\
  (forall st fuel,
     let st1 := snd (startAllWatchControllers st) in
     fst (startAllWatchControllers st) = (true, None) ->
     cfg_Start_goroutine (S fuel) (snd (cfg_Start_make st1))
     = (Some Completed, cfg_close_doneCh (snd (cfg_Start_make st1)))).
Proof.
  assert (Hagain : forall st,
            fst (startAllWatchControllers st) = (true, None) ->
            forall conf,
              conf ∈ GenericControllerConfigs (self (snd (startAllWatchControllers st))) ->
              is_Some (cfg_map (snd (startAllWatchControllers st)) !! Key conf)).
  { intros st Hok conf Hin.
    destruct (startAll_grows st) as (Hself & _).
    rewrite Hself in Hin. simpl in Hin.
    rewrite startAll_eq in *.
    destruct (startAll_loop_result (GenericControllerConfigs (self st)) st)
      as [[_ R]|(conf' & err & _ & R & _)]; [by apply R|].
    rewrite Hok in R. discriminate. }
  split; [apply startAll_registered|].
  split.
  { intros st st1 Hok. apply startAll_registered. by apply Hagain. }
  intros st fuel st1 Hok.
  rewrite cfg_Start_goroutine_eq, wait_loop_S.
  rewrite startAll_registered; [done|].
  intros conf Hin. apply (Hagain st Hok conf Hin).
Qed.






(** *** How long Start's goroutine takes *)





(** *** Reconciles of the CRD-driven supervisor *)

(** X7: the reconcile of a definition whose key is not registered
    constructs a watch controller from it.  When the construction fails, the
    error is returned as it is, the map is unchanged and nothing starts; when
    it succeeds, the new controller is started with the supervisor's
    WorkerCount and filed under the key, and nil is returned.  Nothing of the
    receiver changes but the map. *)
Theorem reconcile_of_a_new_definition_starts_it ctrl st :
  crd_map st !! Key ctrl = None ->
  let res := syncGenericController ctrl st in
  let id := next_id (world st) in
  self (snd res) = crd_with_map (crd_map (snd res)) (self st) /\
  match discovery (world st) (ext_calls (world st)) ctrl with
  | Some err =>
      fst res = Some err /\
      crd_map (snd res) = crd_map st /\
      trace (world (snd res))
        = trace (world st) ++ [EvNewWatchController ctrl None] /\
      running (trace (world (snd res))) = running (trace (world st))
  | None =>
      fst res = None /\
      crd_map (snd res)
        = <[Key ctrl := {| wc_id := id; GCtlConfig := ctrl |}]> (crd_map st) /\
      trace (world (snd res))
        = trace (world st)
          ++ [EvNewWatchController ctrl (Some id);
              EvStart id (WorkerCount (crd_mc (self st)))] /\
      running (trace (world (snd res))) = {[id]} ∪ running (trace (world st))
  end.
Proof.
  intros Hnone res id. unfold res.
  rewrite syncGenericController_eq, Hnone, syncGenericController_recreate_eq.
  destruct (discovery (world st) (ext_calls (world st)) ctrl) as [err|]; simpl.
  - split; [symmetry; apply crd_with_map_id|]. split; [done|]. split; [done|].
    split; [done|]. by rewrite running_snoc.
  - split; [done|]. split; [done|]. split; [done|].
    split; [by rewrite <- app_assoc|]. by rewrite !running_snoc.
Qed.

Lemma dropped_other key k st :
  k <> key -> crd_map (dropped key st) !! k = crd_map st !! k.
Proof.
  intros Hne. unfold dropped. destruct (crd_map st !! key) eqn:Hk; [|done].
  unfold crd_map at 1; simpl. by apply lookup_delete_ne.
Qed.

Lemma dropped_world_calls key st :
  discovery (world (dropped key st)) = discovery (world st) /\
  ext_calls (world (dropped key st)) = ext_calls (world st) /\
  next_id (world (dropped key st)) = next_id (world st).
Proof. unfold dropped. by destruct (crd_map st !! key). Qed.

(** X8: what a reconcile of a definition leaves behind.  It touches no
    entry of the map but the one under the definition's key.  When it returns
    nil, a controller is registered under that key: either the one that was
    there, its spec semantically equal to the definition's, and then nothing
    changed at all; or a controller newly built from the definition, which
    runs.  When it returns an error, the error is the one of the failed
    construction and no controller is registered under the key.  And a
    reconcile that returned nil, run again on the same definition (whose spec
    is semantically equal to itself), changes nothing. *)
Theorem reconcile_settles_the_definition ctrl st :
  let res := syncGenericController ctrl st in
  (forall k, k <> Key ctrl -> crd_map (snd res) !! k = crd_map st !! k) /\
  (fst res = None ->
   exists c,
     crd_map (snd res) !! Key ctrl = Some c /\
     ((snd res = st /\
       Semantic_DeepEqual (Spec ctrl) (Spec (GCtlConfig c)) = true) \/
      (c = {| wc_id := next_id (world st); GCtlConfig := ctrl |} /\
       wc_id c ∈ running (trace (world (snd res)))))) /\
  (forall err,
     fst res = Some err ->
     discovery (world st) (ext_calls (world st)) ctrl = Some err /\
     crd_map (snd res) !! Key ctrl = None) /\
  (Semantic_DeepEqual (Spec ctrl) (Spec ctrl) = true ->
   fst res = None ->
   syncGenericController ctrl (snd res) = (None, snd res)).
Proof.
  intros res.
  assert (Hre : forall s,
    crd_map s !! Key ctrl = None ->
    discovery (world s) = discovery (world st) ->
    ext_calls (world s) = ext_calls (world st) ->
    next_id (world s) = next_id (world st) ->
    let r := syncGenericController_recreate ctrl s in
    (forall k, k <> Key ctrl -> crd_map (snd r) !! k = crd_map s !! k) /\
    (fst r = None ->
     crd_map (snd r) !! Key ctrl
       = Some {| wc_id := next_id (world st); GCtlConfig := ctrl |} /\
     next_id (world st) ∈ running (trace (world (snd r)))) /\
    (forall err, fst r = Some err ->
       discovery (world st) (ext_calls (world st)) ctrl = Some err /\
       crd_map (snd r) !! Key ctrl = None)).
  { intros s Hs Hd He Hn r. unfold r.
    rewrite syncGenericController_recreate_eq, Hd, He.
    destruct (discovery (world st) (ext_calls (world st)) ctrl) as [err|];
      simpl.
    - split; [done|]. split; [done|]. intros err' [= <-]. done.
    - split.
      { intros k Hne. unfold crd_map at 1; simpl. by apply lookup_insert_ne. }
      split; [|done]. intros _. split.
      + unfold crd_map at 1; simpl. rewrite Hn. apply lookup_insert_eq.
      + rewrite running_snoc. simpl. rewrite Hn. set_solver. }
  assert (Hres : res
    = match crd_map st !! Key ctrl with
      | Some c =>
          if Semantic_DeepEqual (Spec ctrl) (Spec (GCtlConfig c)) then (None, st)
          else syncGenericController_recreate ctrl (dropped (Key ctrl) st)
      | None => syncGenericController_recreate ctrl st
      end) by apply syncGenericController_eq.
  assert (Hmain :
    (forall k, k <> Key ctrl -> crd_map (snd res) !! k = crd_map st !! k) /\
    (fst res = None ->
     exists c,
       crd_map (snd res) !! Key ctrl = Some c /\
       ((snd res = st /\
         Semantic_DeepEqual (Spec ctrl) (Spec (GCtlConfig c)) = true) \/
        (c = {| wc_id := next_id (world st); GCtlConfig := ctrl |} /\
         wc_id c ∈ running (trace (world (snd res)))))) /\
    (forall err,
       fst res = Some err ->
       discovery (world st) (ext_calls (world st)) ctrl = Some err /\
       crd_map (snd res) !! Key ctrl = None)).
  { rewrite Hres. destruct (crd_map st !! Key ctrl) as [c|] eqn:Hk.
    - destruct (Semantic_DeepEqual (Spec ctrl) (Spec (GCtlConfig c))) eqn:Heq.
      + simpl. split; [done|]. split; [|done]. intros _. exists c.
        split; [done|]. by left.
      + destruct (dropped_world_calls (Key ctrl) st) as (D1 & D2 & D3).
        destruct (Hre (dropped (Key ctrl) st) (dropped_lookup _ _) D1 D2 D3)
          as (R1 & R2 & R3).
        split.
        { intros k Hne. rewrite R1 by done. by apply dropped_other. }
        split; [|done]. intros Hok. destruct (R2 Hok) as [Hm Hr].
        eexists. split; [exact Hm|]. right. done.
    - destruct (Hre st Hk eq_refl eq_refl eq_refl) as (R1 & R2 & R3).
      split; [done|]. split; [|done]. intros Hok. destruct (R2 Hok) as [Hm Hr].
      eexists. split; [exact Hm|]. right. done. }
  destruct Hmain as (M1 & M2 & M3).
  split; [done|]. split; [done|]. split; [done|].
  intros Hrefl Hok. destruct (M2 Hok) as (c & Hm & [[Hsame Heq]| [-> Hr]]).
  - rewrite Hsame in *. by eapply syncGenericController_same_spec.
  - eapply syncGenericController_same_spec; [exact Hm|done].
Qed.

(** *** Keys *)

Lemma strings_Split_length sep s :
  length (strings_Split sep s) = S (count_char sep s).
Proof.
  induction s as [|c s IH]; simpl; [done|].
  destruct (Ascii.eqb c sep); simpl; [by rewrite IH|].
  destruct (strings_Split sep s); simpl in *; [discriminate|done].
Qed.

Lemma strings_Split_whole sep s :
  count_char sep s = 0%nat -> strings_Split sep s = [s].
Proof.
  induction s as [|c s IH]; simpl; [done|].
  destruct (Ascii.eqb c sep); [discriminate|].
  intros Hc. by rewrite IH.
Qed.

Lemma strings_Split_first sep s rest :
  count_char sep s = 0%nat ->
  strings_Split sep (s +:+ String sep rest) = s :: strings_Split sep rest.
Proof.
  induction s as [|c s IH]; simpl.
  - intros _. by rewrite Ascii.eqb_refl.
  - destruct (Ascii.eqb c sep); [discriminate|].
    intros Hc. by rewrite IH.
Qed.

Lemma SplitMetaNamespaceKey_malformed key :
  (2 <= count_char slash key)%nat ->
  SplitMetaNamespaceKey key = inl (Errorf ("unexpected key format: " +:+ key)).
Proof.
  intros Hc. unfold SplitMetaNamespaceKey.
  pose proof (strings_Split_length slash key) as Hlen.
  destruct (strings_Split slash key) as [|a [|b [|c l]]]; simpl in Hlen;
    try done; lia.
Qed.

(** X9: how [sync] reads its key.  A key without a slash is a name in the
    empty namespace; a key with one slash is a namespace and a name; for
    these the reconcile goes by what the lister holds there.  A key with two
    or more slashes is never reconciled: whatever the state, [sync] returns
    the error of the split and changes nothing. *)
Theorem sync_reads_namespace_and_name_off_the_key :
  (forall name st,
     count_char slash name = 0%nat ->
     sync name st = sync_found_or_gone name "" name st) /\
  (forall ns name st,
     count_char slash ns = 0%nat -> count_char slash name = 0%nat ->
     sync (ns +:+ "/" +:+ name) st
     = sync_found_or_gone (ns +:+ "/" +:+ name) ns name st) /\
  (forall key,
     (2 <= count_char slash key)%nat ->
     exists err,
       SplitMetaNamespaceKey key = inl err /\
       forall st, sync key st = (Some err, st)).
Proof.
  split; [|split].
  - intros name st Hc. rewrite sync_eq. unfold SplitMetaNamespaceKey.
    by rewrite strings_Split_whole.
  - intros ns name st Hns Hname. rewrite sync_eq. unfold SplitMetaNamespaceKey.
    change ("/" +:+ name) with (String slash name).
    rewrite strings_Split_first by done. by rewrite strings_Split_whole.
  - intros key Hc. eexists. split; [by apply SplitMetaNamespaceKey_malformed|].
    intros st. rewrite sync_eq. by rewrite SplitMetaNamespaceKey_malformed.
Qed.

(** X10: a reconcile that returns an error has started nothing.  Either the
    key was malformed or the lister failed (with another error than
    not-found), and then nothing changed at all; or the construction for the
    definition the lister holds failed, and then no controller is registered
    under the definition's key: the one that was there, if any, had another
    spec and was stopped first. *)
Theorem failed_reconcile_starts_nothing key st err st' :
  sync key st = (Some err, st') ->
  (st' = st /\
   (SplitMetaNamespaceKey key = inl err \/
    exists ns name,
      SplitMetaNamespaceKey key = inr (ns, name) /\
      Lister (self st) ns name = inl err /\ IsNotFound err = false)) \/
  (exists ns name ctrl,
     SplitMetaNamespaceKey key = inr (ns, name) /\
     Lister (self st) ns name = inr ctrl /\
     discovery (world st) (ext_calls (world st)) ctrl = Some err /\
     crd_map st' = delete (Key ctrl) (crd_map st) /\
     trace (world st')
       = trace (world st)
         ++ match crd_map st !! Key ctrl with
            | Some c => [EvStop (wc_id c)]
            | None => []
            end
         ++ [EvNewWatchController ctrl None]).
Proof.
  rewrite sync_eq.
  destruct (SplitMetaNamespaceKey key) as [e|[ns name]] eqn:Hk.
  { intros [= <- <-]. left. split; [done|]. by left. }
  destruct (Lister (self st) ns name) as [e|ctrl] eqn:Hl.
  { destruct (IsNotFound e) eqn:Hnf; [discriminate|].
    intros [= <- <-]. left. split; [done|]. right. eauto. }
  rewrite syncGenericController_eq. intros Hs. right. exists ns, name, ctrl.
  split; [done|]. split; [done|].
  destruct (crd_map st !! Key ctrl) as [c|] eqn:Hm.
  - destruct (Semantic_DeepEqual _ _); [discriminate|].
    rewrite syncGenericController_recreate_eq in Hs.
    destruct (dropped_world_calls (Key ctrl) st) as (D1 & D2 & _).
    rewrite D1, D2 in Hs.
    destruct (discovery (world st) (ext_calls (world st)) ctrl) as [e|];
      [|discriminate].
    inversion Hs; subst; clear Hs. split; [done|].
    destruct (dropped_trace _ _ _ Hm) as (Htr & Hmap & _).
    split; [exact Hmap|]. simpl. rewrite Htr. by rewrite <- app_assoc.
  - rewrite syncGenericController_recreate_eq in Hs.
    destruct (discovery (world st) (ext_calls (world st)) ctrl) as [e|];
      [|discriminate].
    inversion Hs; subst; clear Hs. split; [done|]. split; [|done].
    unfold crd_map at 1; simpl. symmetry. by apply delete_id.
Qed.

(** *** The worker and its queue *)












(** *** Before the informer's cache has synced *)




(** *** The life of a watch controller *)








(** **** The worker keeps to it *)







(** **** The passes keep to it *)



(** **** And so do the goroutines of Stop *)










(** *** Stop can return *)















(** *** What the end of Start's goroutine tells *)

(** The pass after which the wait loop returned. *)
Lemma wait_loop_last_pass start fuel : forall st res st',
  wait_loop fuel startAllWatchControllers start st = (Some res, st') ->
  exists st0 r,
    grows st st0 /\
    startAllWatchControllers st0 = (r, st') /\
    match res with
    | None => r = (true, None)
    | Some e =>
        r <> (true, None) /\
        e = TimedOut cfg_String (WaitTimeoutForCondition (self st')) (snd r) /\
        since start (world st') > WaitTimeoutForCondition (self st')
    end.
Proof.
  induction fuel as [|fuel IH]; intros st res st'; [discriminate|].
  rewrite wait_loop_S.
  pose proof (startAll_grows st) as Hg.
  destruct (startAllWatchControllers st) as [[done err] st1] eqn:Hpass.
  simpl in Hg.
  assert (Hslept :
    wait_loop fuel startAllWatchControllers start
      (snd (time_Sleep (WaitIntervalForCondition (self st1)) st1)) = (Some res, st') ->
    exists st0 r,
      grows st st0 /\
      startAllWatchControllers st0 = (r, st') /\
      match res with
      | None => r = (true, None)
      | Some e =>
          r <> (true, None) /\
          e = TimedOut cfg_String (WaitTimeoutForCondition (self st')) (snd r) /\
          since start (world st') > WaitTimeoutForCondition (self st')
      end).
  { intros Hw. destruct (IH _ _ _ Hw) as (st0 & r & G & P & M).
    exists st0, r. split; [|done].
    eapply grows_trans; [exact Hg|].
    eapply grows_trans; [apply time_Sleep_grows|exact G]. }
  destruct (since start (world st1) >? WaitTimeoutForCondition (self st1)) eqn:Hover.
  - apply Z.gtb_lt in Hover.
    destruct done, err; intros [= <- <-]; do 2 eexists;
      (split; [apply grows_refl|]); (split; [exact Hpass|]);
      try done; (split; [done|]); (split; [done|lia]).
  - destruct done, err; try exact Hslept.
    intros [= <- <-]. do 2 eexists.
    split; [apply grows_refl|]. split; [exact Hpass|done].
Qed.

(** X17: what the end of [Start]'s goroutine tells.  When it completes,
    every configured definition has a watch controller registered under its
    key, and that controller runs.  When it dies, the error is the timeout
    error of [wait], more than the timeout has passed, and the cause it
    carries is the error of the last pass: the failed construction for a
    configured definition, whose key is not registered. *)
Theorem end_of_Start_tells_what_runs fuel st out st' :
  cfg_reachable st ->
  cfg_Start_goroutine fuel st = (Some out, st') ->
  match out with
  | Completed =>
      doneCh (cfg_mc (self st')) = ChanClosed /\
      forall conf,
        conf ∈ GenericControllerConfigs (self st) ->
        exists c,
          cfg_map st' !! Key conf = Some c /\
          Key (GCtlConfig c) = Key conf /\
          runs (trace (world st')) c
  | Fatal err =>
      doneCh (cfg_mc (self st')) = doneCh (cfg_mc (self st)) /\
      now (world st') - now (world st) > WaitTimeoutForCondition (self st) /\
      exists conf cause,
        conf ∈ GenericControllerConfigs (self st) /\
        cfg_map st' !! Key conf = None /\
        err = TimedOut cfg_String (WaitTimeoutForCondition (self st))
                (Some (Wrapf cause
                         (cfg_String +:+ ": Failed to sync key " +:+ Key conf)))
  end.
Proof.
  intros Hreach Hrun.
  pose proof (cfg_Start_goroutine_ok fuel st (cfg_reachable_ok st Hreach)) as Hok.
  rewrite Hrun in Hok. simpl in Hok.
  rewrite cfg_Start_goroutine_eq in Hrun.
  pose proof (wait_loop_grows startAllWatchControllers (now (world st)) fuel st
                startAll_grows) as Hgrown.
  destruct (wait_loop fuel startAllWatchControllers (now (world st)) st)
    as [[res|] st2] eqn:Hw; [|discriminate].
  simpl in Hgrown.
  destruct Hgrown as (_ & _ & delta & (_ & _ & _ & Hclock & _) & _).
  destruct (wait_loop_last_pass _ _ _ _ _ Hw) as (st0 & r & G & P & M).
  destruct G as (Gself & _ & _).
  pose proof (startAll_grows st0) as (Hself & _). rewrite P in Hself.
  simpl in Hself.
  assert (Hconfigs : GenericControllerConfigs (self st0)
                     = GenericControllerConfigs (self st)) by (by rewrite Gself).
  assert (HT : WaitTimeoutForCondition (self st2)
               = WaitTimeoutForCondition (self st)) by (by rewrite Hself, Gself).
  assert (Hch : doneCh (cfg_mc (self st2)) = doneCh (cfg_mc (self st)))
    by (by rewrite Hself, Gself).
  pose proof (startAll_loop_result (GenericControllerConfigs (self st0)) st0)
    as Hres.
  rewrite <- startAll_eq, P, Hconfigs in Hres. simpl in Hres.
  destruct res as [e|]; inversion Hrun; subst; clear Hrun.
  - destruct M as (Hne & -> & Hover).
    destruct Hres as [[R1 _]|(conf & cause & Hin & R1 & R2)]; [done|].
    split; [done|]. split.
    { unfold since, saturate, minDuration, maxDuration in Hover. lia. }
    exists conf, cause. split; [done|]. split; [done|].
    subst r. simpl. by f_equal.
  - destruct Hres as [[_ R2]|(conf & cause & Hin & R1 & _)];
      [|discriminate].
    split; [done|]. intros conf Hin. destruct (R2 conf Hin) as [c Hc].
    exists c. destruct Hok as [(Ha & _) _].
    destruct (Ha _ _ Hc) as [Hk Hr]. done.
Qed.

(** *** The handlers of the informer *)

Lemma wq_Add_again item q : wq_Add item (wq_Add item q) = wq_Add item q.
Proof.
  assert (Hsame : forall q0,
            wq_shuttingDown q0 = true \/ item ∈ wq_dirty q0 ->
            wq_Add item q0 = q0).
  { intros q0 [Hsd|Hin]; unfold wq_Add.
    - by rewrite Hsd.
    - destruct (wq_shuttingDown q0); [done|]. by rewrite decide_True. }
  apply Hsame. unfold wq_Add.
  destruct (wq_shuttingDown q) eqn:Hsd; [by left|].
  destruct (decide (item ∈ wq_dirty q)) as [Hin|Hin]; [by right|].
  right. simpl. set_solver.
Qed.

(** X18: the handlers keep of an event only the key of its object.  When
    the key function fails, the event is dropped: the error is reported and
    neither the queue nor anything else changes.  Two objects with the same
    key have the same effect, and an event for a key that already waits in
    the queue adds nothing: the reconcile will go by what the lister holds
    when the worker gets to the key.  The update handler does not look at the
    old object.  Once the queue is shutting down, events change nothing. *)
Theorem handlers_keep_only_the_key :
  (forall obj err st,
     KeyFunc (ObjMeta obj) = inl err ->
     self (snd (enqueueGenericController obj st)) = self st /\
     exists msg,
       world (snd (enqueueGenericController obj st))
       = emit (EvHandleError (Wrapf err msg)) (world st)) /\
  (forall a b key st,
     KeyFunc (ObjMeta a) = inr key -> KeyFunc (ObjMeta b) = inr key ->
     enqueueGenericController b st = enqueueGenericController a st /\
     snd (enqueueGenericController b (snd (enqueueGenericController a st)))
       = snd (enqueueGenericController a st)) /\
  (forall old cur st,
     updateGenericController old cur st = enqueueGenericController cur st) /\
  (forall obj key st,
     KeyFunc (ObjMeta obj) = inr key ->
     wq_shuttingDown (Queue (self st)) = true ->
     snd (enqueueGenericController obj st) = st).
Proof.
  split; [|split; [|split]].
  - intros obj err st Hk. unfold enqueueGenericController. rewrite Hk. run.
    split; [done|]. eauto.
  - intros a b key st Ha Hb. unfold enqueueGenericController.
    rewrite Ha, Hb. run. split; [done|]. by rewrite wq_Add_again.
  - done.
  - intros obj key st Hk Hsd. unfold enqueueGenericController. rewrite Hk. run.
    destruct (wq_Add_shutting_down key (Queue (self st))) as [_ Hq].
    rewrite (Hq Hsd). by destruct st as [[] ?].
Qed.

End Properties.

(** * The properties on concrete runs *)

(** C2 on a run: [gc_a] is registered; its relabelled copy has an equal spec;
    the reconcile changes nothing. *)
Lemma reconcile_equal_spec_is_noop_witness :
  crd_map crd_with_a !! Key gc_a_relabelled = Some wc0 /\
  Semantic_DeepEqual (Spec gc_a_relabelled) (Spec (GCtlConfig wc0)) = true /\
  syncGenericController gc_a_relabelled crd_with_a = (None, crd_with_a).
Proof.
  assert (H1 : crd_map crd_with_a !! Key gc_a_relabelled = Some wc0)
    by (vm_compute; reflexivity).
  assert (H2 : Semantic_DeepEqual (Spec gc_a_relabelled) (Spec (GCtlConfig wc0)) = true)
    by reflexivity.
  split; [exact H1|]. split; [exact H2|].
  exact (proj1 (reconcile_equal_spec_is_noop gc_a_relabelled wc0 crd_with_a H1 H2)).
Defined.

(** C3 on a run: the lister no longer finds [gc_a]; the reconcile of its key
    stops the registered controller and empties the map. *)
Lemma sync_not_found_drops_controller_witness :
  SplitMetaNamespaceKey "ns1/a" = inr ("ns1", "a") /\
  IsNotFound (StatusNotFound "genericcontroller a not found") = true /\
  exists st',
    sync "ns1/a" crd_a_gone = (None, st') /\
    crd_map st' = delete "ns1/a" (crd_map crd_a_gone) /\
    trace (world st') = trace (world crd_a_gone) ++ [EvStop 0].
Proof.
  assert (H1 : SplitMetaNamespaceKey "ns1/a" = inr ("ns1", "a")) by reflexivity.
  assert (H2 : Lister (self crd_a_gone) "ns1" "a"
               = inl (StatusNotFound "genericcontroller a not found"))
    by reflexivity.
  assert (H3 : IsNotFound (StatusNotFound "genericcontroller a not found") = true)
    by reflexivity.
  split; [exact H1|]. split; [exact H3|].
  destruct (sync_not_found_drops_controller "ns1/a" "ns1" "a" _ crd_a_gone H1 H2 H3)
    as (st' & E1 & E2 & E3 & _).
  exists st'. split; [exact E1|]. split; [exact E2|]. exact E3.
Defined.

(** C9 on a run: [gc_a] gets a label; the handler and the worker leave the
    registered controller alone. *)
Lemma update_outside_spec_keeps_controller_witness :
  Spec gc_a_relabelled = Spec gc_a /\
  Key gc_a_relabelled = Key gc_a /\
  crd_map crd_with_a !! Key gc_a = Some wc0 /\
  crd_map (snd (updateGenericController gc_a gc_a_relabelled crd_with_a))
    = crd_map crd_with_a.
Proof.
  assert (H1 : Spec gc_a_relabelled = Spec gc_a) by reflexivity.
  assert (H2 : Key gc_a_relabelled = Key gc_a) by reflexivity.
  assert (H3 : crd_map crd_with_a !! Key gc_a = Some wc0)
    by (vm_compute; reflexivity).
  assert (H4 : Semantic_DeepEqual (Spec gc_a) (Spec (GCtlConfig wc0)) = true)
    by reflexivity.
  split; [exact H1|]. split; [exact H2|]. split; [exact H3|].
  exact (proj1 (update_outside_spec_keeps_controller gc_a gc_a_relabelled wc0
                  crd_with_a H1 H2 H3 H4)).
Defined.

(** C10 on a run: the pass starts [gc_a], fails on [gc_b] and returns
    without looking at the definition that follows. *)
Lemma failed_pass_keeps_started_witness :
  startAll_loop [gc_a] cfg_fresh = ((true, None), after_start gc_a cfg_fresh) /\
  cfg_map (after_start gc_a cfg_fresh) !! Key gc_b = None /\
  startAll_loop ([gc_a] ++ gc_b :: [gc_a_twin]) cfg_fresh
    = ((false,
        Some (Wrapf discovery_down
                (cfg_String +:+ ": Failed to sync key " +:+ Key gc_b))),
       after_failed_start gc_b (after_start gc_a cfg_fresh)).
Proof.
  assert (H1 : startAll_loop [gc_a] cfg_fresh
               = ((true, None), after_start gc_a cfg_fresh)) by reflexivity.
  assert (H2 : cfg_map (after_start gc_a cfg_fresh) !! Key gc_b = None)
    by (vm_compute; reflexivity).
  assert (H3 : discovery (world (after_start gc_a cfg_fresh))
                 (ext_calls (world (after_start gc_a cfg_fresh))) gc_b
               = Some discovery_down) by (vm_compute; reflexivity).
  split; [exact H1|]. split; [exact H2|].
  exact (proj1 (failed_pass_keeps_started [gc_a] gc_b [gc_a_twin] cfg_fresh
                  (after_start gc_a cfg_fresh) discovery_down H1 H2 H3)).
Defined.


(** C7 on a run: a function and a path are both given; the path is
    loaded, the function is not called, and the definitions are those of the
    path. *)
Lemma config_path_overrides_function_witness :
  run_options example_opts new_obj = inr example_opted /\
  ConfigPath example_opted <> "" /\
  trace (snd (NewConfigBasedMetaController (handle 1) (handle 2) (handle 3) 5
                example_opts calm_world))
    = [EvConfigLoad "/etc/metac"; EvListGenericControllers].
Proof.
  assert (H1 : run_options example_opts new_obj = inr example_opted)
    by reflexivity.
  assert (H2 : ConfigPath example_opted <> "") by discriminate.
  split; [exact H1|]. split; [exact H2|].
  exact (proj1 (proj1 (config_path_overrides_function (handle 1) (handle 2)
                         (handle 3) 5 example_opts calm_world example_opted H1)
                  H2)).
Defined.

(** C8 on a run: the constructor has fetched the definitions; [Start] with
    its goroutine fetches nothing. *)
Lemma definitions_are_loaded_by_the_constructor_witness :
  NewConfigBasedMetaController (handle 1) (handle 2) (handle 3) 5
    example_opts calm_world = (inr example_obj, loaded calm_world) /\
  forall fuel w2,
    loads (trace (world (snd (cfg_Start_goroutine fuel
                                (snd (cfg_Start_make (mkSt example_obj w2)))))))
    = loads (trace w2).
Proof.
  assert (H1 : NewConfigBasedMetaController (handle 1) (handle 2) (handle 3) 5
                 example_opts calm_world = (inr example_obj, loaded calm_world))
    by reflexivity.
  split; [exact H1|].
  intros fuel w2.
  exact (proj1 (proj2 (definitions_are_loaded_by_the_constructor _ _ _ _ _ _ _ _ H1)
                  fuel w2)).
Defined.

(** C8 as the claim has it fails on this run: the Load call and the listing
    happen in the constructor, before [Start]; [Start] and its goroutine,
    which here runs to completion, add no such event. *)
Lemma Start_loads_nothing :
  fst example_made = inr example_obj /\
  loads (trace (snd example_made))
    = [EvConfigLoad "/etc/metac"; EvListGenericControllers] /\
  fst example_run = Some Completed /\
  loads (trace (world (snd example_run))) = loads (trace (snd example_made)) /\
  lifecycle (trace (world (snd example_run)))
    = [EvNewWatchController gc_a (Some 0%nat); EvStart 0 5;
       EvNewWatchController gc_b (Some 1%nat); EvStart 1 5].
Proof. vm_compute. repeat split; reflexivity. Qed.

(** C1 on a run: after the informer announced [gc_a] and the worker took the
    key, one controller runs, filed under "ns1/a". *)
Lemma at_most_one_controller_per_key_witness :
  crd_reachable crd_worked /\
  at_all_times one_per_key (trace (world crd_worked)) /\
  crd_map crd_worked !! "ns1/a" = Some wc0.
Proof.
  assert (H1 : crd_reachable crd_worked).
  { apply crd_worker, crd_enqueue. by apply crd_new. }
  split; [exact H1|]. split.
  - exact (proj2 (proj1 at_most_one_controller_per_key crd_worked H1)).
  - vm_compute. reflexivity.
Defined.

(** C4 as the claim has it fails on this run of the Config-driven
    supervisor: [Stop] is called while the wait loop runs; the call changes
    nothing of the supervisor and leaves the loop where it was; the loop then
    takes its next turn, in which it constructs and starts the controller of
    [gc_a], fails on [gc_b] and goes to sleep, still looping, while [Stop]
    is still at its receive. *)
Lemma cfg_Stop_leaves_the_loop_running :
  cfg_sys_reachable cfg_sys_started /\
  cfg_sys_step cfg_sys_started cfg_sys_stopping /\
  cs_st cfg_sys_stopping = cs_st cfg_sys_started /\
  cs_loop cfg_sys_stopping = cs_loop cfg_sys_started /\
  cfg_sys_step cfg_sys_stopping cfg_sys_next /\
  trace (world (cs_st cfg_sys_next))
    = trace (world (cs_st cfg_sys_stopping))
      ++ [EvNewWatchController gc_a (Some 0%nat); EvStart 0 5;
          EvNewWatchController gc_b None; EvSleep Second] /\
  cs_loop cfg_sys_next = CfgWaiting 0 /\
  th_stop (cs_th cfg_sys_next) = Some cfg_Stop.
Proof.
  split.
  { eapply cfg_sys_reach_step.
    - apply (cfg_sys_reach_init (handle 1) (handle 2) (handle 3) 5 example_opts
               flaky_world example_obj (loaded flaky_world)); reflexivity.
    - exact (cfg_sys_Start (cfg_sys_init cfg_fresh) eq_refl). }
  split.
  { exact (cfg_sys_Stop cfg_sys_started I ltac:(discriminate) eq_refl). }
  split; [reflexivity|]. split; [reflexivity|].
  split.
  { exact (cfg_sys_turn cfg_sys_stopping 0 eq_refl). }
  vm_compute. repeat split; reflexivity.
Qed.

(** C4 on the same run: the step from [cfg_sys_stopping] is the loop's own
    turn. *)
Lemma Stop_joins_after_the_loop_has_ended_witness :
  cfg_sys_reachable cfg_sys_stopping /\
  (cfg_sys_next
   = cfg_after_turn 0 (cs_th cfg_sys_stopping)
       (wait_turn startAllWatchControllers 0 (cs_st cfg_sys_stopping)) \/
   (cs_st cfg_sys_next = cs_st cfg_sys_stopping /\
    cs_loop cfg_sys_next = cs_loop cfg_sys_stopping /\
    th_stop (cs_th cfg_sys_stopping) = None /\
    th_stop (cs_th cfg_sys_next) = Some cfg_Stop)).
Proof.
  assert (H1 : cfg_sys_reachable cfg_sys_stopping).
  { eapply cfg_sys_reach_step; [eapply cfg_sys_reach_step|].
    - apply (cfg_sys_reach_init (handle 1) (handle 2) (handle 3) 5 example_opts
               flaky_world example_obj (loaded flaky_world)); reflexivity.
    - exact (cfg_sys_Start (cfg_sys_init cfg_fresh) eq_refl).
    - exact (cfg_sys_Stop cfg_sys_started I ltac:(discriminate) eq_refl). }
  split; [exact H1|].
  exact (proj2 (proj2 (proj2
           (proj1 (proj2 (proj2 Stop_joins_after_the_loop_has_ended))
              cfg_sys_stopping H1)))
           cfg_sys_next 0 eq_refl (cfg_sys_turn cfg_sys_stopping 0 eq_refl)).
Defined.

(** C6 on a run: with [gc_a], its twin and [gc_b] configured and discovery
    at work, the pass succeeds, constructs two controllers and binds the key
    "ns1/a" to the first definition. *)
Example startAll_skips_the_twin :
  fst (startAllWatchControllers cfg_twins) = (true, None) /\
  attempted (trace (world (snd (startAllWatchControllers cfg_twins))))
    = [gc_a; gc_b] /\
  cfg_map (snd (startAllWatchControllers cfg_twins)) !! "ns1/a" = Some wc0.
Proof. vm_compute. repeat split; reflexivity. Qed.

(** * Runs of the model *)

Example SplitMetaNamespaceKey_examples :
  SplitMetaNamespaceKey "ns1/a" = inr ("ns1", "a") /\
  SplitMetaNamespaceKey "a" = inr ("", "a") /\
  SplitMetaNamespaceKey "a/b/c" = inl (Errorf "unexpected key format: a/b/c").
Proof. repeat split; reflexivity. Qed.

(** Discovery comes back after the first turn: the goroutine of [Start]
    completes in the second turn, a little over one interval after the
    start, with both controllers started once. *)
Example config_startup_recovers :
  fst (cfg_Start_goroutine 5 (snd (cfg_Start_make cfg_fresh))) = Some Completed /\
  now (world (snd (cfg_Start_goroutine 5 (snd (cfg_Start_make cfg_fresh)))))
    = 1004000000 /\
  lifecycle (trace (world (snd (cfg_Start_goroutine 5
                                  (snd (cfg_Start_make cfg_fresh))))))
    = [EvNewWatchController gc_a (Some 0%nat); EvStart 0 5;
       EvNewWatchController gc_b None;
       EvNewWatchController gc_b (Some 1%nat); EvStart 1 5].
Proof. vm_compute. repeat split; reflexivity. Qed.

(** Discovery stays down: after thirty minutes the goroutine of [Start]
    dies with the timeout error, and nothing was ever started. *)
Example config_startup_times_out :
  fst (cfg_Start_goroutine 2000
         (snd (cfg_Start_make (mkSt example_obj (loaded dead_world)))))
    = Some (Fatal (TimedOut cfg_String (30 * Minute)
                     (Some (Wrapf discovery_down
                              (cfg_String +:+ ": Failed to sync key ns1/a"))))) /\
  running (trace (world (snd (cfg_Start_goroutine 2000
                                (snd (cfg_Start_make
                                        (mkSt example_obj (loaded dead_world))))))))
    = ∅.
Proof. vm_compute. repeat split; reflexivity. Qed.

(** A changed spec: the old controller is stopped before the new one is
    constructed and started. *)
Example respec_stops_before_it_starts :
  fst (syncGenericController gc_a_respecced crd_with_a) = None /\
  lifecycle (trace (world (snd (syncGenericController gc_a_respecced crd_with_a))))
    = [EvNewWatchController gc_a (Some 0%nat); EvStart 0 5; EvStop 0;
       EvNewWatchController gc_a_respecced (Some 1%nat); EvStart 1 5] /\
  elements (running (trace (world (snd (syncGenericController gc_a_respecced
                                          crd_with_a)))))
    = [1%nat].
Proof. vm_compute. repeat split; reflexivity. Qed.

Lemma crd_sys_fresh_reachable : crd_sys_reachable crd_sys_fresh.
Proof. by apply crd_sys_reach_init. Qed.

Lemma cfg_sys_fresh_reachable : cfg_sys_reachable cfg_sys_fresh.
Proof.
  apply (cfg_sys_reach_init (handle 1) (handle 2) (handle 3) 5 example_opts
           calm_world example_obj (loaded calm_world)); reflexivity.
Qed.

(** The CRD-driven system, from [Start] to the moment both stopping
    goroutines are inside [ctl.Stop()] at once: the worker has quit, and both
    controllers still run. *)
Example crd_stops_concurrently :
  match run_schedule crd_exec crd_schedule_both_stopping crd_sys_fresh with
  | Some s =>
      crd_sys_reachable s /\
      rs_loop s = CrdExited /\
      th_stop (rs_th s) = Some [WaitGroupWait] /\
      children_pcs (rs_th s) = [ChildStopping; ChildStopping] /\
      elements (running (trace (world (rs_st s)))) = [1%nat; 0%nat]
  | None => False
  end.
Proof.
  pose proof (crd_schedule_reachable crd_schedule_both_stopping crd_sys_fresh)
    as Hr.
  destruct (run_schedule crd_exec crd_schedule_both_stopping crd_sys_fresh)
    as [s|] eqn:Hrun; [|by vm_compute in Hrun].
  split; [by apply Hr; [apply crd_sys_fresh_reachable|]|].
  vm_compute in Hrun. inversion Hrun; subst; clear Hrun.
  vm_compute. repeat split; reflexivity.
Qed.

(** And on to the return of [Stop]: both goroutines are done and nothing
    runs. *)
Example crd_Stop_returns :
  match run_schedule crd_exec crd_schedule_returned crd_sys_fresh with
  | Some s =>
      crd_sys_reachable s /\
      returned (rs_th s) /\
      children_pcs (rs_th s) = [ChildDone; ChildDone] /\
      running (trace (world (rs_st s))) = ∅
  | None => False
  end.
Proof.
  pose proof (crd_schedule_reachable crd_schedule_returned crd_sys_fresh) as Hr.
  destruct (run_schedule crd_exec crd_schedule_returned crd_sys_fresh)
    as [s|] eqn:Hrun; [|by vm_compute in Hrun].
  split; [by apply Hr; [apply crd_sys_fresh_reachable|]|].
  vm_compute in Hrun. inversion Hrun; subst; clear Hrun.
  vm_compute. repeat split; reflexivity.
Qed.

(** [Stop] called with two keys queued: the queue is shut down, a key
    announced afterwards is not added, the worker still reconciles the two
    queued keys and then quits. *)
Example crd_Stop_drains_the_queue :
  match run_schedule crd_exec crd_schedule_drain crd_sys_fresh with
  | Some s =>
      rs_loop s = CrdExited /\
      th_stop (rs_th s) = Some [AwaitDone; SpawnStops; WaitGroupWait] /\
      lifecycle (trace (world (rs_st s)))
        = [EvNewWatchController gc_a (Some 0%nat); EvStart 0 5;
           EvNewWatchController gc_b (Some 1%nat); EvStart 1 5]
  | None => False
  end.
Proof. vm_compute. repeat split; reflexivity. Qed.

(** The Config-driven system, from [Start] to the return of [Stop], when
    the wait loop has already ended by itself. *)
Example cfg_Stop_returns :
  match run_schedule cfg_exec cfg_schedule_returned cfg_sys_fresh with
  | Some s =>
      cfg_sys_reachable s /\
      cs_loop s = CfgExited /\
      returned (cs_th s) /\
      children_pcs (cs_th s) = [ChildDone; ChildDone] /\
      running (trace (world (cs_st s))) = ∅
  | None => False
  end.
Proof.
  pose proof (cfg_schedule_reachable cfg_schedule_returned cfg_sys_fresh) as Hr.
  destruct (run_schedule cfg_exec cfg_schedule_returned cfg_sys_fresh)
    as [s|] eqn:Hrun; [|by vm_compute in Hrun].
  split; [by apply Hr; [apply cfg_sys_fresh_reachable|]|].
  vm_compute in Hrun. inversion Hrun; subst; clear Hrun.
  vm_compute. repeat split; reflexivity.
Qed.

(** [Stop] called while the wait loop runs cannot take a single
    statement. *)
Example cfg_Stop_blocks_during_wait :
  run_schedule cfg_exec cfg_schedule_blocked (cfg_sys_init cfg_fresh) = None.
Proof. vm_compute. reflexivity. Qed.

(** * The further properties on concrete runs *)

(** X1 on a run: the second of three options refuses; the constructor
    returns its error and the world is untouched. *)
Lemma failing_option_aborts_the_constructor_witness :
  run_options [SetMetaControllerConfigPath "/etc/metac"] new_obj
    = inr example_pathed /\
  fst (refusing_option example_pathed) = Some (Errorf "option refused") /\
  NewConfigBasedMetaController (handle 1) (handle 2) (handle 3) 5
    refused_opts calm_world
    = (inl (Errorf "option refused"), calm_world).
Proof.
  assert (H1 : run_options [SetMetaControllerConfigPath "/etc/metac"] new_obj
               = inr example_pathed) by reflexivity.
  assert (H2 : fst (refusing_option example_pathed)
               = Some (Errorf "option refused")) by reflexivity.
  split; [exact H1|]. split; [exact H2|].
  exact (failing_option_aborts_the_constructor (handle 1) (handle 2) (handle 3) 5
           [SetMetaControllerConfigPath "/etc/metac"] refusing_option
           [SetGenericControllerAsConfigFn example_fn] example_pathed
           (Errorf "option refused") calm_world H1 H2).
Defined.



(** X7 on a run: [gc_a] is new; its controller is constructed, started
    with five workers and filed under "ns1/a". *)
Lemma reconcile_of_a_new_definition_starts_it_witness :
  crd_map crd_fresh !! Key gc_a = None /\
  fst (syncGenericController gc_a crd_fresh) = None /\
  crd_map (snd (syncGenericController gc_a crd_fresh))
    = <[Key gc_a := wc0]> (crd_map crd_fresh) /\
  trace (world (snd (syncGenericController gc_a crd_fresh)))
    = [EvNewWatchController gc_a (Some 0%nat); EvStart 0 5].
Proof.
  assert (H1 : crd_map crd_fresh !! Key gc_a = None) by reflexivity.
  split; [exact H1|].
  destruct (reconcile_of_a_new_definition_starts_it gc_a crd_fresh H1)
    as (_ & E1 & E2 & E3 & _).
  split; [exact E1|]. split; [exact E2|exact E3].
Defined.

(** X10 on a run: a key with two slashes; the reconcile fails and nothing
    changes. *)
Lemma failed_reconcile_starts_nothing_witness :
  sync "a/b/c" crd_with_a
    = (Some (Errorf "unexpected key format: a/b/c"), crd_with_a) /\
  ((crd_with_a = crd_with_a /\
    (SplitMetaNamespaceKey "a/b/c"
       = inl (Errorf "unexpected key format: a/b/c") \/
     exists ns name,
       SplitMetaNamespaceKey "a/b/c" = inr (ns, name) /\
       Lister (self crd_with_a) ns name
         = inl (Errorf "unexpected key format: a/b/c") /\
       IsNotFound (Errorf "unexpected key format: a/b/c") = false)) \/
   (exists ns name ctrl,
      SplitMetaNamespaceKey "a/b/c" = inr (ns, name) /\
      Lister (self crd_with_a) ns name = inr ctrl /\
      discovery (world crd_with_a) (ext_calls (world crd_with_a)) ctrl
        = Some (Errorf "unexpected key format: a/b/c") /\
      crd_map crd_with_a = delete (Key ctrl) (crd_map crd_with_a) /\
      trace (world crd_with_a)
        = trace (world crd_with_a)
          ++ match crd_map crd_with_a !! Key ctrl with
             | Some c => [EvStop (wc_id c)]
             | None => []
             end
          ++ [EvNewWatchController ctrl None])).
Proof.
  assert (H1 : sync "a/b/c" crd_with_a
               = (Some (Errorf "unexpected key format: a/b/c"), crd_with_a))
    by reflexivity.
  split; [exact H1|].
  exact (failed_reconcile_starts_nothing "a/b/c" crd_with_a _ crd_with_a H1).
Defined.




(** X17 on a run: discovery fails for [gc_b] at first; the goroutine
    completes in its second turn, and then both definitions run. *)
Lemma end_of_Start_tells_what_runs_witness :
  cfg_reachable cfg_flaky_started /\
  fst (cfg_Start_goroutine 5 cfg_flaky_started) = Some Completed /\
  forall conf,
    conf ∈ GenericControllerConfigs (self cfg_flaky_started) ->
    exists c,
      cfg_map (snd (cfg_Start_goroutine 5 cfg_flaky_started)) !! Key conf = Some c /\
      Key (GCtlConfig c) = Key conf /\
      runs (trace (world (snd (cfg_Start_goroutine 5 cfg_flaky_started)))) c.
Proof.
  assert (H1 : cfg_reachable cfg_flaky_started).
  { apply cfg_started.
    apply (cfg_new (handle 1) (handle 2) (handle 3) 5 example_opts flaky_world
             example_obj (loaded flaky_world)); reflexivity. }
  assert (H2 : cfg_Start_goroutine 5 cfg_flaky_started
               = (Some Completed, snd (cfg_Start_goroutine 5 cfg_flaky_started)))
    by (vm_compute; reflexivity).
  split; [exact H1|]. split; [exact (f_equal fst H2)|].
  exact (proj2 (end_of_Start_tells_what_runs 5 cfg_flaky_started Completed _
                  H1 H2)).
Defined.

(** * More runs of the model *)

(** The protocol accepts the life of a controller and rejects a second
    stop, a second start and a start without construction. *)
Example protocol_examples :
  protocol [EvNewWatchController gc_a (Some 0%nat); EvStart 0 5; EvStop 0]
    = Some {[0%nat := PhStopped]} /\
  protocol stopped_twice = None /\
  protocol [EvNewWatchController gc_a (Some 0%nat); EvStart 0 5; EvStart 0 5]
    = None /\
  protocol [EvStart 0 5] = None /\
  protocol [EvNewWatchController gc_a None; EvSleep Second] = Some ∅.
Proof. vm_compute. repeat split; reflexivity. Qed.

(** A key without slash is looked up in the empty namespace. *)
Example bare_key_is_cluster_scoped :
  count_char slash "a" = 0%nat /\
  count_char slash "ns1/a" = 1%nat /\
  count_char slash "a/b/c" = 2%nat /\
  sync "a" crd_fresh = sync_found_or_gone "a" "" "a" crd_fresh /\
  fst (sync "a" crd_fresh) = None /\
  snd (sync "a" crd_fresh) = crd_fresh.
Proof. repeat split; reflexivity. Qed.
